(** * arc: a radix tree over byte-string keys with a deduplicating blob store

    A shallow embedding of [arc.go] and [node.go], together with the blob
    store and the node serialization that the tests of the repository
    exercise, and the properties of the specification proved over it.

    Conventions of the embedding.

    - A Go [[]byte] is an [option (list byte)]: [None] is the nil slice, which
      the code tells apart from an empty one ([key == nil]).
    - A [*node] that is linked into the tree is a position in the tree.  The
      chain [firstChild], [nextSibling], [nextSibling], ... of a node is the
      list [children]; the cached [numChildren] stays a field of its own.
      A traversal that keeps [parent] and [current] pointers is a walk with
      the path back to the root ([frame]s): [current == a.root] is "the path
      is empty", and a write through [current] or [parent] is the replacement
      of that position ([plug]).
    - Go's [int] is a 64-bit two's complement integer: counters are [Z] with
      the wrap-around written out ([int_wrap]).  Lengths of slices are [nat].
    - Go's [for { ... }] loops take fuel; the entry points give them the
      height of the tree, and the development proves that this is enough.
    - A call that dereferences a nil pointer is [Panics]. *)

From Stdlib Require Import ZArith List Lia.
From Stdlib.Strings Require Import Byte String.
From stdpp Require Import gmap list sorting.

Set Warnings "-register-all".

Open Scope Z_scope.

(** ** Byte slices *)

Abbreviation byte := Byte.byte.

#[global] Instance byte_eq_dec : EqDecision byte := Byte.byte_eq_dec.
#[global] Instance byte_countable : Countable byte :=
  inj_countable Byte.to_N Byte.of_N Byte.of_to_N.

Definition bytes : Type := option (list byte).

(** The elements of a slice; the nil slice has none. *)
Definition elems (b : bytes) : list byte := default [] b.

(** [len(b)] *)
Definition len (b : bytes) : nat := length (elems b).

(** [b == nil] *)
Definition is_nil (b : bytes) : bool :=
  match b with None => true | Some _ => false end.

(** [b[i:]] and [b[:i]], for [i <= len(b)]; slicing nil gives nil. *)
Definition slice_from (b : bytes) (i : nat) : bytes := drop i <$> b.
Definition slice_to (b : bytes) (i : nat) : bytes := take i <$> b.

(** [bytes.Equal]: nil and empty are equal. *)
Definition bytes_Equal (a b : bytes) : bool := bool_decide (elems a = elems b).

(** [bytes.Compare]: lexicographic, -1, 0 or 1. *)
Fixpoint compare_elems (a b : list byte) : Z :=
  match a, b with
  | [], [] => 0
  | [], _ :: _ => -1
  | _ :: _, [] => 1
  | x :: a', y :: b' =>
      if (Byte.to_N x <? Byte.to_N y)%N then -1
      else if (Byte.to_N y <? Byte.to_N x)%N then 1
      else compare_elems a' b'
  end.

Definition bytes_Compare (a b : bytes) : Z := compare_elems (elems a) (elems b).

(** The loop of [longestCommonPrefix]: the first index below both lengths at
    which the slices differ, or the shorter length. *)
Fixpoint mismatch (a b : list byte) : nat :=
  match a, b with
  | x :: a', y :: b' => if bool_decide (x = y) then S (mismatch a' b') else O
  | _, _ => O
  end.

Definition longestCommonPrefix (a b : bytes) : bytes :=
  let i := mismatch (elems a) (elems b) in
  if (i =? 0)%nat then None else slice_to a i.

(** ** Errors, integers, results *)

Inductive error : Type :=
  | ErrCorrupted
  | ErrKeyNotFound
  | ErrKeyTooLarge
  | ErrNilKey
  | ErrValueTooLarge
  | ErrInvalidChecksum.

Definition maxUint16 : Z := 2 ^ 16 - 1.
Definition maxUint32 : Z := 2 ^ 32 - 1.
Definition maxKeyBytes : Z := maxUint16.
Definition maxValueBytes : Z := maxUint32.

(** Go's [int] on the 64-bit targets: the result of an addition, wrapped. *)
Definition int_wrap (z : Z) : Z := (z + 2 ^ 63) `mod` 2 ^ 64 - 2 ^ 63.

Inductive run (A : Type) : Type :=
  | Returns (x : A)
  | Panics
  | OutOfFuel.
Arguments Returns {A} x.
Arguments Panics {A}.
Arguments OutOfFuel {A}.

(** ** The blob store *)

Module Blob.

(** Modelled from the spec: the content hash behind [makeBlobID], which the
    sources do not contain.  The specification fixes no algorithm, only
    that the identifier is a function of the content. *)
Class Hash : Type := makeBlobID : list byte → list byte.

(** Modelled from the spec: the entry [{value bytes, refCount}] of the blob
    store; [blob_test.go] reads its fields [value] and [refCount]. *)
Record blob : Type := mkBlob { value : bytes; refCount : Z }.

(** Modelled from the spec: the store, a Go [map] from identifiers to
    entries. *)
Abbreviation blobStore := (gmap (list byte) blob).

Section store.
Context {H : Hash}.

(** Modelled from the spec: [blobStore.put], absent from the sources.
    "computes a content hash of value; if an entry with that ID exists,
    increments refCount; otherwise inserts a new entry with refCount 1.
    Always returns the ID." *)
Definition put (bs : blobStore) (v : bytes) : blobStore * list byte :=
  let id := makeBlobID (elems v) in
  match bs !! id with
  | Some b => (<[id := mkBlob (value b) (refCount b + 1)]> bs, id)
  | None => (<[id := mkBlob v 1]> bs, id)
  end.

(** Modelled from the spec: [blobStore.get], absent from the sources.
    "returns a reference to stored value bytes; absent if ID unknown." *)
Definition get (bs : blobStore) (id : bytes) : bytes :=
  match bs !! elems id with
  | Some b => value b
  | None => None
  end.

(** Modelled from the spec: [blobStore.release], absent from the sources.
    "decrements refCount if present; removes the entry at zero; silently
    ignores unknown IDs." *)
Definition release (bs : blobStore) (id : bytes) : blobStore :=
  match bs !! elems id with
  | Some b =>
      if refCount b - 1 =? 0 then delete (elems id) bs
      else <[elems id := mkBlob (value b) (refCount b - 1)]> bs
  | None => bs
  end.

(** [n] calls of [put] with the same value, as the loops of
    [blob_test.go] make them; the identifiers returned, first call
    first. *)
Fixpoint put_times (n : nat) (bs : blobStore) (v : bytes)
  : blobStore * list (list byte) :=
  match n with
  | O => (bs, [])
  | S n' =>
      let '(bs1, id) := put bs v in
      let '(bs2, ids) := put_times n' bs1 v in
      (bs2, id :: ids)
  end.

(** The stores a program can build: from the empty map, by [put] and
    [release]. *)
Inductive built : blobStore → Prop :=
  | built_empty : built ∅
  | built_put bs v : built bs → built (put bs v).1
  | built_release bs id : built bs → built (release bs id).
End store.

End Blob.

(** Modelled from the spec: [inlineValueThreshold], declared outside the
    sources; "a fixed inline threshold, 32 bytes". *)
Definition inlineValueThreshold : nat := 32.

(** ** Nodes ([node.go]) *)

Inductive node : Type :=
  mkNode {
    key : bytes;            (* Path segment of the node. *)
    isRecord : bool;        (* True if the node contains a database record. *)
    blobValue : bool;       (* True if the value is stored in the blobStore. *)
    numChildren : Z;        (* Number of connected child nodes. *)
    children : list node;   (* firstChild and the nextSibling chain from it. *)
    data : bytes            (* The content, or the blobID of the content. *)
  }.

(** [&node{}] and [&node{key: k}] *)
Definition emptyNode : node := mkNode None false false 0 [] None.
Definition keyNode (k : bytes) : node := mkNode k false false 0 [] None.

Definition hasChildren (n : node) : bool :=
  match children n with [] => false | _ :: _ => true end.

Definition isLeaf (n : node) : bool :=
  match children n with [] => true | _ :: _ => false end.

(** The scan of [findChild]: the first child whose key equals [k]. *)
Fixpoint findChild_from (cs : list node) (k : bytes) : error + node :=
  match cs with
  | [] => inl ErrKeyNotFound
  | child :: rest =>
      if bytes_Equal (key child) k then inr child else findChild_from rest k
  end.

Definition findChild (n : node) (k : bytes) : error + node :=
  findChild_from (children n) k.

(** The scan of [findCompatibleChild], from the [i]-th child on: the first
    child that shares a prefix with [k], with its position in the chain. *)
Fixpoint findCompatibleChild_from (i : nat) (cs : list node) (k : bytes)
  : option (nat * node) :=
  match cs with
  | [] => None
  | child :: rest =>
      let prefix := longestCommonPrefix (key child) k in
      if (0 <? len prefix)%nat then Some (i, child)
      else findCompatibleChild_from (S i) rest k
  end.

Definition findCompatibleChild (n : node) (k : bytes) : option (nat * node) :=
  findCompatibleChild_from 0 (children n) k.

Definition setKey (n : node) (k : bytes) : node :=
  mkNode k (isRecord n) (blobValue n) (numChildren n) (children n) (data n).

Section node_values.
Context {H : Blob.Hash}.

(** [n.value(bs)] *)
Definition value (n : node) (bs : Blob.blobStore) : bytes :=
  match data n with
  | None => None
  | Some d => if negb (blobValue n) then Some d else Blob.get bs (data n)
  end.

(** [n.setValue(bs, value)]; the store is a Go map, written in place, so
    the store after the call is a result. *)
Definition setValue (bs : Blob.blobStore) (n : node) (v : bytes)
  : Blob.blobStore * node :=
  let bs1 := if blobValue n then Blob.release bs (data n) else bs in
  if (len v <=? inlineValueThreshold)%nat then
    (bs1, mkNode (key n) true false (numChildren n) (children n) v)
  else
    let '(bs2, id) := Blob.put bs1 v in
    (bs2, mkNode (key n) true true (numChildren n) (children n) (Some id)).

(** [n.deleteValue(bs)] *)
Definition deleteValue (bs : Blob.blobStore) (n : node)
  : Blob.blobStore * node :=
  let bs1 := if blobValue n then Blob.release bs (data n) else bs in
  (bs1, mkNode (key n) (isRecord n) (blobValue n) (numChildren n)
          (children n) None).
End node_values.

(** [n.prependKey(prefix)]: a fresh slice holding [prefix] and then the key. *)
Definition prependKey (n : node) (prefix : bytes) : node :=
  if (len prefix =? 0)%nat then n
  else setKey n (Some (elems prefix ++ elems (key n))).

(** The loop of [addChild]: [current] is linked, [rest] is the chain after
    it; advance while the next sibling's key is smaller than the child's,
    then link the child between [current] and its next sibling. *)
Fixpoint addChild_after (child current : node) (rest : list node) : list node :=
  match rest with
  | next :: rest' =>
      if bytes_Compare (key next) (key child) <? 0
      then current :: addChild_after child next rest'
      else current :: child :: rest
  | [] => [current; child]
  end.

Definition addChild (n child : node) : node :=
  let cs :=
    match children n with
    | [] => [child]
    | first :: rest =>
        if bytes_Compare (key child) (key first) <? 0 then child :: first :: rest
        else addChild_after child first rest
    end in
  mkNode (key n) (isRecord n) (blobValue n) (int_wrap (numChildren n + 1))
    cs (data n).

(** The loop of [removeChild]: [current] is linked and does not match; unlink
    the first later sibling whose key equals [k]. *)
Fixpoint removeChild_after (k : bytes) (current : node) (rest : list node)
  : option (list node) :=
  match rest with
  | next :: rest' =>
      if bytes_Equal (key next) k then Some (current :: rest')
      else cons current <$> removeChild_after k next rest'
  | [] => None
  end.

Definition removeChild (n child : node) : error + node :=
  match children n with
  | [] => inl ErrKeyNotFound
  | first :: rest =>
      let unlinked :=
        if bytes_Equal (key first) (key child) then Some rest
        else removeChild_after (key child) first rest in
      match unlinked with
      | Some cs =>
          inr (mkNode (key n) (isRecord n) (blobValue n)
                 (int_wrap (numChildren n - 1)) cs (data n))
      | None => inl ErrKeyNotFound
      end
  end.

(** The longest chain of descents below a node, the node counted. *)
Fixpoint height (n : node) : nat :=
  S (foldr (λ c h, Nat.max (height c) h) O (children n)).

(** ** Positions in the tree *)

(** One step of the way back from a linked node to the root: the node that
    is its parent, and its place in the parent's chain of children. *)
Definition frame : Type := (node * nat)%type.

(** The node [p] after a write through the pointer to its [i]-th child. *)
Definition setChild (p : node) (i : nat) (c : node) : node :=
  mkNode (key p) (isRecord p) (blobValue p) (numChildren p)
    (<[i := c]> (children p)) (data p).

(** The root of the tree once the node at the end of the path [ctx] (nearest
    parent first) has been written and reads [n]. *)
Definition plug (ctx : list frame) (n : node) : node :=
  foldl (λ c f, setChild f.1 f.2 c) n ctx.

(** ** The tree ([arc.go]) *)

(** [arc.go] calls [setValue] without the store that [node.go]'s [setValue]
    takes; the store is the handle's, the [blobs] that the tests reach as
    [rdb.blobs].  The lock [mu] guards every entry point for its whole
    duration and has no place in a sequential run. *)
Record Arc : Type :=
  mkArc {
    root : option node;     (* Pointer to the root node. *)
    numNodes : Z;           (* Number of nodes in the tree. *)
    numRecords : Z;         (* Number of records in the tree. *)
    blobs : Blob.blobStore
  }.

Definition New : Arc := mkArc None 0 0 ∅.

Definition Len (a : Arc) : Z := numRecords a.

Definition empty (a : Arc) : bool :=
  match root a with
  | None => numRecords a =? 0
  | Some _ => false
  end.

(** [a.clear()]; the blob store is not touched. *)
Definition clear (a : Arc) : Arc := mkArc None 0 0 (blobs a).

Definition Clear (a : Arc) : Arc := clear a.

Section tree.
Context {H : Blob.Hash}.

(** [a.splitNode(parent, current, newNode, commonPrefix)]; [parent] is the
    nearest frame of [ctx], and [current == a.root] when there is none.  The
    error of [parent.removeChild(current)] is dropped, as the code drops it. *)
Definition splitNode (a : Arc) (ctx : list frame) (current newNode : node)
    (commonPrefix : bytes) : Arc :=
  let newParent := keyNode commonPrefix in
  let current1 := setKey current (slice_from (key current) (len commonPrefix)) in
  let newNode1 := setKey newNode (slice_from (key newNode) (len commonPrefix)) in
  match ctx with
  | [] =>
      let newParent1 := addChild newParent current1 in
      let newParent2 := addChild newParent1 newNode1 in
      mkArc (Some newParent2) (int_wrap (numNodes a + 2))
        (int_wrap (numRecords a + 1)) (blobs a)
  | (parent, _) :: up =>
      let parent1 :=
        match removeChild parent current with
        | inr p => p
        | inl _ => parent
        end in
      let newParent1 := addChild newParent current1 in
      let newParent2 := addChild newParent1 newNode1 in
      let parent2 := addChild parent1 newParent2 in
      mkArc (Some (plug up parent2)) (int_wrap (numNodes a + 2))
        (int_wrap (numRecords a + 1)) (blobs a)
  end.

(** The loop of [Put].  [k] is the loop's [key], the part of the key that is
    still to be matched; [v] is the value. *)
Fixpoint put_loop (fuel : nat) (a : Arc) (ctx : list frame) (current : node)
    (k : bytes) (newNode : node) (v : bytes) : run (Arc * option error) :=
  match fuel with
  | O => OutOfFuel
  | S fuel' =>
      let prefix := longestCommonPrefix (key current) k in
      let prefixLen := len prefix in
      if (prefixLen =? len (key current))%nat
         && (prefixLen =? len (key newNode))%nat then
        (* Found exact match. *)
        let records :=
          if negb (isRecord current) then int_wrap (numRecords a + 1)
          else numRecords a in
        let '(bs, current1) := setValue (blobs a) current v in
        Returns (mkArc (Some (plug ctx current1)) (numNodes a) records bs, None)
      else if (prefixLen =? len (key newNode))%nat
              && (prefixLen <? len (key current))%nat then
        (* newNode becomes the parent of current. *)
        let current1 :=
          setKey current (slice_from (key current) (len (key newNode))) in
        match ctx with
        | [] =>
            let newNode1 := addChild newNode current1 in
            Returns (mkArc (Some newNode1) (int_wrap (numNodes a + 1))
                       (int_wrap (numRecords a + 1)) (blobs a), None)
        | (parent, _) :: up =>
            match removeChild parent current with
            | inl err => Returns (a, Some err)
            | inr parent1 =>
                let newNode1 := addChild newNode current1 in
                let parent2 := addChild parent1 newNode1 in
                Returns (mkArc (Some (plug up parent2))
                           (int_wrap (numNodes a + 1))
                           (int_wrap (numRecords a + 1)) (blobs a), None)
            end
        end
      else if (0 <? prefixLen)%nat && (prefixLen <? len (key current))%nat then
        (* Partial match: insert via node splitting. *)
        Returns (splitNode a ctx current newNode prefix, None)
      else
        let k1 := slice_from k prefixLen in
        let nextNode := findCompatibleChild current k1 in
        let newNode1 := setKey newNode (slice_from (key newNode) prefixLen) in
        match nextNode with
        | None =>
            (* Reached the deepest level of the tree for the given key. *)
            match ctx with
            | [] =>
                if is_nil (key current)
                   || (prefixLen =? len (key current))%nat then
                  Returns (mkArc (Some (addChild current newNode1))
                             (int_wrap (numNodes a + 1))
                             (int_wrap (numRecords a + 1)) (blobs a), None)
                else
                  let newRoot :=
                    addChild (addChild (keyNode prefix) current) newNode1 in
                  Returns (mkArc (Some newRoot)
                             (int_wrap (numNodes a + 2))
                             (int_wrap (numRecords a + 1)) (blobs a), None)
            | _ :: _ =>
                Returns (mkArc (Some (plug ctx (addChild current newNode1)))
                           (int_wrap (numNodes a + 1))
                           (int_wrap (numRecords a + 1)) (blobs a), None)
            end
        | Some (i, child) =>
            (* parent = current; current = nextNode *)
            put_loop fuel' a ((current, i) :: ctx) child k1 newNode1 v
        end
  end.

(** [a.Put(key, value)] *)
Definition Put (a : Arc) (k v : bytes) : run (Arc * option error) :=
  if is_nil k then Returns (a, Some ErrNilKey)
  else if Z.of_nat (len k) >? maxKeyBytes then Returns (a, Some ErrKeyTooLarge)
  else if Z.of_nat (len v) >? maxValueBytes then
    Returns (a, Some ErrValueTooLarge)
  else
    let newNode0 := setKey emptyNode k in
    let '(bs, newNode) := setValue (blobs a) newNode0 v in
    let a := mkArc (root a) (numNodes a) (numRecords a) bs in
    if empty a then Returns (mkArc (Some newNode) 1 1 (blobs a), None)
    else
      match root a with
      | None => Panics
      | Some r =>
          if (0 <? len (key r))%nat && is_nil (longestCommonPrefix (key r) k)
          then
            let newRoot := addChild (addChild (keyNode None) r) newNode in
            Returns (mkArc (Some newRoot) (int_wrap (numNodes a + 2))
                       (int_wrap (numRecords a + 1)) (blobs a), None)
          else put_loop (height r) a [] r k newNode v
      end.

(** What [findNodeAndParent] hands back when it finds the node: the node, the
    way from it to the root (empty exactly when the node is [a.root]), and the
    loop's [parent] variable. *)
Definition found : Type := (node * list frame * option node)%type.

(** The loop of [findNodeAndParent]. *)
Fixpoint find_loop (fuel : nat) (ctx : list frame) (parent : option node)
    (current : node) (k : bytes) : run (error + found) :=
  match fuel with
  | O => OutOfFuel
  | S fuel' =>
      let prefix := longestCommonPrefix (key current) k in
      let prefixLen := len prefix in
      if is_nil prefix && negb (bool_decide (ctx = [])) then
        Returns (inl ErrKeyNotFound)
      else if negb (prefixLen =? len (key current))%nat then
        Returns (inl ErrKeyNotFound)
      else if (prefixLen =? len k)%nat then
        Returns (inr (current, ctx, parent))
      else if negb (hasChildren current) then Returns (inl ErrKeyNotFound)
      else
        let k1 := slice_from k (len prefix) in
        match findCompatibleChild current k1 with
        | None => Returns (inl ErrKeyNotFound)
        | Some (i, child) =>
            find_loop fuel' ((current, i) :: ctx) (Some current) child k1
        end
  end.

Definition findNodeAndParent (a : Arc) (k : bytes) : run (error + found) :=
  if is_nil k then Returns (inl ErrNilKey)
  else if empty a then Returns (inl ErrKeyNotFound)
  else
    match root a with
    | None => Panics
    | Some r => find_loop (height r) [] None r k
    end.

(** [a.Get(key)] *)
Definition Get (a : Arc) (k : bytes) : run (bytes * option error) :=
  if is_nil k then Returns (None, Some ErrNilKey)
  else
    match findNodeAndParent a k with
    | Returns (inl err) => Returns (None, Some err)
    | Returns (inr (n, _, _)) =>
        if negb (isRecord n) then Returns (None, Some ErrKeyNotFound)
        else Returns (data n, None)
    | Panics => Panics
    | OutOfFuel => OutOfFuel
    end.

(** [a.deleteRootNode()] *)
Definition deleteRootNode (a : Arc) : run Arc :=
  match root a with
  | None => Panics
  | Some r =>
      if isLeaf r then Returns (clear a)
      else if numChildren r =? 1 then
        match children r with
        | [] => Panics
        | child :: _ =>
            let child1 := prependKey child (key r) in
            Returns (mkArc (Some child1) (int_wrap (numNodes a - 1))
                       (int_wrap (numRecords a - 1)) (blobs a))
        end
      else
        let r1 :=
          mkNode (key r) false (blobValue r) (numChildren r) (children r) None in
        Returns (mkArc (Some r1) (numNodes a) (int_wrap (numRecords a - 1))
                   (blobs a))
  end.

(** [a.Delete(key)] *)
Definition Delete (a : Arc) (k : bytes) : run (Arc * option error) :=
  if is_nil k then Returns (a, Some ErrNilKey)
  else if empty a then Returns (a, Some ErrKeyNotFound)
  else if Z.of_nat (len k) >? maxKeyBytes then Returns (a, Some ErrKeyTooLarge)
  else
    match findNodeAndParent a k with
    | Returns (inl err) => Returns (a, Some err)
    | Returns (inr (delNode, ctx, parent)) =>
        if negb (isRecord delNode) then Returns (a, Some ErrKeyNotFound)
        else if bool_decide (ctx = []) then
          match deleteRootNode a with
          | Returns a1 => Returns (a1, None)
          | Panics => Panics
          | OutOfFuel => OutOfFuel
          end
        else
          match parent with
          | None => Returns (a, Some ErrCorrupted)
          | Some _ => Returns (a, None)
          end
    | Panics => Panics
    | OutOfFuel => OutOfFuel
    end.

End tree.

(** ** Node serialization *)

Module Serial.

(** [byte(z)]: the low eight bits. *)
Definition byte_of_Z (z : Z) : byte :=
  default Byte.x00 (Byte.of_N (Z.to_N (Z.land z 255))).

Definition Z_of_byte (b : byte) : Z := Z.of_N (Byte.to_N b).

(** [binary.LittleEndian.PutUintNN]: [w] bytes, least significant first. *)
Fixpoint le_bytes (w : nat) (z : Z) : list byte :=
  match w with
  | O => []
  | S w' => byte_of_Z z :: le_bytes w' (Z.shiftr z 8)
  end.

(** [binary.Read(reader, binary.LittleEndian, &x)] over the bytes of [x]. *)
Fixpoint le_value (l : list byte) : Z :=
  match l with
  | [] => 0
  | b :: l' => Z.lor (Z_of_byte b) (Z.shiftl (le_value l') 8)
  end.

Definition sizeOfUint16 : nat := 2.
Definition sizeOfUint32 : nat := 4.
Definition sizeOfUint64 : nat := 8.

(** Modelled from the spec: the function behind [calculateChecksum], which
    the sources do not contain; "a fixed-width integrity value computed over
    {keySegment, value bytes, isRecord}". *)
Class Checksum : Type := checksumOf : bytes → bytes → bool → Z.

(** Modelled from the spec: the [checksum] field (a [uint32]) that the
    serialization code keeps in a node, next to the fields of [node.go]. *)
Record checked : Type := mkChecked { base : node; checksum : Z }.

Section serialize.
Context {C : Checksum}.

(** Modelled from the spec: [calculateChecksum], as a [uint32]. *)
Definition calculateChecksum (n : node) : Z :=
  checksumOf (key n) (data n) (isRecord n) `mod` 2 ^ 32.

(** Modelled from the spec: [updateChecksum], "recompute the checksum". *)
Definition updateChecksum (n : checked) : checked :=
  mkChecked (base n) (calculateChecksum (base n)).

(** Modelled from the spec: [verifyChecksum], "check the checksum over
    {keySegment, value, isRecord}". *)
Definition verifyChecksum (n : checked) : bool :=
  checksum n =? calculateChecksum (base n).

(** Modelled from the spec: [serializeWithoutKey], absent from the sources.
    "fails with an invalid-checksum condition unless verifyChecksum()
    currently holds.  On success, emits, in order: checksum (4 bytes), value
    length (8 bytes), value bytes, child count (2 bytes), and a reserved
    fixed-size region sized for exactly two 8-byte offset slots."  The writes
    go to a buffer one after the other; the reserved slots are written as
    zero bytes. *)
Definition serializeWithoutKey (n : checked) : error + list byte :=
  if negb (verifyChecksum n) then inl ErrInvalidChecksum
  else
    let buf := [] in
    let buf := buf ++ le_bytes sizeOfUint32 (checksum n) in
    let buf := buf ++ le_bytes sizeOfUint64 (Z.of_nat (len (data (base n)))) in
    let buf := buf ++ elems (data (base n)) in
    let buf := buf ++ le_bytes sizeOfUint16 (numChildren (base n)) in
    let buf := buf ++ replicate (sizeOfUint64 * 2) Byte.x00 in
    inr buf.

(** Modelled from the spec: [serializedSize], "exact byte length of what
    serializeWithoutKey would produce". *)
Definition serializedSize (n : checked) : nat :=
  sizeOfUint32 + sizeOfUint64 + len (data (base n)) + sizeOfUint16
  + sizeOfUint64 * 2.

(** The fields as Go types them: the length of a slice is a non-negative
    [int], the child count of the serialized form a [uint16]. *)
Definition typed (n : checked) : Prop :=
  Z.of_nat (len (data (base n))) < 2 ^ 63
  ∧ 0 ≤ numChildren (base n) < 2 ^ 16.

End serialize.

End Serial.

(** ** Predicates of the specification *)

(** [len(longestCommonPrefix(a, b)) > 0], the test of
    [findCompatibleChild]. *)
Definition sharePrefix (a b : bytes) : bool :=
  (0 <? len (longestCommonPrefix a b))%nat.

(** No two of the siblings [cs] share a non-empty prefix. *)
Definition siblingsDisjoint (cs : list node) : Prop :=
  ∀ i j ci cj,
    cs !! i = Some ci → cs !! j = Some cj → i ≠ j →
    sharePrefix (key ci) (key cj) = false.

(** [subnode m n]: [m] is [n] or a node below it. *)
Inductive subnode : node → node → Prop :=
  | subnode_here n : subnode n n
  | subnode_below m c n : c ∈ children n → subnode m c → subnode m n.

(** The first byte of a key segment, if it has one. *)
Definition firstByte (n : node) : option byte := head (elems (key n)).

(** The invariant behind sibling disjointness, in the form the proofs carry:
    at every node the first bytes of the children's non-empty key segments
    are pairwise distinct. *)
Inductive distinctHeads : node → Prop :=
  | distinctHeads_node n :
      NoDup (omap firstByte (children n)) →
      Forall distinctHeads (children n) →
      distinctHeads n.

(** The way [ctx] leads from the linked node [n] to the root: each frame
    holds the parent with the node below it in the place it names, and every
    parent has the invariant. *)
Fixpoint ctx_ok (ctx : list frame) (n : node) : Prop :=
  match ctx with
  | [] => True
  | (p, i) :: up => children p !! i = Some n ∧ distinctHeads p ∧ ctx_ok up p
  end.

(** Where the loop of [findNodeAndParent] ends.  [finds atRoot current k n]:
    started at [current] with [k] left of the key, the loop returns [n];
    [atRoot] says that [current] is [a.root]. *)
Inductive finds : bool → node → bytes → node → Prop :=
  | finds_here atRoot current k :
      mismatch (elems (key current)) (elems k) = len (key current) →
      len k = len (key current) →
      atRoot = true ∨ (0 < len k)%nat →
      finds atRoot current k current
  | finds_below atRoot current k i child n :
      mismatch (elems (key current)) (elems k) = len (key current) →
      (len (key current) < len k)%nat →
      atRoot = true ∨ (0 < len (key current))%nat →
      findCompatibleChild current (slice_from k (len (key current)))
      = Some (i, child) →
      finds false child (slice_from k (len (key current))) n →
      finds atRoot current k n.

(** The state of the loop of [Put]: [ctx] leads from [current] up to the
    root, the loop came down this way from the key [K], and [k] is what is
    left of [K] at [current]. *)
Fixpoint leads (ctx : list frame) (current : node) (k K : bytes) : Prop :=
  match ctx with
  | [] => k = K
  | (p, i) :: up =>
      children p !! i = Some current
      ∧ distinctHeads p
      ∧ sharePrefix (key current) k = true
      ∧ ∃ kp, leads up p kp K
              ∧ mismatch (elems (key p)) (elems kp) = len (key p)
              ∧ (len (key p) < len kp)%nat
              ∧ (up = [] ∨ (0 < len (key p))%nat)
              ∧ k = slice_from kp (len (key p))
  end.

Section reach.
Context {H : Blob.Hash}.

(** What [setValue] leaves in [node.data] for the value [v]. *)
Definition stored (v : bytes) : bytes :=
  if (len v <=? inlineValueThreshold)%nat then v
  else Some (Blob.makeBlobID (elems v)).

(** The trees that successful calls of [Put] build from the empty tree. *)
Inductive reachable : Arc → Prop :=
  | reachable_New : reachable New
  | reachable_Put a k v a' :
      reachable a → Put a k v = Returns (a', None) → reachable a'.

End reach.

(** ** Invariants of the child lists *)

(** The order [addChild] keeps among siblings: [bytes.Compare] of the key
    segments is not positive. *)
Definition nodeLe (c d : node) : Prop := bytes_Compare (key c) (key d) ≤ 0.

(** At [n] and at every node below it the children are in the order of
    their key segments, and [numChildren] is the number of the children as
    the [int] holds it. *)
Inductive tidy : node → Prop :=
  | tidy_node n :
      StronglySorted nodeLe (children n) →
      numChildren n = int_wrap (Z.of_nat (length (children n))) →
      Forall tidy (children n) →
      tidy n.

(** [ctx_ok] for [tidy]: every parent on the way up is tidy. *)
Fixpoint tidy_ctx (ctx : list frame) (n : node) : Prop :=
  match ctx with
  | [] => True
  | (p, i) :: up => children p !! i = Some n ∧ tidy p ∧ tidy_ctx up p
  end.

(** No node below [n], nor a child of [n], has an empty key segment. *)
Inductive proper : node → Prop :=
  | proper_node n :
      Forall (λ c, (0 < len (key c))%nat) (children n) →
      Forall proper (children n) →
      proper n.

(** [ctx_ok] for [proper]: every parent on the way up is proper. *)
Fixpoint proper_ctx (ctx : list frame) (n : node) : Prop :=
  match ctx with
  | [] => True
  | (p, i) :: up => children p !! i = Some n ∧ proper p ∧ proper_ctx up p
  end.

Section live_def.
Context {H : Blob.Hash}.

(** The trees a program can hold: what calls of [Put], [Delete] and [Clear]
    that return, with or without an error, make of the tree of [New]. *)
Inductive live : Arc → Prop :=
  | live_New : live New
  | live_Put a k v a' e : live a → Put a k v = Returns (a', e) → live a'
  | live_Delete a k a' e : live a → Delete a k = Returns (a', e) → live a'
  | live_Clear a : live a → live (Clear a).

End live_def.

(** ** What a lookup reads *)

(** The record that the loop of [findNodeAndParent] comes to when it starts
    at [n] with [k] left of the key, and what [Get] then returns for it: the
    [data] of the node found when that node is a record, nothing when the
    loop ends in [ErrKeyNotFound] or at a node that is no record.  [atRoot]
    says that [n] is [a.root].  The recursion is on the tree, where the loop
    of the code follows pointers; [Get_valueAt] shows that the two agree. *)
Fixpoint valueAt (atRoot : bool) (n : node) (k : list byte) {struct n}
  : option bytes :=
  let m := mismatch (elems (key n)) k in
  if (m =? 0)%nat && negb atRoot then None
  else if negb (m =? len (key n))%nat then None
  else if (m =? length k)%nat then
    if isRecord n then Some (data n) else None
  else
    (fix below (cs : list node) : option bytes :=
       match cs with
       | [] => None
       | c :: cs' =>
           if (0 <? mismatch (elems (key c)) (drop m k))%nat
           then valueAt false c (drop m k)
           else below cs'
       end) (children n).

(** [valueAt] below the first of the children [cs] that shares a prefix with
    [k], as [findCompatibleChild] picks it. *)
Fixpoint valueBelow (cs : list node) (k : list byte) : option bytes :=
  match cs with
  | [] => None
  | c :: cs' =>
      if (0 <? mismatch (elems (key c)) k)%nat then valueAt false c k
      else valueBelow cs' k
  end.

(** [valueAt] from the root of the tree [a]; nothing in the empty tree. *)
Definition valueOf (a : Arc) (l : list byte) : option bytes :=
  match root a with
  | Some r => valueAt true r l
  | None => None
  end.

Section model_def.
Context {H : Blob.Hash}.

(** [holds a m]: the tree [a] was made from the tree of [New] by calls of
    [Put], [Delete] and [Clear] that returned, no [Put] of the empty key
    among those that succeeded, and [m] is the finite map that goes with
    these calls.  A successful [Put] is the insertion of what [setValue]
    stores, and [Clear] empties the map.  A [Delete] that returns no error
    removes the key from the map when the key is the key of the root node;
    every other call of [Delete], and every call that returns an error,
    leaves the map as it is. *)
Inductive holds : Arc → gmap (list byte) bytes → Prop :=
  | holds_New : holds New ∅
  | holds_Put a m k v a' :
      holds a m → (0 < len k)%nat → Put a k v = Returns (a', None) →
      holds a' (<[elems k := stored v]> m)
  | holds_Put_error a m k v a' e :
      holds a m → Put a k v = Returns (a', Some e) → holds a' m
  | holds_Delete_root a m k a' r :
      holds a m → root a = Some r → elems (key r) = elems k →
      Delete a k = Returns (a', None) →
      holds a' (delete (elems k) m)
  | holds_Delete_other a m k a' e :
      holds a m → (∀ r, root a = Some r → elems (key r) ≠ elems k) →
      Delete a k = Returns (a', e) →
      holds a' m
  | holds_Delete_error a m k a' e :
      holds a m → Delete a k = Returns (a', Some e) → holds a' m
  | holds_Clear a m : holds a m → holds (Clear a) ∅.

End model_def.

(** ** Values of the worked examples *)

(** [[]byte("...")] *)
Definition lit (s : string) : bytes := Some (list_byte_of_string s).

(** A one-byte content hash for the examples: the sum of the bytes. *)
Definition sumHash : Blob.Hash :=
  λ v, [Serial.byte_of_Z (foldr (λ b s, Serial.Z_of_byte b + s) 0 v)].

(** A checksum for the examples: the sum of the bytes of key and value, and
    one more for a record. *)
Definition sumChecksum : Serial.Checksum :=
  λ k d r,
    foldr (λ b s, Serial.Z_of_byte b + s) 0 (elems k ++ elems d)
    + (if r then 1 else 0).

(** The tree of the scenario of the specification: "apple", "application"
    and "apply" below the branch node "appl". *)
Definition applTree : node :=
  mkNode (lit "appl") false false 3
    [ mkNode (lit "e") true false 0 [] (lit "sauce");
      mkNode (lit "ication") true false 0 [] (lit "form");
      mkNode (lit "y") true false 0 [] (lit "verb") ]
    None.

Definition applArc : Arc := mkArc (Some applTree) 4 3 ∅.

(** Trees whose root is a record: a leaf, a root with one child, a root
    with two. *)
Definition leafArc : Arc :=
  mkArc (Some (mkNode (lit "apple") true false 0 [] (lit "sauce"))) 1 1 ∅.

Definition chainArc : Arc :=
  mkArc (Some (mkNode (lit "app") true false 1
                 [ mkNode (lit "le") true false 0 [] (lit "sauce") ]
                 (lit "store")))
    2 2 ∅.

Definition forkArc : Arc :=
  mkArc (Some (mkNode (lit "appl") true false 2
                 [ mkNode (lit "e") true false 0 [] (lit "sauce");
                   mkNode (lit "y") true false 0 [] (lit "verb") ]
                 (lit "abbr")))
    3 3 ∅.

(** The map of the scenario: the three keys of [applArc] with their
    values. *)
Definition applMap : gmap (list byte) bytes :=
  <[elems (lit "apply") := lit "verb"]>
    (<[elems (lit "application") := lit "form"]>
       (<[elems (lit "apple") := lit "sauce"]> ∅)).

(** The map of [chainArc]. *)
Definition chainMap : gmap (list byte) bytes :=
  <[elems (lit "app") := lit "store"]>
    (<[elems (lit "apple") := lit "sauce"]> ∅).

(** The nodes of [TestSerializeWithoutKey]: "apple" with the value "sauce"
    and two children, its checksum updated; and "banana" whose key was
    changed to "bandana" after the checksum was taken. *)
Definition appleNode : node :=
  mkNode (lit "apple") true false 2
    [ keyNode (lit "test-1"); keyNode (lit "test-2") ] (lit "sauce").

Definition appleChecked : Serial.checked :=
  Serial.updateChecksum (C := sumChecksum) (Serial.mkChecked appleNode 0).

Definition bandanaChecked : Serial.checked :=
  Serial.mkChecked
    (mkNode (lit "bandana") true false 0 [] (lit "smoothie"))
    (Serial.calculateChecksum (C := sumChecksum)
       (mkNode (lit "banana") true false 0 [] (lit "smoothie"))).

(** A key of 65536 bytes and a value of 2^32 bytes. *)
Definition longKey : bytes := Some (replicate (Z.to_nat 65536) Byte.x00).
Definition longValue : bytes := Some (replicate (Z.to_nat (2 ^ 32)) Byte.x00).

(** * Properties *)

(** ** Byte slices and common prefixes *)

Lemma mismatch_le_l (a b : list byte) : (mismatch a b ≤ length a)%nat.
Proof.
  revert b; induction a as [|x a IH]; intros [|y b]; simpl; try lia.
  case_bool_decide; [specialize (IH b)|]; lia.
Qed.

Lemma mismatch_le_r (a b : list byte) : (mismatch a b ≤ length b)%nat.
Proof.
  revert b; induction a as [|x a IH]; intros [|y b]; simpl; try lia.
  case_bool_decide; [specialize (IH b)|]; lia.
Qed.

Lemma mismatch_take (a b : list byte) :
  take (mismatch a b) a = take (mismatch a b) b.
Proof.
  revert b; induction a as [|x a IH]; intros [|y b]; simpl; try done.
  case_bool_decide; simpl; [|done]. subst. by rewrite IH.
Qed.

Lemma mismatch_pos (a b : list byte) :
  (0 < mismatch a b)%nat ↔ is_Some (head a) ∧ head a = head b.
Proof.
  destruct a as [|x a], b as [|y b]; simpl.
  - split; [lia|]. by intros [[? [=]] _].
  - split; [lia|]. by intros [[? [=]] _].
  - split; [lia|]. by intros [_ [=]].
  - case_bool_decide; subst.
    + split; [eauto|lia].
    + split; [lia|]. intros [_ [=]]. done.
Qed.

Lemma len_longestCommonPrefix (a b : bytes) :
  len (longestCommonPrefix a b) = mismatch (elems a) (elems b).
Proof.
  unfold longestCommonPrefix.
  destruct (Nat.eqb_spec (mismatch (elems a) (elems b)) 0) as [->|Hne]; [done|].
  destruct a as [l|]; simpl in *; [|done].
  unfold len; simpl. rewrite length_take. pose proof (mismatch_le_l l (elems b)). lia.
Qed.

Lemma elems_longestCommonPrefix (a b : bytes) :
  elems (longestCommonPrefix a b) = take (mismatch (elems a) (elems b)) (elems a).
Proof.
  unfold longestCommonPrefix.
  destruct (Nat.eqb_spec (mismatch (elems a) (elems b)) 0) as [->|Hne]; [done|].
  by destruct a.
Qed.

Lemma is_nil_longestCommonPrefix (a b : bytes) :
  is_nil (longestCommonPrefix a b) = (mismatch (elems a) (elems b) =? 0)%nat.
Proof.
  unfold longestCommonPrefix.
  destruct (Nat.eqb_spec (mismatch (elems a) (elems b)) 0) as [_|Hne]; [done|].
  destruct a as [l|]; [done|]. simpl in Hne. done.
Qed.

Lemma sharePrefix_heads (a b : bytes) :
  sharePrefix a b = true
  ↔ is_Some (head (elems a)) ∧ head (elems a) = head (elems b).
Proof.
  unfold sharePrefix. rewrite len_longestCommonPrefix, Nat.ltb_lt.
  apply mismatch_pos.
Qed.

Lemma sharePrefix_sym (a b : bytes) : sharePrefix a b = sharePrefix b a.
Proof.
  apply eq_true_iff_eq. rewrite !sharePrefix_heads.
  split; intros [Hs He]; (split; [congruence|done]).
Qed.

(** ** Validation of the arguments *)

Section validation.
Context {H : Blob.Hash}.

(** C3: [Put] answers a nil key with [ErrNilKey], a key of more than 65535
    bytes with [ErrKeyTooLarge] and, for a key that passed, a value of more
    than 2^32-1 bytes with [ErrValueTooLarge]; whenever one of the three
    limits is broken the call fails with one of these errors and hands back
    the tree it was given. *)
Theorem Put_validation (a : Arc) (k v : bytes) :
  (k = None → Put a k v = Returns (a, Some ErrNilKey))
  ∧ (Z.of_nat (len k) > 65535 → Put a k v = Returns (a, Some ErrKeyTooLarge))
  ∧ (k ≠ None → Z.of_nat (len k) ≤ 65535 → Z.of_nat (len v) > 2 ^ 32 - 1 →
     Put a k v = Returns (a, Some ErrValueTooLarge))
  ∧ (k = None ∨ Z.of_nat (len k) > 65535 ∨ Z.of_nat (len v) > 2 ^ 32 - 1 →
     ∃ e, Put a k v = Returns (a, Some e)
          ∧ e ∈ [ErrNilKey; ErrKeyTooLarge; ErrValueTooLarge]).
Proof.
  assert (Hnil : k = None → Put a k v = Returns (a, Some ErrNilKey)).
  { intros ->. reflexivity. }
  assert (Hkey : Z.of_nat (len k) > 65535 →
                 Put a k v = Returns (a, Some ErrKeyTooLarge)).
  { intros Hk. destruct k as [l|]; [|by vm_compute in Hk].
    unfold Put. simpl is_nil. cbv iota.
    destruct (Z.gtb_spec (Z.of_nat (len (Some l))) maxKeyBytes) as [_|Hle];
      [done|]. unfold maxKeyBytes, maxUint16 in Hle. lia. }
  assert (Hval : k ≠ None → Z.of_nat (len k) ≤ 65535 →
                 Z.of_nat (len v) > 2 ^ 32 - 1 →
                 Put a k v = Returns (a, Some ErrValueTooLarge)).
  { intros Hk Hle Hv. destruct k as [l|]; [|done].
    unfold Put. simpl is_nil. cbv iota.
    destruct (Z.gtb_spec (Z.of_nat (len (Some l))) maxKeyBytes) as [Hgt|_].
    { unfold maxKeyBytes, maxUint16 in Hgt. lia. }
    destruct (Z.gtb_spec (Z.of_nat (len v)) maxValueBytes) as [_|Hle'];
      [done|]. unfold maxValueBytes, maxUint32 in Hle'. lia. }
  repeat split; try done.
  intros [Hk|[Hk|Hv]].
  - exists ErrNilKey. split; [auto|set_solver].
  - exists ErrKeyTooLarge. split; [auto|set_solver].
  - destruct k as [l|]; [|exists ErrNilKey; split; [auto|set_solver]].
    destruct (Z_gt_le_dec (Z.of_nat (len (Some l))) 65535).
    + exists ErrKeyTooLarge. split; [auto|set_solver].
    + exists ErrValueTooLarge. split; [auto|set_solver].
Qed.

End validation.

(** C9: [Get] of the nil key is [ErrNilKey], whatever the tree. *)
Theorem Get_nil_key (a : Arc) : Get a None = Returns (None, Some ErrNilKey).
Proof. reflexivity. Qed.

Lemma find_loop_error fuel ctx parent current k e :
  find_loop fuel ctx parent current k = Returns (inl e) → e = ErrKeyNotFound.
Proof.
  revert ctx parent current k.
  induction fuel as [|fuel IH]; intros ctx parent current k; simpl; [done|].
  repeat case_match; try congruence; eauto.
Qed.

Lemma findNodeAndParent_error a k e :
  findNodeAndParent a k = Returns (inl e) →
  e = ErrNilKey ∨ e = ErrKeyNotFound.
Proof.
  unfold findNodeAndParent.
  destruct (is_nil k); [intros [= <-]; by left|].
  destruct (empty a); [intros [= <-]; by right|].
  destruct (root a); [|done].
  intros ->%find_loop_error. by right.
Qed.

(** C10: on the empty tree [Delete] answers every non-nil key, however long,
    with [ErrKeyNotFound]; the emptiness test comes before the size test, so
    [ErrKeyTooLarge] comes back exactly for a non-nil key of more than 65535
    bytes on a tree that is not empty, and never from an empty tree. *)
Theorem Delete_empty_tree (a : Arc) (k : bytes) :
  (empty a = true → k ≠ None → Delete a k = Returns (a, Some ErrKeyNotFound))
  ∧ (∀ a', Delete a k = Returns (a', Some ErrKeyTooLarge)
           ↔ a' = a ∧ k ≠ None ∧ empty a = false
             ∧ Z.of_nat (len k) > maxKeyBytes).
Proof.
  split.
  - intros He Hk. destruct k as [l|]; [|done]. unfold Delete. simpl.
    by rewrite He.
  - intros a'. unfold Delete.
    destruct k as [l|]; simpl is_nil; cbv iota; [|split; [congruence|tauto]].
    destruct (empty a); [split; [congruence|intros (_ & _ & [=] & _)]|].
    destruct (Z.gtb_spec (Z.of_nat (len (Some l))) maxKeyBytes) as [Hgt|Hle].
    { split; [intros [= <-]|intros (-> & _)]; repeat split; try done; lia. }
    split; [|intros (_ & _ & _ & Hgt); lia].
    destruct (findNodeAndParent a (Some l)) as [[e|[[n ctx] parent]]| |] eqn:Hf;
      [|repeat case_match; congruence|done|done].
    apply findNodeAndParent_error in Hf. destruct Hf; congruence.
Qed.

(** ** Deleting the root *)

Lemma find_loop_path fuel ctx parent current k n ctx' parent' :
  find_loop fuel ctx parent current k = Returns (inr (n, ctx', parent')) →
  (ctx' = ctx ∧ n = current) ∨ (length ctx < length ctx')%nat.
Proof.
  revert ctx parent current k.
  induction fuel as [|fuel IH]; intros ctx parent current k; simpl; [done|].
  repeat case_match; try congruence.
  - intros [= <- <- <-]. by left.
  - intros Hf. apply IH in Hf. simpl in Hf. right.
    destruct Hf as [[-> _]|Hf]; simpl; lia.
Qed.

Lemma findNodeAndParent_root a k n parent :
  findNodeAndParent a k = Returns (inr (n, [], parent)) →
  root a = Some n ∧ k ≠ None ∧ empty a = false.
Proof.
  unfold findNodeAndParent.
  destruct k as [l|]; simpl is_nil; cbv iota; [|done].
  destruct (empty a); [done|].
  destruct (root a) as [r|]; [|done].
  intros Hf. apply find_loop_path in Hf.
  destruct Hf as [[_ ->]|Hf]; [done|simpl in Hf; lia].
Qed.

Lemma key_prependKey (n : node) (prefix : bytes) :
  elems (key (prependKey n prefix)) = elems prefix ++ elems (key n).
Proof.
  unfold prependKey. destruct (Nat.eqb_spec (len prefix) 0) as [He|_]; [|done].
  unfold len in He. apply length_zero_iff_nil in He. by rewrite He.
Qed.

Lemma int_wrap_id (z : Z) : - 2 ^ 63 ≤ z < 2 ^ 63 → int_wrap z = z.
Proof.
  intros Hz. unfold int_wrap. rewrite Z.mod_small; lia.
Qed.

(** C4: [Delete] of a key that [findNodeAndParent] locates at the root, when
    the root is a record.  A leaf root: the tree is cleared.  A root with one
    child: the child, its key segment prefixed with the root's, is the new
    root, and the node count goes down by one.  A root with more children:
    it stays, with no value and no record flag.  In the last two cases the
    record count goes down by one.  The counters are Go [int]s, so "down by
    one" is [int_wrap (_ - 1)], which is [_ - 1] by [int_wrap_id] unless the
    counter is the least [int]. *)
Theorem Delete_root_record (a : Arc) (k : bytes) (r : node)
    (parent : option node) :
  findNodeAndParent a k = Returns (inr (r, [], parent)) →
  Z.of_nat (len k) ≤ maxKeyBytes →
  isRecord r = true →
  numChildren r = Z.of_nat (length (children r)) →
  root a = Some r
  ∧ (children r = [] → Delete a k = Returns (mkArc None 0 0 (blobs a), None))
  ∧ (∀ child, children r = [child] →
       Delete a k =
         Returns (mkArc (Some (prependKey child (key r)))
                    (int_wrap (numNodes a - 1)) (int_wrap (numRecords a - 1))
                    (blobs a), None)
       ∧ elems (key (prependKey child (key r)))
         = elems (key r) ++ elems (key child))
  ∧ ((1 < length (children r))%nat →
       Delete a k =
         Returns (mkArc (Some (mkNode (key r) false (blobValue r)
                                 (numChildren r) (children r) None))
                    (numNodes a) (int_wrap (numRecords a - 1)) (blobs a),
                  None)).
Proof.
  intros Hf Hlen Hrec Hnum.
  destruct (findNodeAndParent_root _ _ _ _ Hf) as (Hroot & Hk & He).
  assert (Hd : Delete a k =
               match deleteRootNode a with
               | Returns a1 => Returns (a1, None)
               | Panics => Panics
               | OutOfFuel => OutOfFuel
               end).
  { unfold Delete. destruct k as [l|]; [|done]. simpl is_nil. cbv iota.
    rewrite He, Hf, Hrec.
    destruct (Z.gtb_spec (Z.of_nat (len (Some l))) maxKeyBytes); [lia|done]. }
  rewrite Hd. unfold deleteRootNode, isLeaf. rewrite Hroot, Hnum.
  split; [done|]. split; [|split].
  - intros ->. done.
  - intros child ->. simpl. split; [done|apply key_prependKey].
  - intros Hlt. destruct (children r) as [|c1 [|c2 cs]] eqn:Hcs;
      simpl in Hlt; try lia.
    destruct (Z.eqb_spec (Z.of_nat (length (c1 :: c2 :: cs))) 1) as [He1|_];
      [simpl in He1; lia|done].
Qed.

(** ** The blob store *)

Section blob_store.
Context {H : Blob.Hash}.
Import Blob.

Lemma put_id (bs : blobStore) (v : bytes) : (put bs v).2 = makeBlobID (elems v).
Proof. unfold put. by destruct (bs !! _). Qed.

Lemma put_lookup (bs : blobStore) (v : bytes) :
  (put bs v).1 !! makeBlobID (elems v) =
    Some match bs !! makeBlobID (elems v) with
         | Some b => mkBlob (value b) (refCount b + 1)
         | None => mkBlob v 1
         end.
Proof. unfold put. destruct (bs !! _); simpl; by rewrite lookup_insert_eq. Qed.

Lemma put_lookup_ne (bs : blobStore) (v : bytes) (id : list byte) :
  id ≠ makeBlobID (elems v) → (put bs v).1 !! id = bs !! id.
Proof.
  intros Hne. unfold put. destruct (bs !! _); simpl; by rewrite lookup_insert_ne.
Qed.

Lemma put_times_S (n : nat) (bs : blobStore) (v : bytes) :
  put_times (S n) bs v =
    ((put_times n (put bs v).1 v).1, (put bs v).2 :: (put_times n (put bs v).1 v).2).
Proof.
  simpl. destruct (put bs v) as [bs1 id]. simpl.
  by destruct (put_times n bs1 v).
Qed.

Lemma put_times_present (n : nat) (bs : blobStore) (v : bytes) (b : blob) :
  bs !! makeBlobID (elems v) = Some b →
  (put_times n bs v).2 = replicate n (makeBlobID (elems v))
  ∧ (put_times n bs v).1 !! makeBlobID (elems v)
    = Some (mkBlob (value b) (refCount b + Z.of_nat n))
  ∧ ∀ id, id ≠ makeBlobID (elems v) → (put_times n bs v).1 !! id = bs !! id.
Proof.
  revert bs b. induction n as [|n IH]; intros bs b Hb.
  - simpl. rewrite Z.add_0_r. by destruct b.
  - rewrite put_times_S. simpl.
    pose proof (put_lookup bs v) as Hp. rewrite Hb in Hp.
    destruct (IH _ _ Hp) as (Hids & Hl & Hne). simpl in Hl.
    rewrite Hids, Hl, put_id. repeat split.
    + do 2 f_equal. lia.
    + intros id Hid. by rewrite Hne, put_lookup_ne.
Qed.

(** C6: the identifier that [put] returns is a function of the content
    alone; [n] calls with the same value, on a store that holds no entry for
    it yet, return that identifier every time and leave under it one entry
    that holds the value with reference count [n] (1 after the first call),
    all other entries being as before.  [put] has no failure to report: it is
    a total function whose result carries no error. *)
Theorem put_deduplicates (bs : blobStore) (v : bytes) (n : nat) :
  (put bs v).2 = makeBlobID (elems v)
  ∧ (bs !! makeBlobID (elems v) = None →
     (put_times n bs v).2 = replicate n (makeBlobID (elems v))
     ∧ ((0 < n)%nat →
        (put_times n bs v).1 !! makeBlobID (elems v)
        = Some (mkBlob v (Z.of_nat n)))
     ∧ ((put_times 1 bs v).1 !! makeBlobID (elems v) = Some (mkBlob v 1))
     ∧ ∀ id, id ≠ makeBlobID (elems v) → (put_times n bs v).1 !! id = bs !! id).
Proof.
  split; [apply put_id|]. intros Hnone.
  pose proof (put_lookup bs v) as Hp. rewrite Hnone in Hp.
  assert (H1 : (put_times 1 bs v).1 !! makeBlobID (elems v) = Some (mkBlob v 1)).
  { rewrite put_times_S. done. }
  destruct n as [|n].
  - repeat split; try done. lia.
  - rewrite put_times_S. simpl.
    destruct (put_times_present n _ v _ Hp) as (Hids & Hl & Hne).
    simpl in Hl. rewrite Hids, Hl, put_id. repeat split; try done.
    + intros _. do 2 f_equal. lia.
    + intros id Hid. by rewrite Hne, put_lookup_ne.
Qed.

Lemma built_refCount (bs : blobStore) :
  built bs → ∀ id b, bs !! id = Some b → 1 ≤ refCount b.
Proof.
  induction 1 as [|bs v Hb IH|bs rid Hb IH]; intros id b.
  - by rewrite lookup_empty.
  - destruct (decide (id = makeBlobID (elems v))) as [->|Hne].
    + rewrite put_lookup. destruct (bs !! _) as [b0|] eqn:Hb0.
      * intros [= <-]. simpl. specialize (IH _ _ Hb0). lia.
      * intros [= <-]. simpl. lia.
    + rewrite put_lookup_ne by done. apply IH.
  - unfold release. destruct (bs !! elems rid) as [b0|] eqn:Hb0; [|apply IH].
    pose proof (IH _ _ Hb0) as Hge.
    destruct (Z.eqb_spec (refCount b0 - 1) 0) as [He|Hne0].
    + destruct (decide (id = elems rid)) as [->|Hne].
      * by rewrite lookup_delete_eq.
      * rewrite lookup_delete_ne by done. apply IH.
    + destruct (decide (id = elems rid)) as [->|Hne].
      * rewrite lookup_insert_eq. intros [= <-]. simpl. lia.
      * rewrite lookup_insert_ne by done. apply IH.
Qed.

(** C7: [release] of an identifier that the store holds takes one from the
    entry's reference count, and removes the entry exactly when the count
    reaches zero; no other entry changes.  [release] of an identifier that
    the store does not hold gives the store back as it was, and, like every
    [release], reports no failure.  In every store built from the empty one
    by [put] and [release], each entry has a reference count of at least 1. *)
Theorem release_refCount (bs : blobStore) (id : bytes) :
  (∀ b, bs !! elems id = Some b →
        (refCount b - 1 = 0 → release bs id !! elems id = None)
        ∧ (refCount b - 1 ≠ 0 →
           release bs id !! elems id
           = Some (mkBlob (value b) (refCount b - 1)))
        ∧ (∀ id', id' ≠ elems id → release bs id !! id' = bs !! id'))
  ∧ (bs !! elems id = None → release bs id = bs)
  ∧ (built bs → ∀ id' b, bs !! id' = Some b → 1 ≤ refCount b).
Proof.
  split; [|split].
  - intros b Hb. unfold release. rewrite Hb.
    destruct (Z.eqb_spec (refCount b - 1) 0) as [He|Hne]; repeat split.
    + intros _. apply lookup_delete_eq.
    + done.
    + intros id' Hid. by rewrite lookup_delete_ne.
    + done.
    + intros _. apply lookup_insert_eq.
    + intros id' Hid. by rewrite lookup_insert_ne.
  - intros Hb. unfold release. by rewrite Hb.
  - apply built_refCount.
Qed.

End blob_store.

(** ** Node serialization *)

Section serialization.
Context {C : Serial.Checksum}.
Import Serial.

Lemma Z_of_byte_of_Z (z : Z) : Z_of_byte (byte_of_Z z) = z `mod` 256.
Proof.
  unfold Z_of_byte, byte_of_Z.
  change 255 with (Z.ones 8). rewrite Z.land_ones by lia.
  change (2 ^ 8) with 256.
  pose proof (Z.mod_pos_bound z 256 ltac:(lia)) as Hb.
  destruct (Byte.of_N (Z.to_N (z `mod` 256))) as [b|] eqn:Hof.
  - apply Byte.to_of_N in Hof. simpl. rewrite Hof. lia.
  - apply Byte.of_N_None_iff in Hof. lia.
Qed.

Lemma length_le_bytes (w : nat) (z : Z) : length (le_bytes w z) = w.
Proof. revert z; induction w as [|w IH]; intros z; simpl; [done|]. by rewrite IH. Qed.

Lemma lor_shiftl_byte (a b : Z) :
  0 ≤ a < 256 → Z.lor a (Z.shiftl b 8) = a + 256 * b.
Proof.
  intros Ha.
  assert (Hland : Z.land a (Z.shiftl b 8) = 0).
  { apply Z.bits_inj'. intros i Hi. rewrite Z.land_spec, Z.bits_0.
    destruct (Z.lt_ge_cases i 8) as [Hlt|Hge].
    - rewrite (Z.shiftl_spec_low b 8 i) by done. apply andb_false_r.
    - replace a with (a `mod` 2 ^ 8) by (apply Z.mod_small; simpl; lia).
      rewrite Z.mod_pow2_bits_high by lia. done. }
  rewrite <- Z.lxor_lor, <- Z.add_nocarry_lxor by done.
  rewrite Z.shiftl_mul_pow2 by lia. change (2 ^ 8) with 256. lia.
Qed.

Lemma le_value_le_bytes (w : nat) (z : Z) :
  le_value (le_bytes w z) = z `mod` 2 ^ (8 * Z.of_nat w).
Proof.
  revert z; induction w as [|w IH]; intros z; simpl le_bytes; simpl le_value.
  - change (2 ^ (8 * Z.of_nat 0)) with 1. by rewrite Z.mod_1_r.
  - rewrite IH, Z_of_byte_of_Z, Z.shiftr_div_pow2 by lia.
    change (2 ^ 8) with 256.
    rewrite lor_shiftl_byte by (apply Z.mod_pos_bound; lia).
    replace (8 * Z.of_nat (S w)) with (8 + 8 * Z.of_nat w) by lia.
    rewrite Z.pow_add_r by lia. change (2 ^ 8) with 256.
    rewrite Z.rem_mul_r by lia. lia.
Qed.

(** C5: [serializeWithoutKey] fails with [ErrInvalidChecksum] when the stored
    checksum is not the one computed from the node's content.  Otherwise it
    returns, in this order and nothing else: 4 bytes that are the checksum in
    little-endian, 8 bytes that are the length of the value in little-endian,
    the bytes of the value, 2 bytes that are the child count in
    little-endian, and 16 reserved bytes, the room of two 8-byte slots.  The
    key segment is no part of it: two nodes with the same checksum, value and
    child count that pass the test serialize to the same bytes, whatever
    their keys. *)
Theorem serializeWithoutKey_layout (n : checked) :
  typed n →
  (verifyChecksum n = false → serializeWithoutKey n = inl ErrInvalidChecksum)
  ∧ (verifyChecksum n = true →
     ∃ sum size val count reserved,
       serializeWithoutKey n = inr (sum ++ size ++ val ++ count ++ reserved)
       ∧ length sum = 4%nat ∧ le_value sum = checksum n
       ∧ length size = 8%nat
       ∧ le_value size = Z.of_nat (len (data (base n)))
       ∧ val = elems (data (base n))
       ∧ length count = 2%nat ∧ le_value count = numChildren (base n)
       ∧ length reserved = (8 + 8)%nat
       ∧ length (sum ++ size ++ val ++ count ++ reserved) = serializedSize n)
  ∧ (∀ n', verifyChecksum n = true → verifyChecksum n' = true →
           checksum n' = checksum n →
           data (base n') = data (base n) →
           numChildren (base n') = numChildren (base n) →
           serializeWithoutKey n' = serializeWithoutKey n).
Proof.
  intros [Hlen Hcount]. split; [|split].
  - intros Hv. unfold serializeWithoutKey. by rewrite Hv.
  - intros Hv. unfold serializeWithoutKey. rewrite Hv. simpl negb. cbv iota.
    exists (le_bytes sizeOfUint32 (checksum n)),
      (le_bytes sizeOfUint64 (Z.of_nat (len (data (base n))))),
      (elems (data (base n))),
      (le_bytes sizeOfUint16 (numChildren (base n))),
      (replicate (sizeOfUint64 * 2) Byte.x00).
    split.
    { cbv zeta. rewrite app_nil_l, <- !app_assoc. reflexivity. }
    unfold verifyChecksum, calculateChecksum in Hv.
    apply Z.eqb_eq in Hv.
    pose proof (Z.mod_pos_bound
                  (checksumOf (key (base n)) (data (base n)) (isRecord (base n)))
                  (2 ^ 32) ltac:(lia)) as Hsum.
    rewrite <- Hv in Hsum.
    rewrite !length_le_bytes, !le_value_le_bytes, length_replicate.
    unfold sizeOfUint32, sizeOfUint64, sizeOfUint16.
    repeat split; try reflexivity.
    + apply Z.mod_small. change (8 * Z.of_nat 4) with 32. lia.
    + apply Z.mod_small. change (8 * Z.of_nat 8) with 64. lia.
    + apply Z.mod_small. change (8 * Z.of_nat 2) with 16. lia.
    + rewrite !length_app, !length_le_bytes, length_replicate.
      unfold serializedSize, sizeOfUint32, sizeOfUint64, sizeOfUint16, len. lia.
  - intros n' Hv Hv' Hsum Hdata Hcnt. unfold serializeWithoutKey.
    by rewrite Hv, Hv', Hsum, Hdata, Hcnt.
Qed.

End serialization.

(** ** The claims at concrete inputs *)

Lemma len_replicate (n : nat) (b : byte) : len (Some (replicate n b)) = n.
Proof. unfold len. simpl. apply length_replicate. Qed.

Lemma Put_validation_witness :
  Put (H := sumHash) New None (lit "v") = Returns (New, Some ErrNilKey)
  ∧ Put (H := sumHash) New longKey (lit "v")
    = Returns (New, Some ErrKeyTooLarge)
  ∧ Put (H := sumHash) New (lit "k") longValue
    = Returns (New, Some ErrValueTooLarge).
Proof.
  split; [|split].
  - destruct (Put_validation (H := sumHash) New None (lit "v")) as (Hn & _).
    apply Hn. reflexivity.
  - destruct (Put_validation (H := sumHash) New longKey (lit "v"))
      as (_ & Hk & _).
    apply Hk. unfold longKey. rewrite len_replicate. lia.
  - destruct (Put_validation (H := sumHash) New (lit "k") longValue)
      as (_ & _ & Hv & _).
    apply Hv.
    + discriminate.
    + change (len (lit "k")) with 1%nat. lia.
    + unfold longValue. rewrite len_replicate. lia.
Defined.

Lemma Delete_empty_tree_witness :
  Delete New (lit "k") = Returns (New, Some ErrKeyNotFound)
  ∧ Delete New longKey = Returns (New, Some ErrKeyNotFound).
Proof.
  split.
  - destruct (Delete_empty_tree New (lit "k")) as (He & _).
    apply He; [reflexivity|discriminate].
  - destruct (Delete_empty_tree New longKey) as (He & _).
    apply He; [reflexivity|discriminate].
Defined.

Lemma Delete_root_record_witness :
  Delete leafArc (lit "apple") = Returns (New, None)
  ∧ Delete chainArc (lit "app")
    = Returns (mkArc (Some (mkNode (lit "apple") true false 0 []
                              (lit "sauce"))) 1 1 ∅, None)
  ∧ Delete forkArc (lit "appl")
    = Returns (mkArc (Some (mkNode (lit "appl") false false 2
                              [ mkNode (lit "e") true false 0 [] (lit "sauce");
                                mkNode (lit "y") true false 0 [] (lit "verb") ]
                              None)) 3 2 ∅, None).
Proof.
  split; [|split].
  - assert (Hf : findNodeAndParent leafArc (lit "apple")
                 = Returns (inr (mkNode (lit "apple") true false 0 []
                                   (lit "sauce"), [], None)))
      by reflexivity.
    assert (Hl : Z.of_nat (len (lit "apple")) ≤ maxKeyBytes)
      by (vm_compute; discriminate).
    destruct (Delete_root_record _ _ _ _ Hf Hl eq_refl eq_refl)
      as (_ & Hleaf & _).
    exact (Hleaf eq_refl).
  - assert (Hf : findNodeAndParent chainArc (lit "app")
                 = Returns (inr (mkNode (lit "app") true false 1
                                   [ mkNode (lit "le") true false 0 []
                                       (lit "sauce") ]
                                   (lit "store"), [], None)))
      by reflexivity.
    assert (Hl : Z.of_nat (len (lit "app")) ≤ maxKeyBytes)
      by (vm_compute; discriminate).
    destruct (Delete_root_record _ _ _ _ Hf Hl eq_refl eq_refl)
      as (_ & _ & Hone & _).
    exact (proj1 (Hone _ eq_refl)).
  - assert (Hf : findNodeAndParent forkArc (lit "appl")
                 = Returns (inr (mkNode (lit "appl") true false 2
                                   [ mkNode (lit "e") true false 0 []
                                       (lit "sauce");
                                     mkNode (lit "y") true false 0 []
                                       (lit "verb") ]
                                   (lit "abbr"), [], None)))
      by reflexivity.
    assert (Hl : Z.of_nat (len (lit "appl")) ≤ maxKeyBytes)
      by (vm_compute; discriminate).
    destruct (Delete_root_record _ _ _ _ Hf Hl eq_refl eq_refl)
      as (_ & _ & _ & Hmany).
    apply Hmany. simpl. lia.
Defined.

Lemma put_deduplicates_witness :
  (Blob.put_times (H := sumHash) 3 ∅ (lit "apple")).2
  = replicate 3 (Blob.makeBlobID (Hash := sumHash) (elems (lit "apple")))
  ∧ (Blob.put_times (H := sumHash) 3 ∅ (lit "apple")).1
      !! Blob.makeBlobID (Hash := sumHash) (elems (lit "apple"))
    = Some (Blob.mkBlob (lit "apple") 3)
  ∧ (Blob.put_times (H := sumHash) 1 ∅ (lit "apple")).1
      !! Blob.makeBlobID (Hash := sumHash) (elems (lit "apple"))
    = Some (Blob.mkBlob (lit "apple") 1).
Proof.
  destruct (put_deduplicates (H := sumHash) ∅ (lit "apple") 3) as (_ & Hn).
  destruct (Hn (lookup_empty _)) as (Hids & Hcount & Hfirst & _).
  split; [exact Hids|]. split; [|exact Hfirst].
  apply Hcount. lia.
Defined.

Lemma release_refCount_witness :
  Blob.release
    (Blob.put (H := sumHash) ∅ (lit "pineapple")).1
    (Some (Blob.makeBlobID (Hash := sumHash) (elems (lit "pineapple"))))
    !! Blob.makeBlobID (Hash := sumHash) (elems (lit "pineapple"))
  = None
  ∧ Blob.release
      (Blob.put (H := sumHash) ∅ (lit "pineapple")).1 (lit "bogus")
    = (Blob.put (H := sumHash) ∅ (lit "pineapple")).1
  ∧ ∀ id b,
      (Blob.put (H := sumHash) ∅ (lit "pineapple")).1 !! id = Some b →
      1 ≤ Blob.refCount b.
Proof.
  split; [|split].
  - destruct (release_refCount (H := sumHash)
                (Blob.put (H := sumHash) ∅ (lit "pineapple")).1
                (Some (Blob.makeBlobID (Hash := sumHash)
                         (elems (lit "pineapple"))))) as (Hpresent & _).
    destruct (Hpresent (Blob.mkBlob (lit "pineapple") 1)) as (Hzero & _).
    + pose proof (put_lookup (H := sumHash) ∅ (lit "pineapple")) as Hp.
      rewrite lookup_empty in Hp. exact Hp.
    + apply Hzero. reflexivity.
  - destruct (release_refCount (H := sumHash)
                (Blob.put (H := sumHash) ∅ (lit "pineapple")).1
                (lit "bogus")) as (_ & Habsent & _).
    apply Habsent. rewrite put_lookup_ne; [apply lookup_empty|].
    vm_compute. discriminate.
  - destruct (release_refCount (H := sumHash)
                (Blob.put (H := sumHash) ∅ (lit "pineapple")).1
                (lit "bogus")) as (_ & _ & Hbuilt).
    apply Hbuilt. apply Blob.built_put, Blob.built_empty.
Defined.

Lemma serializeWithoutKey_layout_witness :
  Serial.serializeWithoutKey (C := sumChecksum) bandanaChecked
  = inl ErrInvalidChecksum
  ∧ ∃ sum size val count reserved,
      Serial.serializeWithoutKey (C := sumChecksum) appleChecked
      = inr (sum ++ size ++ val ++ count ++ reserved)
      ∧ length sum = 4%nat
      ∧ Serial.le_value sum = Serial.checksum appleChecked
      ∧ length size = 8%nat ∧ Serial.le_value size = 5
      ∧ val = elems (lit "sauce")
      ∧ length count = 2%nat ∧ Serial.le_value count = 2
      ∧ length reserved = 16%nat.
Proof.
  assert (Hbad : Serial.typed bandanaChecked) by (vm_compute; intuition congruence).
  assert (Hgood : Serial.typed appleChecked) by (vm_compute; intuition congruence).
  split.
  - destruct (serializeWithoutKey_layout (C := sumChecksum) _ Hbad)
      as (Hfail & _).
    apply Hfail. reflexivity.
  - destruct (serializeWithoutKey_layout (C := sumChecksum) _ Hgood)
      as (_ & Hok & _).
    destruct (Hok eq_refl)
      as (sum & size & val & count & reserved & Hs & H1 & H2 & H3 & H4 & H5
          & H6 & H7 & H8 & _).
    exists sum, size, val, count, reserved. repeat split; assumption.
Defined.

(** ** Sibling disjointness *)

Lemma elems_slice_from (b : bytes) (i : nat) :
  elems (slice_from b i) = drop i (elems b).
Proof. destruct b; simpl; [done|]. by rewrite drop_nil. Qed.

Lemma head_drop_lookup {A} (l : list A) (i : nat) : head (drop i l) = l !! i.
Proof.
  revert i; induction l as [|x l IH]; intros [|i]; simpl; done.
Qed.

Lemma mismatch_lookup_ne (a b : list byte) :
  (mismatch a b < length a)%nat → (mismatch a b < length b)%nat →
  a !! mismatch a b ≠ b !! mismatch a b.
Proof.
  revert b; induction a as [|x a IH]; intros [|y b]; simpl; try lia.
  case_bool_decide; simpl.
  - intros ? ?. apply IH; lia.
  - intros _ _ [=]. done.
Qed.

Lemma sharePrefix_false_heads (a b : bytes) x :
  sharePrefix a b = false → head (elems a) = Some x → head (elems b) ≠ Some x.
Proof.
  intros Hs Ha Hb. apply not_true_iff_false in Hs. apply Hs.
  apply sharePrefix_heads. rewrite Ha, Hb. eauto.
Qed.

Lemma omap_lookup_inj {A B} (f : A → option B) (l : list A) i j x y b :
  NoDup (omap f l) → l !! i = Some x → l !! j = Some y →
  f x = Some b → f y = Some b → i = j.
Proof.
  revert i j. induction l as [|z l IH]; intros i j Hnd Hi Hj Hx Hy; [done|].
  simpl in Hnd.
  destruct i as [|i], j as [|j]; simpl in *; simplify_eq; try done.
  - rewrite Hx in Hnd. apply NoDup_cons in Hnd as [Hnot _].
    exfalso. apply Hnot. apply list_elem_of_omap. exists y.
    split; [by eapply list_elem_of_lookup_2|done].
  - rewrite Hy in Hnd. apply NoDup_cons in Hnd as [Hnot _].
    exfalso. apply Hnot. apply list_elem_of_omap. exists x.
    split; [by eapply list_elem_of_lookup_2|done].
  - f_equal. apply IH; try done.
    destruct (f z); [by apply NoDup_cons in Hnd as [_ ?]|done].
Qed.

Lemma omap_insert_same {A B} (f : A → option B) (l : list A) i x y :
  l !! i = Some x → f y = f x → omap f (<[i := y]> l) = omap f l.
Proof.
  revert i. induction l as [|z l IH]; intros [|i] Hi Hf; simpl in *;
    simplify_eq; try done.
  - by rewrite Hf.
  - by rewrite IH.
Qed.

Lemma distinctHeads_disjoint (n : node) :
  distinctHeads n → siblingsDisjoint (children n).
Proof.
  intros [? Hnd _] i j ci cj Hi Hj Hne.
  destruct (sharePrefix (key ci) (key cj)) eqn:Hs; [|done].
  apply sharePrefix_heads in Hs as [[b Hb] He].
  destruct Hne. eapply (omap_lookup_inj firstByte); eauto.
  unfold firstByte. congruence.
Qed.

Lemma distinctHeads_probe (n : node) (probe : bytes) i j ci cj :
  distinctHeads n →
  children n !! i = Some ci → children n !! j = Some cj →
  sharePrefix (key ci) probe = true → sharePrefix (key cj) probe = true →
  i = j.
Proof.
  intros [? Hnd _] Hi Hj Hsi Hsj.
  apply sharePrefix_heads in Hsi as [[b Hb] Hei].
  apply sharePrefix_heads in Hsj as [_ Hej].
  eapply (omap_lookup_inj firstByte); eauto; unfold firstByte; congruence.
Qed.

Lemma findCompatibleChild_from_spec (cs : list node) (k : bytes) (i0 : nat) :
  match findCompatibleChild_from i0 cs k with
  | Some (i, c) =>
      (i0 ≤ i)%nat ∧ cs !! (i - i0)%nat = Some c
      ∧ sharePrefix (key c) k = true
  | None => ∀ c, c ∈ cs → sharePrefix (key c) k = false
  end.
Proof.
  revert i0. induction cs as [|c cs IH]; intros i0; simpl.
  - intros c Hc. by apply elem_of_nil in Hc.
  - fold (sharePrefix (key c) k). destruct (sharePrefix (key c) k) eqn:Hs.
    + rewrite Nat.sub_diag. done.
    + specialize (IH (S i0)).
      destruct (findCompatibleChild_from (S i0) cs k) as [[i d]|].
      * destruct IH as (Hle & Hl & Hd). split; [lia|]. split; [|done].
        replace (i - i0)%nat with (S (i - S i0)) by lia. done.
      * intros d [->|Hd]%elem_of_cons; auto.
Qed.

Lemma findCompatibleChild_spec (n : node) (k : bytes) :
  match findCompatibleChild n k with
  | Some (i, c) => children n !! i = Some c ∧ sharePrefix (key c) k = true
  | None => ∀ c, c ∈ children n → sharePrefix (key c) k = false
  end.
Proof.
  unfold findCompatibleChild.
  pose proof (findCompatibleChild_from_spec (children n) k 0) as Hs.
  destruct (findCompatibleChild_from 0 (children n) k) as [[i c]|]; [|done].
  destruct Hs as (_ & Hl & Hc). by rewrite Nat.sub_0_r in Hl.
Qed.

Lemma addChild_after_perm (child current : node) (rest : list node) :
  addChild_after child current rest ≡ₚ child :: current :: rest.
Proof.
  revert current. induction rest as [|next rest IH]; intros current; simpl.
  - apply Permutation_swap.
  - case_match; [|apply Permutation_swap].
    rewrite IH. apply Permutation_swap.
Qed.

Lemma children_addChild (n child : node) :
  children (addChild n child) ≡ₚ child :: children n.
Proof.
  unfold addChild; simpl. destruct (children n) as [|first rest]; [done|].
  case_match; [done|]. apply addChild_after_perm.
Qed.

Lemma key_addChild (n child : node) : key (addChild n child) = key n.
Proof. done. Qed.

Lemma removeChild_after_Some (k : bytes) (current : node) (rest cs : list node) :
  removeChild_after k current rest = Some cs →
  ∃ d, elems (key d) = elems k ∧ current :: rest ≡ₚ d :: cs.
Proof.
  revert current cs. induction rest as [|next rest IH]; intros current cs;
    simpl; [done|].
  unfold bytes_Equal. case_bool_decide as He.
  - intros [= <-]. exists next. split; [done|apply Permutation_swap].
  - destruct (removeChild_after k next rest) as [cs'|] eqn:Hr; [|done].
    intros [= <-]. destruct (IH _ _ Hr) as (d & Hd & Hp).
    exists d. split; [done|]. rewrite Hp. apply Permutation_swap.
Qed.

Lemma removeChild_after_None (k : bytes) (current : node) (rest : list node) :
  removeChild_after k current rest = None →
  ∀ d, d ∈ rest → elems (key d) ≠ elems k.
Proof.
  revert current. induction rest as [|next rest IH]; intros current; simpl.
  - intros _ d Hd. by apply elem_of_nil in Hd.
  - unfold bytes_Equal. case_bool_decide as He; [done|].
    destruct (removeChild_after k next rest) eqn:Hr; [done|].
    intros _ d [->|Hd]%elem_of_cons; [done|]. eapply IH; eauto.
Qed.

Lemma removeChild_inr (n child n1 : node) :
  removeChild n child = inr n1 →
  key n1 = key n
  ∧ ∃ d, elems (key d) = elems (key child)
         ∧ children n ≡ₚ d :: children n1.
Proof.
  unfold removeChild. destruct (children n) as [|first rest]; [done|].
  unfold bytes_Equal. case_bool_decide as He.
  - intros [= <-]. simpl. split; [done|]. by exists first.
  - destruct (removeChild_after (key child) first rest) as [cs|] eqn:Hr;
      [|done].
    intros [= <-]. simpl. split; [done|].
    by apply removeChild_after_Some.
Qed.

Lemma removeChild_linked (n child : node) (i : nat) :
  children n !! i = Some child → ∃ n1, removeChild n child = inr n1.
Proof.
  intros Hi. unfold removeChild.
  destruct (children n) as [|first rest] eqn:Hcs; [done|].
  unfold bytes_Equal. case_bool_decide as He; [eauto|].
  destruct (removeChild_after (key child) first rest) as [cs|] eqn:Hr;
    [eauto|].
  destruct i as [|i]; simpl in Hi; [by simplify_eq|].
  apply list_elem_of_lookup_2 in Hi.
  by destruct (removeChild_after_None _ _ _ Hr _ Hi).
Qed.

Lemma distinctHeads_inv (n : node) :
  distinctHeads n →
  NoDup (omap firstByte (children n)) ∧ Forall distinctHeads (children n).
Proof. intros Hn. by destruct Hn. Qed.

Lemma distinctHeads_children (n n' : node) :
  children n' = children n → distinctHeads n → distinctHeads n'.
Proof.
  intros Hc [Hnd Hall]%distinctHeads_inv. constructor; by rewrite Hc.
Qed.

Lemma distinctHeads_leaf (n : node) : children n = [] → distinctHeads n.
Proof.
  intros Hc. constructor; rewrite Hc; [apply NoDup_nil_2|apply Forall_nil_2].
Qed.

Lemma distinctHeads_child (n c : node) :
  distinctHeads n → c ∈ children n → distinctHeads c.
Proof.
  intros [_ Hall]%distinctHeads_inv Hc. rewrite Forall_forall in Hall.
  by apply Hall.
Qed.

Lemma distinctHeads_subnode (m n : node) :
  subnode m n → distinctHeads n → distinctHeads m.
Proof.
  induction 1 as [|m c n Hc _ IH]; [done|].
  intros Hn. apply IH. by eapply distinctHeads_child.
Qed.

Lemma distinctHeads_addChild (n c : node) :
  distinctHeads n → distinctHeads c →
  (∀ d, d ∈ children n → sharePrefix (key d) (key c) = false) →
  distinctHeads (addChild n c).
Proof.
  intros [Hnd Hall]%distinctHeads_inv Hc Hfresh.
  constructor; rewrite children_addChild.
  - simpl. destruct (firstByte c) as [b|] eqn:Hb; [|done].
    apply NoDup_cons. split; [|done].
    intros (d & Hd & Hdb)%list_elem_of_omap.
    specialize (Hfresh d Hd).
    by eapply (sharePrefix_false_heads _ _ b Hfresh).
  - by constructor.
Qed.

(** Two nodes under a fresh parent. *)
Lemma distinctHeads_pair (p x y : node) :
  children p = [] → distinctHeads x → distinctHeads y →
  sharePrefix (key x) (key y) = false →
  distinctHeads (addChild (addChild p x) y).
Proof.
  intros Hp Hx Hy Hs.
  apply distinctHeads_addChild; [|done|].
  - apply distinctHeads_addChild; [by apply distinctHeads_leaf|done|].
    rewrite Hp. intros d Hd. by apply elem_of_nil in Hd.
  - intros d Hd. rewrite children_addChild, Hp in Hd.
    apply list_elem_of_singleton in Hd as ->. done.
Qed.

Lemma distinctHeads_setChild (p : node) (i : nat) (n n' : node) :
  distinctHeads p → children p !! i = Some n →
  distinctHeads n' → firstByte n' = firstByte n →
  distinctHeads (setChild p i n').
Proof.
  intros [Hnd Hall]%distinctHeads_inv Hi Hn' Hb. constructor; simpl.
  - by rewrite (omap_insert_same _ _ _ n).
  - by apply Forall_insert.
Qed.

Lemma distinctHeads_plug (ctx : list frame) (n n' : node) :
  ctx_ok ctx n → distinctHeads n' → firstByte n' = firstByte n →
  distinctHeads (plug ctx n').
Proof.
  revert n n'. induction ctx as [|[p i] up IH]; intros n n'; simpl; [done|].
  intros (Hi & Hp & Hup) Hn' Hb.
  apply (IH p); [done| |done].
  by eapply distinctHeads_setChild.
Qed.

(** [parent.removeChild(current)] followed by [parent.addChild(r)], for a
    node [r] that starts with the same byte as [current]. *)
Lemma distinctHeads_relink (p p1 current r : node) :
  distinctHeads p → removeChild p current = inr p1 →
  distinctHeads r → firstByte r = firstByte current →
  distinctHeads (addChild p1 r).
Proof.
  intros [Hnd Hall]%distinctHeads_inv Hrm Hr Hb.
  destruct (removeChild_inr _ _ _ Hrm) as (_ & d & Hd & Hperm).
  rewrite Hperm in Hnd, Hall.
  assert (Hbd : firstByte r = firstByte d).
  { rewrite Hb. unfold firstByte. by rewrite Hd. }
  constructor; rewrite children_addChild.
  - simpl in *. by rewrite Hbd.
  - apply Forall_cons in Hall as [_ Hall]. by constructor.
Qed.

Lemma height_child (n c : node) : c ∈ children n → (height c < height n)%nat.
Proof.
  destruct n as [k r b m cs d]. simpl. intros Hc.
  induction cs as [|x cs IH]; [by apply elem_of_nil in Hc|].
  apply elem_of_cons in Hc as [->|Hc]; simpl; [lia|].
  specialize (IH Hc). lia.
Qed.

(** ** [Put] keeps siblings disjoint *)

(** Comparisons of lengths, from booleans to propositions. *)
Ltac unbool :=
  repeat match goal with
    | H : _ && _ = true |- _ => apply andb_true_iff in H as [? ?]
    | H : _ && _ = false |- _ => rewrite andb_false_iff in H
    | H : _ || _ = false |- _ => apply orb_false_iff in H as [? ?]
    | H : _ || _ = true |- _ => rewrite orb_true_iff in H
    | H : context [(_ =? _)%nat = true] |- _ => rewrite Nat.eqb_eq in H
    | H : context [(_ =? _)%nat = false] |- _ => rewrite Nat.eqb_neq in H
    | H : context [(_ <? _)%nat = true] |- _ => rewrite Nat.ltb_lt in H
    | H : context [(_ <? _)%nat = false] |- _ => rewrite Nat.ltb_ge in H
    end.

Section put_invariant.
Context {H : Blob.Hash}.

Lemma setValue_shape bs n v :
  key (setValue bs n v).2 = key n ∧ children (setValue bs n v).2 = children n.
Proof.
  unfold setValue. case_match; [done|]. by destruct (Blob.put _ v).
Qed.

Lemma sharePrefix_mismatch a b :
  sharePrefix a b = true ↔ (0 < mismatch (elems a) (elems b))%nat.
Proof. unfold sharePrefix. by rewrite len_longestCommonPrefix, Nat.ltb_lt. Qed.

Lemma head_take_pos {A} (l : list A) n : (0 < n)%nat → head (take n l) = head l.
Proof. destruct n; [lia|]. by destruct l. Qed.

Lemma split_heads (a b : bytes) :
  let m := mismatch (elems a) (elems b) in
  (m < len a)%nat → (m < len b)%nat →
  sharePrefix (slice_from a m) (slice_from b m) = false.
Proof.
  intros m Ha Hb. apply not_true_iff_false. intros [_ Hh]%sharePrefix_heads.
  rewrite !elems_slice_from, !head_drop_lookup in Hh.
  by apply (mismatch_lookup_ne (elems a) (elems b)).
Qed.

Lemma firstByte_shared (x y : node) :
  (0 < mismatch (elems (key x)) (elems (key y)))%nat → firstByte y = firstByte x.
Proof. intros [_ Hh]%mismatch_pos. done. Qed.

Lemma put_loop_distinctHeads fuel a ctx current k newNode v a' :
  put_loop fuel a ctx current k newNode v = Returns (a', None) →
  distinctHeads current → ctx_ok ctx current →
  key newNode = k → children newNode = [] →
  (ctx ≠ [] ∨ (0 < len (key current))%nat → sharePrefix (key current) k = true) →
  ∃ r', root a' = Some r' ∧ distinctHeads r'.
Proof.
  revert ctx current k newNode a'.
  induction fuel as [|fuel IH]; intros ctx current k newNode a'; simpl; [done|].
  rewrite len_longestCommonPrefix.
  pose proof (mismatch_le_l (elems (key current)) (elems k)) as Hml.
  pose proof (mismatch_le_r (elems (key current)) (elems k)) as Hmr.
  fold (len (key current)) in Hml. fold (len k) in Hmr.
  rewrite sharePrefix_mismatch.
  intros Hput Hcur Hctx Hkey Hleaf Hpre. subst k.
  set (m := mismatch (elems (key current)) (elems (key newNode))) in *.
  destruct ((m =? len (key current))%nat && (m =? len (key newNode))%nat) eqn:C1.
  { (* exact match *)
    pose proof (setValue_shape (blobs a) current v) as [Hk Hc].
    destruct (setValue (blobs a) current v) as [bs current1]. simpl in *.
    injection Hput as <-. simpl. eexists; split; [done|].
    apply (distinctHeads_plug _ current); [done| |].
    - by apply (distinctHeads_children current).
    - unfold firstByte. by rewrite Hk. }
  destruct ((m =? len (key newNode))%nat && (m <? len (key current))%nat) eqn:C2.
  { (* newNode becomes the parent of current *)
    unbool.
    set (current1 := setKey current _) in *.
    assert (Hn1 : distinctHeads (addChild newNode current1)).
    { apply distinctHeads_addChild.
      - by apply distinctHeads_leaf.
      - by apply (distinctHeads_children current).
      - rewrite Hleaf. intros d Hd. by apply elem_of_nil in Hd. }
    destruct ctx as [|[parent i] up].
    - injection Hput as <-. simpl. eauto.
    - destruct Hctx as (Hi & Hp & Hup).
      destruct (removeChild parent current) as [err|parent1] eqn:Hrm; [done|].
      injection Hput as <-. simpl. eexists; split; [done|].
      apply (distinctHeads_plug _ parent); [done| |].
      + apply (distinctHeads_relink parent parent1 current); try done.
        apply firstByte_shared. apply Hpre. by left.
      + unfold firstByte. simpl.
        by destruct (removeChild_inr _ _ _ Hrm) as (-> & _). }
  destruct ((0 <? m)%nat && (m <? len (key current))%nat) eqn:C3.
  { (* split *)
    unbool. injection Hput as <-.
    assert (Hmn : (m < len (key newNode))%nat) by lia.
    unfold splitNode. rewrite len_longestCommonPrefix. fold m.
    set (current1 := setKey current _).
    set (newNode1 := setKey newNode _).
    set (newParent := keyNode _).
    assert (Hnp : distinctHeads (addChild (addChild newParent current1) newNode1)).
    { apply distinctHeads_pair; try done.
      - by apply (distinctHeads_children current).
      - by apply distinctHeads_leaf.
      - by apply split_heads. }
    assert (Hfb : firstByte (addChild (addChild newParent current1) newNode1)
                  = firstByte current).
    { unfold firstByte. simpl. rewrite elems_longestCommonPrefix. fold m.
      by apply head_take_pos. }
    destruct ctx as [|[parent i] up]; simpl; [eauto|].
    destruct Hctx as (Hi & Hp & Hup).
    destruct (removeChild_linked _ _ _ Hi) as [parent1 Hrm]. rewrite Hrm.
    eexists; split; [done|].
    apply (distinctHeads_plug _ parent); [done| |].
    + by apply (distinctHeads_relink parent parent1 current).
    + unfold firstByte. simpl.
      by destruct (removeChild_inr _ _ _ Hrm) as (-> & _). }
  (* descent *)
  unbool.
  assert (Hm : m = len (key current) ∧ (m < len (key newNode))%nat).
  { destruct (decide (m = len (key current))) as [Hm|Hm]; [lia|].
    assert (0 < m)%nat; [apply Hpre; right|]; lia. }
  destruct Hm as [Hm Hmn].
  set (k1 := slice_from (key newNode) m) in *.
  set (newNode1 := setKey newNode k1) in *.
  pose proof (findCompatibleChild_spec current k1) as Hfind.
  destruct (findCompatibleChild current k1) as [[i child]|].
  - destruct Hfind as [Hi Hs].
    apply (IH _ _ _ _ _ Hput); try done.
    eapply distinctHeads_child; [done|]. by eapply list_elem_of_lookup_2.
  - assert (Hadd : distinctHeads (addChild current newNode1)).
    { apply distinctHeads_addChild; [done|by apply distinctHeads_leaf|done]. }
    destruct ctx as [|f up].
    + destruct (is_nil (key current) || (m =? len (key current))%nat) eqn:C4.
      * injection Hput as <-. simpl. eauto.
      * unbool. lia.
    + injection Hput as <-. eexists; split; [reflexivity|].
      by apply (distinctHeads_plug (f :: up) current).
Qed.

Lemma Put_distinctHeads a k v a' :
  Put a k v = Returns (a', None) →
  (∀ r, root a = Some r → distinctHeads r) →
  ∀ r', root a' = Some r' → distinctHeads r'.
Proof.
  unfold Put. intros Hput Hinv.
  destruct (is_nil k); [done|].
  destruct (Z.of_nat (len k) >? maxKeyBytes); [done|].
  destruct (Z.of_nat (len v) >? maxValueBytes); [done|].
  pose proof (setValue_shape (blobs a) (setKey emptyNode k) v) as [Hk Hc].
  destruct (setValue (blobs a) (setKey emptyNode k) v) as [bs newNode].
  simpl in Hk, Hc.
  unfold empty in Hput. simpl in Hput.
  destruct (root a) as [r|] eqn:Hr.
  - specialize (Hinv r eq_refl).
    destruct ((0 <? len (key r))%nat && is_nil (longestCommonPrefix (key r) k))
      eqn:C.
    + unbool. rewrite is_nil_longestCommonPrefix in *. unbool.
      injection Hput as <-. simpl. intros r' [= <-].
      apply distinctHeads_pair; try done.
      * by apply distinctHeads_leaf.
      * apply not_true_iff_false. rewrite sharePrefix_mismatch, Hk. lia.
    + intros r' Hr'.
      destruct (put_loop_distinctHeads _ _ _ _ _ _ _ _ Hput) as (r'' & Hr'' & Hd);
        try done.
      * intros [?|Hlen]; [done|]. apply sharePrefix_mismatch.
        unbool. rewrite is_nil_longestCommonPrefix in C. unbool. lia.
      * congruence.
  - destruct (numRecords a =? 0); [|done].
    injection Hput as <-. simpl. intros r' [= <-].
    by apply distinctHeads_leaf.
Qed.

End put_invariant.

Section reachable_trees.
Context {H : Blob.Hash}.

Lemma reachable_distinctHeads (a : Arc) :
  reachable a → ∀ r, root a = Some r → distinctHeads r.
Proof.
  induction 1 as [|a k v a' _ IH Hput]; [done|].
  by eapply Put_distinctHeads.
Qed.

(** C8: in a tree that successful calls of [Put] built from the empty tree,
    no two children of a node have key segments that share a non-empty
    prefix; so for every probe key at most one child of a node shares a
    non-empty prefix with the probe, and [findCompatibleChild] returns that
    child, or nil when there is none. *)
Theorem siblings_disjoint (a : Arc) (r n : node) :
  reachable a → root a = Some r → subnode n r →
  siblingsDisjoint (children n)
  ∧ ∀ probe,
      (∀ i j ci cj,
         children n !! i = Some ci → children n !! j = Some cj →
         sharePrefix (key ci) probe = true →
         sharePrefix (key cj) probe = true →
         i = j)
      ∧ match findCompatibleChild n probe with
        | Some (i, c) =>
            children n !! i = Some c ∧ sharePrefix (key c) probe = true
        | None => ∀ c, c ∈ children n → sharePrefix (key c) probe = false
        end.
Proof.
  intros Ha Hr Hn.
  assert (Hd : distinctHeads n).
  { eapply distinctHeads_subnode; [done|]. by eapply reachable_distinctHeads. }
  split; [by apply distinctHeads_disjoint|].
  intros probe. split.
  - intros i j ci cj. by apply distinctHeads_probe.
  - apply findCompatibleChild_spec.
Qed.

End reachable_trees.

Lemma applArc_reachable : reachable (H := sumHash) applArc.
Proof.
  eapply (reachable_Put _ (lit "apply") (lit "verb")).
  - eapply (reachable_Put _ (lit "application") (lit "form")).
    + eapply (reachable_Put _ (lit "apple") (lit "sauce")).
      * apply reachable_New.
      * reflexivity.
    + reflexivity.
  - reflexivity.
Qed.

Lemma siblings_disjoint_witness :
  siblingsDisjoint (children applTree)
  ∧ findCompatibleChild applTree (lit "ying")
    = Some (2%nat, mkNode (lit "y") true false 0 [] (lit "verb"))
  ∧ ∀ i c,
      children applTree !! i = Some c →
      sharePrefix (key c) (lit "ying") = true → i = 2%nat.
Proof.
  destruct (siblings_disjoint (H := sumHash) applArc applTree applTree
              applArc_reachable eq_refl (subnode_here _)) as [Hd Hp].
  split; [exact Hd|]. split; [reflexivity|].
  intros i c Hi Hs.
  destruct (Hp (lit "ying")) as [Huniq _].
  apply (Huniq i 2%nat c (mkNode (lit "y") true false 0 [] (lit "verb")));
    [exact Hi|reflexivity|exact Hs|reflexivity].
Defined.

(** ** The loops end within the height of the tree *)

Lemma findCompatibleChild_elem_of (n : node) (k : bytes) i c :
  findCompatibleChild n k = Some (i, c) → c ∈ children n.
Proof.
  intros Hf. pose proof (findCompatibleChild_spec n k) as Hs.
  rewrite Hf in Hs. destruct Hs as [Hi _]. by eapply list_elem_of_lookup_2.
Qed.

Lemma find_loop_ends fuel ctx parent current k :
  (height current ≤ fuel)%nat →
  ∃ res, find_loop fuel ctx parent current k = Returns res.
Proof.
  revert ctx parent current k.
  induction fuel as [|fuel IH]; intros ctx parent current k Hh.
  - destruct current; simpl in Hh; lia.
  - simpl.
    destruct (findCompatibleChild current _) as [[i child]|] eqn:Hf;
      [|repeat case_match; eauto].
    assert (Hc : child ∈ children current)
      by by eapply findCompatibleChild_elem_of.
    apply height_child in Hc.
    repeat case_match; eauto. apply IH. lia.
Qed.

(** [Get] and [Delete] return, unless the handle has no root and yet counts
    records, when they dereference the nil root. *)
Lemma findNodeAndParent_returns (a : Arc) (k : bytes) :
  (root a = None → numRecords a = 0) →
  ∃ res, findNodeAndParent a k = Returns res.
Proof.
  intros Hroot. unfold findNodeAndParent, empty.
  destruct (is_nil k); [eauto|].
  destruct (root a) as [r|]; [by apply find_loop_ends|].
  rewrite Hroot by done. simpl. eauto.
Qed.

Lemma Get_returns (a : Arc) (k : bytes) :
  (root a = None → numRecords a = 0) → ∃ res, Get a k = Returns res.
Proof.
  intros Hroot. unfold Get. destruct (is_nil k); [eauto|].
  destruct (findNodeAndParent_returns a k Hroot) as [[e|[[n ctx] p]] ->];
    [eauto|]. case_match; eauto.
Qed.

Section put_returns.
Context {H : Blob.Hash}.

Lemma put_loop_ends fuel a ctx current k newNode v :
  (height current ≤ fuel)%nat →
  ∃ res, put_loop fuel a ctx current k newNode v = Returns res.
Proof.
  revert ctx current k newNode.
  induction fuel as [|fuel IH]; intros ctx current k newNode Hh.
  - destruct current; simpl in Hh; lia.
  - simpl.
    destruct (findCompatibleChild current _) as [[i child]|] eqn:Hf;
      [|repeat case_match; eauto].
    assert (Hc : child ∈ children current)
      by by eapply findCompatibleChild_elem_of.
    apply height_child in Hc.
    repeat case_match; eauto. apply IH. lia.
Qed.

Lemma put_loop_root fuel a ctx current k newNode v a' :
  put_loop fuel a ctx current k newNode v = Returns (a', None) →
  root a' ≠ None.
Proof.
  revert ctx current k newNode.
  induction fuel as [|fuel IH]; intros ctx current k newNode; simpl; [done|].
  repeat case_match; simplify_eq/=; try done; try (by intros [= <-]).
  - unfold splitNode. repeat case_match; by intros [= <-].
  - apply IH.
Qed.

(** [Put] returns, under the same proviso. *)
Lemma Put_returns (a : Arc) (k v : bytes) :
  (root a = None → numRecords a = 0) → ∃ res, Put a k v = Returns res.
Proof.
  intros Hroot. unfold Put, empty. repeat case_match; simplify_eq/=; eauto.
  - by apply put_loop_ends.
  - rewrite Hroot in *; done.
Qed.

Lemma Put_root (a : Arc) (k v : bytes) a' :
  Put a k v = Returns (a', None) → root a' ≠ None.
Proof.
  unfold Put, empty.
  repeat case_match; simplify_eq/=; try done; try (by intros [= <-]).
  apply put_loop_root.
Qed.

Lemma reachable_root (a : Arc) :
  reachable a → root a = None → numRecords a = 0.
Proof.
  destruct 1 as [|a k v a' _ Hput]; [done|].
  intros Hr. by apply Put_root in Hput.
Qed.

(** On every tree that [Put] built, [Put] and [Get] return: the fuel the
    entry points hand to the loops is enough, and no nil root is read. *)
Lemma reachable_returns (a : Arc) (k v : bytes) :
  reachable a →
  (∃ res, Put a k v = Returns res) ∧ (∃ res, Get a k = Returns res).
Proof.
  intros Ha. split; [apply Put_returns|apply Get_returns];
    by apply reachable_root.
Qed.

End put_returns.

(** ** The embedding and the pointers of the code *)

Lemma removeChild_after_index (k : bytes) (current : node) (rest : list node)
    (i : nat) (c : node) :
  rest !! i = Some c → elems (key c) = elems k →
  (∀ j d, (j < i)%nat → rest !! j = Some d → elems (key d) ≠ elems k) →
  removeChild_after k current rest = Some (current :: delete i rest).
Proof.
  revert current i. induction rest as [|next rest IH]; intros current i;
    [done|].
  intros Hi Hk Hbefore. simpl. unfold bytes_Equal.
  destruct i as [|i]; simpl in Hi.
  - simplify_eq. by rewrite bool_decide_eq_true_2.
  - rewrite bool_decide_eq_false_2 by (apply (Hbefore 0%nat); [lia|done]).
    rewrite (IH next i); [done|done|done|].
    intros j d Hj. apply (Hbefore (S j)). lia.
Qed.

(** [removeChild] looks for the key of the node it is given, the code for
    the node itself.  Where the siblings are disjoint and the node has a key
    segment, which is where [Put] calls it, the two agree: the node unlinked
    is the one the traversal stands on. *)
Lemma removeChild_unlinks (p current : node) (i : nat) :
  distinctHeads p → children p !! i = Some current →
  (0 < len (key current))%nat →
  removeChild p current
  = inr (mkNode (key p) (isRecord p) (blobValue p)
           (int_wrap (numChildren p - 1)) (delete i (children p)) (data p)).
Proof.
  intros [Hnd _]%distinctHeads_inv Hi Hlen.
  assert (Huniq : ∀ j d, children p !! j = Some d →
                         elems (key d) = elems (key current) → j = i).
  { intros j d Hj Hd.
    unfold len in Hlen.
    destruct (elems (key current)) as [|b l] eqn:Hk; [simpl in Hlen; lia|].
    eapply (omap_lookup_inj firstByte _ j i d current b); eauto;
      unfold firstByte; by rewrite ?Hd, ?Hk. }
  unfold removeChild. destruct (children p) as [|first rest] eqn:Hcs; [done|].
  unfold bytes_Equal. destruct i as [|i]; simpl in Hi.
  - simplify_eq. by rewrite bool_decide_eq_true_2.
  - rewrite bool_decide_eq_false_2.
    + rewrite (removeChild_after_index _ _ _ i current); try done.
      intros j d Hj Hd He. specialize (Huniq (S j) d Hd He). lia.
    + intros He. specialize (Huniq 0%nat first eq_refl He). lia.
Qed.

Lemma mismatch_diag (l : list byte) : mismatch l l = length l.
Proof.
  induction l as [|x l IH]; simpl; [done|].
  by rewrite bool_decide_eq_true_2, IH.
Qed.

Section large_values.
Context {H : Blob.Hash}.

(** [Get] hands back [node.data] as it is.  For a value above the inline
    threshold that is the identifier under which [setValue] put the value
    into the blob store; an identifier of at most 32 bytes cannot be the
    value. *)
Lemma Get_large_value (a : Arc) (k v : bytes) :
  empty a = true → k ≠ None →
  Z.of_nat (len k) ≤ maxKeyBytes →
  (inlineValueThreshold < len v)%nat → Z.of_nat (len v) ≤ maxValueBytes →
  ∃ a', Put a k v = Returns (a', None)
        ∧ Get a' k = Returns (Some (Blob.makeBlobID (elems v)), None)
        ∧ ((length (Blob.makeBlobID (elems v)) ≤ inlineValueThreshold)%nat →
           Some (Blob.makeBlobID (elems v)) ≠ v).
Proof.
  intros He Hk Hkl Hv Hvl. destruct k as [l|]; [|done].
  unfold Put. simpl is_nil. cbv iota.
  destruct (Z.gtb_spec (Z.of_nat (len (Some l))) maxKeyBytes); [lia|].
  destruct (Z.gtb_spec (Z.of_nat (len v)) maxValueBytes); [lia|].
  unfold setValue. simpl blobValue. cbv iota.
  destruct (Nat.leb_spec (len v) inlineValueThreshold); [lia|].
  pose proof (put_id (blobs a) v) as Hid.
  destruct (Blob.put (blobs a) v) as [bs id]. simpl in Hid. subst id.
  unfold empty in *. simpl. destruct (root a); [done|]. rewrite He.
  eexists. split; [reflexivity|]. split.
  - unfold Get, findNodeAndParent, empty. simpl.
    rewrite len_longestCommonPrefix, is_nil_longestCommonPrefix. simpl.
    rewrite mismatch_diag. unfold len. simpl.
    rewrite andb_false_r, Nat.eqb_refl. done.
  - intros Hw Heq. apply (f_equal len) in Heq. unfold len in *.
    simpl in Heq. lia.
Qed.

(** [node.value] is the accessor that resolves the identifier: on a node
    whose value went into the store under a fresh identifier it returns the
    value that [setValue] was given. *)
Lemma value_setValue (bs : Blob.blobStore) (n : node) (v : bytes) :
  blobValue n = false → bs !! Blob.makeBlobID (elems v) = None →
  value (setValue bs n v).2 (setValue bs n v).1 = v.
Proof.
  intros Hb Hfresh. unfold setValue. rewrite Hb.
  destruct (Nat.leb_spec (len v) inlineValueThreshold) as [Hle|Hgt].
  - unfold value. simpl. by destruct v.
  - pose proof (put_lookup bs v) as Hl. pose proof (put_id bs v) as Hid.
    rewrite Hfresh in Hl.
    destruct (Blob.put bs v) as [bs2 id]. simpl in *. subst id.
    unfold value, Blob.get. simpl. by rewrite Hl.
Qed.

End large_values.

(** ** [Put], then [Get] *)

Lemma sharePrefix_elems (a a' b : bytes) :
  elems a' = elems a → sharePrefix a' b = sharePrefix a b.
Proof.
  intros He. apply eq_true_iff_eq. by rewrite !sharePrefix_mismatch, He.
Qed.

Lemma hasChildren_findCompatibleChild (n : node) (k : bytes) i c :
  findCompatibleChild n k = Some (i, c) → hasChildren n = true.
Proof.
  intros Hc%findCompatibleChild_elem_of. unfold hasChildren.
  destruct (children n); [by apply elem_of_nil in Hc|done].
Qed.

Lemma finds_find_loop atRoot current k n :
  finds atRoot current k n →
  ∀ fuel ctx parent,
    (height current ≤ fuel)%nat → atRoot = bool_decide (ctx = []) →
    ∃ ctx' parent',
      find_loop fuel ctx parent current k = Returns (inr (n, ctx', parent')).
Proof.
  induction 1 as [atRoot current k Hm Hlen Hroot
                 |atRoot current k i child n Hm Hlen Hroot Hfind _ IH];
    intros fuel ctx parent Hfuel ->.
  - destruct fuel as [|fuel]; [destruct current; simpl in Hfuel; lia|].
    simpl. rewrite len_longestCommonPrefix, is_nil_longestCommonPrefix, Hm.
    rewrite Nat.eqb_refl, <- Hlen, Nat.eqb_refl. simpl.
    replace ((len k =? 0)%nat && negb (bool_decide (ctx = []))) with false;
      [eauto|].
    symmetry. apply andb_false_iff.
    destruct Hroot as [->|Hk]; [by right|left]. apply Nat.eqb_neq. lia.
  - destruct fuel as [|fuel]; [destruct current; simpl in Hfuel; lia|].
    simpl. rewrite len_longestCommonPrefix, is_nil_longestCommonPrefix, Hm.
    rewrite Nat.eqb_refl. simpl.
    replace ((len (key current) =? 0)%nat && negb (bool_decide (ctx = [])))
      with false.
    2:{ symmetry. apply andb_false_iff.
        destruct Hroot as [->|Hk]; [by right|left]. apply Nat.eqb_neq. lia. }
    replace (len (key current) =? len k)%nat with false
      by (symmetry; apply Nat.eqb_neq; lia).
    rewrite (hasChildren_findCompatibleChild _ _ _ _ Hfind). simpl.
    rewrite Hfind. apply IH; [|done].
    apply findCompatibleChild_elem_of, height_child in Hfind. lia.
Qed.

Lemma findCompatibleChild_unique (n : node) (k : bytes) (i : nat) (c : node) :
  distinctHeads n → children n !! i = Some c →
  sharePrefix (key c) k = true →
  findCompatibleChild n k = Some (i, c).
Proof.
  intros Hn Hi Hs. pose proof (findCompatibleChild_spec n k) as Hspec.
  destruct (findCompatibleChild n k) as [[j d]|].
  - destruct Hspec as [Hj Hd].
    assert (j = i) as -> by by eapply distinctHeads_probe.
    congruence.
  - apply list_elem_of_lookup_2 in Hi. rewrite (Hspec c Hi) in Hs. done.
Qed.

Lemma findCompatibleChild_linked (n : node) (k : bytes) (c : node) :
  distinctHeads n → c ∈ children n → sharePrefix (key c) k = true →
  ∃ i, findCompatibleChild n k = Some (i, c).
Proof.
  intros Hn [i Hi]%list_elem_of_lookup_1 Hs.
  exists i. by apply findCompatibleChild_unique.
Qed.

Lemma leads_ctx_ok ctx current k K : leads ctx current k K → ctx_ok ctx current.
Proof.
  revert current k. induction ctx as [|[p i] up IH]; intros current k; simpl;
    [done|].
  intros (Hi & Hp & _ & kp & Hup & _). eauto.
Qed.

Lemma finds_plug ctx current X k K n :
  leads ctx current k K → distinctHeads X →
  elems (key X) = elems (key current) →
  finds (bool_decide (ctx = [])) X k n →
  finds true (plug ctx X) K n.
Proof.
  revert current X k. induction ctx as [|[p i] up IH]; intros current X k; simpl.
  - by intros ->.
  - intros (Hi & Hp & Hs & kp & Hup & Hm & Hlen & Hroot & ->) HdX HX Hf.
    assert (Hd : distinctHeads (setChild p i X)).
    { apply (distinctHeads_setChild p i current); try done.
      unfold firstByte. by rewrite HX. }
    apply (IH p _ kp); [done|done|done|].
    apply (finds_below _ _ _ i X); try done.
    + destruct Hroot as [->|?]; [by left|by right].
    + apply findCompatibleChild_unique; [done| |].
      * simpl. apply list_lookup_insert_eq. by eapply lookup_lt_Some.
      * by rewrite (sharePrefix_elems (key current)).
Qed.

Lemma finds_relink (p p1 current r : node) (up : list frame) (kp K : bytes) n :
  leads up p kp K → distinctHeads p →
  mismatch (elems (key p)) (elems kp) = len (key p) →
  (len (key p) < len kp)%nat →
  (up = [] ∨ (0 < len (key p))%nat) →
  removeChild p current = inr p1 →
  distinctHeads r → firstByte r = firstByte current →
  sharePrefix (key r) (slice_from kp (len (key p))) = true →
  finds false r (slice_from kp (len (key p))) n →
  finds true (plug up (addChild p1 r)) K n.
Proof.
  intros Hup Hp Hm Hlen Hroot Hrm Hr Hb Hs Hf.
  assert (Hd : distinctHeads (addChild p1 r))
    by by apply (distinctHeads_relink p p1 current).
  destruct (removeChild_inr _ _ _ Hrm) as (Hk & _).
  destruct (findCompatibleChild_linked (addChild p1 r)
              (slice_from kp (len (key p))) r) as [j Hj]; try done.
  { rewrite children_addChild. apply elem_of_cons. by left. }
  assert (Hkey : key (addChild p1 r) = key p) by (simpl; by rewrite Hk).
  apply (finds_plug up p _ kp); try done.
  { by rewrite Hkey. }
  rewrite <- Hkey in *.
  apply (finds_below _ _ _ j r); try done.
  destruct Hroot as [->|?]; [by left|by right].
Qed.

Lemma mismatch_take_l (l : list byte) (n : nat) :
  (n ≤ length l)%nat → mismatch (take n l) l = n.
Proof.
  revert n. induction l as [|x l IH]; intros [|n]; simpl; try done; [lia|].
  intros Hn. rewrite bool_decide_eq_true_2 by done. rewrite IH; [done|lia].
Qed.

Lemma finds_self (atRoot : bool) (n : node) (k : bytes) :
  elems (key n) = elems k → atRoot = true ∨ (0 < len k)%nat →
  finds atRoot n k n.
Proof.
  intros He Hroot. apply finds_here; [|unfold len; by rewrite He|done].
  unfold len. by rewrite He, mismatch_diag.
Qed.

Lemma sharePrefix_diag (k : bytes) :
  (0 < len k)%nat → sharePrefix k k = true.
Proof. intros Hk. apply sharePrefix_mismatch. by rewrite mismatch_diag. Qed.

Lemma len_slice_from (k : bytes) (m : nat) : len (slice_from k m) = (len k - m)%nat.
Proof. unfold len. by rewrite elems_slice_from, length_drop. Qed.

Section roundtrip.
Context {H : Blob.Hash}.

Lemma setValue_stored bs n v :
  isRecord (setValue bs n v).2 = true ∧ data (setValue bs n v).2 = stored v.
Proof.
  unfold setValue, stored. case_match; [done|].
  match goal with |- context [Blob.put ?bs v] =>
    pose proof (put_id bs v) as Hid; destruct (Blob.put bs v) as [bs2 id]
  end.
  simpl in *. by subst id.
Qed.

Lemma put_loop_finds fuel a ctx current k newNode v K :
  (height current ≤ fuel)%nat →
  distinctHeads current → leads ctx current k K →
  key newNode = k → children newNode = [] →
  isRecord newNode = true → data newNode = stored v →
  (ctx = [] → (0 < len (key current))%nat → sharePrefix (key current) k = true) →
  ∃ a' r' n,
    put_loop fuel a ctx current k newNode v = Returns (a', None)
    ∧ root a' = Some r' ∧ finds true r' K n
    ∧ isRecord n = true ∧ data n = stored v.
Proof.
  revert ctx current k newNode.
  induction fuel as [|fuel IH]; intros ctx current k newNode Hfuel Hcur Hleads
    Hkey Hleaf Hrec Hdata Hpre.
  { destruct current; simpl in Hfuel; lia. }
  simpl. rewrite len_longestCommonPrefix. subst k.
  pose proof (mismatch_le_l (elems (key current)) (elems (key newNode))) as Hml.
  pose proof (mismatch_le_r (elems (key current)) (elems (key newNode))) as Hmr.
  fold (len (key current)) in Hml. fold (len (key newNode)) in Hmr.
  pose proof (leads_ctx_ok _ _ _ _ Hleads) as Hctx.
  assert (Hshare : ctx ≠ [] ∨ (0 < len (key current))%nat →
                   (0 < mismatch (elems (key current)) (elems (key newNode)))%nat).
  { intros Hor. apply sharePrefix_mismatch.
    destruct ctx as [|[p i] up]; [destruct Hor; [done|by apply Hpre]|].
    by destruct Hleads as (_ & _ & Hs & _). }
  assert (Hroot : bool_decide (ctx = []) = true
                  ∨ (0 < mismatch (elems (key current)) (elems (key newNode)))%nat).
  { destruct ctx; [by left|right]. apply Hshare. by left. }
  set (m := mismatch (elems (key current)) (elems (key newNode))) in *.
  destruct ((m =? len (key current))%nat && (m =? len (key newNode))%nat) eqn:C1.
  { (* exact match *)
    unbool.
    pose proof (setValue_shape (blobs a) current v) as [Hk Hc].
    pose proof (setValue_stored (blobs a) current v) as [Hr Hd].
    destruct (setValue (blobs a) current v) as [bs current1]. simpl in *.
    eexists _, _, current1. split; [reflexivity|]. split; [reflexivity|].
    split; [|done].
    apply (finds_plug ctx current _ (key newNode)); try done.
    - by apply (distinctHeads_children current).
    - by rewrite Hk.
    - apply finds_here; rewrite ?Hk; fold m; try lia.
      destruct Hroot; [by left|right; lia]. }
  destruct ((m =? len (key newNode))%nat && (m <? len (key current))%nat) eqn:C2.
  { (* newNode becomes the parent of current *)
    unbool.
    set (current1 := setKey current _) in *.
    set (newNode1 := addChild newNode current1).
    assert (Hn1 : distinctHeads newNode1).
    { apply distinctHeads_addChild.
      - by apply distinctHeads_leaf.
      - by apply (distinctHeads_children current).
      - rewrite Hleaf. intros d Hd. by apply elem_of_nil in Hd. }
    destruct ctx as [|[parent i] up].
    - simpl in Hleads. subst K.
      eexists _, _, newNode1. split; [reflexivity|]. split; [reflexivity|].
      split; [|done]. apply finds_self; [done|by left].
    - destruct Hleads as (Hi & Hp & Hs & kp & Hup & Hm & Hlen & Hr & Hk).
      destruct (removeChild_linked _ _ _ Hi) as [parent1 Hrm]. rewrite Hrm.
      eexists _, _, newNode1. split; [reflexivity|]. split; [reflexivity|].
      split; [|done].
      assert (0 < m)%nat by (apply Hshare; by left).
      rewrite Hk in *.
      apply (finds_relink parent parent1 current newNode1 up kp); try done.
      + by apply firstByte_shared.
      + change (key newNode1) with (key newNode). rewrite Hk.
        apply sharePrefix_diag. lia.
      + apply finds_self; [simpl; by rewrite Hk|right]. lia. }
  destruct ((0 <? m)%nat && (m <? len (key current))%nat) eqn:C3.
  { (* split *)
    unbool.
    assert (Hmn : (m < len (key newNode))%nat) by lia.
    unfold splitNode. rewrite len_longestCommonPrefix. fold m.
    set (current1 := setKey current _).
    set (newNode1 := setKey newNode _).
    set (newParent := keyNode _).
    set (X := addChild (addChild newParent current1) newNode1).
    assert (Hnp : distinctHeads X).
    { apply distinctHeads_pair; try done.
      - by apply (distinctHeads_children current).
      - by apply distinctHeads_leaf.
      - by apply split_heads. }
    assert (HkX : elems (key X) = take m (elems (key newNode))).
    { simpl. rewrite elems_longestCommonPrefix. fold m. apply mismatch_take. }
    assert (HlX : len (key X) = m).
    { unfold len. rewrite HkX, length_take. unfold len in Hmn. lia. }
    assert (HmX : mismatch (elems (key X)) (elems (key newNode)) = m).
    { rewrite HkX. apply mismatch_take_l. unfold len in Hmn. lia. }
    assert (Hfb : firstByte X = firstByte current).
    { unfold firstByte. simpl. rewrite elems_longestCommonPrefix. fold m.
      by apply head_take_pos. }
    assert (Hk1 : (0 < len (key newNode1))%nat).
    { simpl. rewrite len_slice_from. lia. }
    assert (HfX : ∀ atRoot, finds atRoot X (key newNode) newNode1).
    { intros atRoot.
      destruct (findCompatibleChild_linked X (slice_from (key newNode) m)
                  newNode1) as [j Hj]; try done.
      { unfold X. rewrite children_addChild. apply elem_of_cons. by left. }
      { by apply sharePrefix_diag. }
      apply (finds_below _ _ _ j newNode1); rewrite ?HlX; try done; try lia.
      apply finds_self; [done|by right]. }
    destruct ctx as [|[parent i] up].
    - simpl in Hleads. subst K.
      eexists _, _, newNode1. split; [reflexivity|]. split; [reflexivity|].
      done.
    - destruct Hleads as (Hi & Hp & Hs & kp & Hup & Hm & Hlen & Hr & Hk).
      destruct (removeChild_linked _ _ _ Hi) as [parent1 Hrm]. rewrite Hrm.
      eexists _, _, newNode1. split; [reflexivity|]. split; [reflexivity|].
      split; [|done].
      apply (finds_relink parent parent1 current X up kp); try done.
      + rewrite <- Hk. apply sharePrefix_mismatch. rewrite HmX. lia.
      + rewrite <- Hk. apply HfX. }
  (* descent *)
  unbool.
  assert (Hm : m = len (key current) ∧ (m < len (key newNode))%nat).
  { destruct (decide (m = len (key current))) as [Hm|Hm]; [lia|].
    assert (0 < m)%nat; [apply Hshare; right|]; lia. }
  destruct Hm as [Hm Hmn].
  set (k1 := slice_from (key newNode) m) in *.
  set (newNode1 := setKey newNode k1) in *.
  assert (Hk1 : (0 < len k1)%nat).
  { unfold k1. rewrite len_slice_from. lia. }
  pose proof (findCompatibleChild_spec current k1) as Hfind.
  destruct (findCompatibleChild current k1) as [[i child]|] eqn:Hfc.
  - destruct Hfind as [Hi Hs].
    apply IH; try done.
    + apply list_elem_of_lookup_2 in Hi. apply height_child in Hi. lia.
    + eapply distinctHeads_child; [done|]. by eapply list_elem_of_lookup_2.
    + simpl. split; [done|]. split; [done|]. split; [done|].
      exists (key newNode). split; [done|]. split; [by fold m|].
      split; [lia|]. split; [|by rewrite <- Hm].
      destruct ctx; [by left|right]. rewrite <- Hm. apply Hshare. by left.
  - set (X := addChild current newNode1).
    assert (Hadd : distinctHeads X).
    { apply distinctHeads_addChild; [done|by apply distinctHeads_leaf|done]. }
    assert (HfX : finds (bool_decide (ctx = [])) X (key newNode) newNode1).
    { destruct (findCompatibleChild_linked X k1 newNode1) as [j Hj]; try done.
      { unfold X. rewrite children_addChild. apply elem_of_cons. by left. }
      { by apply sharePrefix_diag. }
      apply (finds_below _ _ _ j newNode1); change (key X) with (key current);
        rewrite <- ?Hm; try done.
      apply finds_self; [done|by right]. }
    destruct ctx as [|f up].
    + simpl in Hleads. subst K.
      replace (is_nil (key current) || (m =? len (key current))%nat) with true
        by (symmetry; apply orb_true_iff; right; by apply Nat.eqb_eq).
      eexists _, _, newNode1. split; [reflexivity|]. split; [reflexivity|].
      done.
    + eexists _, _, newNode1. split; [reflexivity|]. split; [reflexivity|].
      split; [|done].
      by apply (finds_plug (f :: up) current X (key newNode)).
Qed.


Lemma Get_finds (a : Arc) (k : bytes) (r n : node) :
  root a = Some r → k ≠ None → finds true r k n → isRecord n = true →
  Get a k = Returns (data n, None).
Proof.
  intros Hr Hk Hf Hn. destruct k as [l|]; [|done].
  unfold Get, findNodeAndParent, empty. rewrite Hr. simpl.
  destruct (finds_find_loop _ _ _ _ Hf (height r) [] None) as (ctx' & p' & ->);
    [done|done|].
  by rewrite Hn.
Qed.

(** On a tree that [Put] built, [Put] of a key that is not empty and of a
    value, both within their limits, succeeds, and the [Get] of the key that
    follows returns what [setValue] stored: the value itself when it has at
    most 32 bytes. *)
Theorem Put_Get (a : Arc) (k v : bytes) :
  reachable a →
  (0 < len k)%nat → Z.of_nat (len k) ≤ maxKeyBytes →
  Z.of_nat (len v) ≤ maxValueBytes →
  ∃ a', Put a k v = Returns (a', None)
        ∧ Get a' k = Returns (stored v, None)
        ∧ ((len v ≤ inlineValueThreshold)%nat →
           Get a' k = Returns (v, None)).
Proof.
  intros Ha Hk Hkl Hvl.
  assert (Hinline : ∀ a', Get a' k = Returns (stored v, None) →
            (len v ≤ inlineValueThreshold)%nat → Get a' k = Returns (v, None)).
  { intros a' -> Hv. unfold stored.
    by destruct (Nat.leb_spec (len v) inlineValueThreshold); [|lia]. }
  assert (Hnil : k ≠ None).
  { intros ->. unfold len in Hk. simpl in Hk. lia. }
  cut (∃ a' r' n, Put a k v = Returns (a', None) ∧ root a' = Some r'
                  ∧ finds true r' k n ∧ isRecord n = true ∧ data n = stored v).
  { intros (a' & r' & n & Hput & Hr & Hf & Hn & Hd).
    exists a'. split; [done|].
    assert (Hg : Get a' k = Returns (stored v, None))
      by (rewrite <- Hd; by eapply Get_finds).
    split; [done|by apply Hinline]. }
  pose proof (reachable_distinctHeads a Ha) as Hinv.
  pose proof (reachable_root a Ha) as Hroot.
  unfold Put. destruct k as [l|]; [|done]. simpl is_nil. cbv iota.
  destruct (Z.gtb_spec (Z.of_nat (len (Some l))) maxKeyBytes); [lia|].
  destruct (Z.gtb_spec (Z.of_nat (len v)) maxValueBytes); [lia|].
  pose proof (setValue_shape (blobs a) (setKey emptyNode (Some l)) v) as [Hsk Hsc].
  pose proof (setValue_stored (blobs a) (setKey emptyNode (Some l)) v) as [Hsr Hsd].
  destruct (setValue (blobs a) (setKey emptyNode (Some l)) v) as [bs newNode].
  simpl in Hsk, Hsc, Hsr, Hsd.
  unfold empty. simpl root. simpl numRecords.
  destruct (root a) as [r|] eqn:Hr.
  - specialize (Hinv r eq_refl).
    destruct ((0 <? len (key r))%nat
              && is_nil (longestCommonPrefix (key r) (Some l))) eqn:C.
    + unbool. rewrite is_nil_longestCommonPrefix in *. unbool.
      set (X := addChild (addChild (keyNode None) r) newNode).
      assert (Hd : distinctHeads X).
      { apply distinctHeads_pair; try done.
        - by apply distinctHeads_leaf.
        - apply not_true_iff_false. rewrite sharePrefix_mismatch, Hsk. lia. }
      destruct (findCompatibleChild_linked X (Some l) newNode) as [j Hj];
        try done.
      { unfold X. rewrite children_addChild. apply elem_of_cons. by left. }
      { rewrite Hsk. by apply sharePrefix_diag. }
      eexists _, X, newNode. split; [reflexivity|]. split; [reflexivity|].
      split; [|done].
      apply (finds_below _ _ _ j newNode); try done; [by left|].
      apply finds_self; [by rewrite Hsk|by right].
    + apply put_loop_finds; try done.
      intros _ Hlen. apply sharePrefix_mismatch.
      unbool. rewrite is_nil_longestCommonPrefix in C. unbool. lia.
  - rewrite Hroot by done. simpl.
    eexists _, newNode, newNode. split; [reflexivity|]. split; [reflexivity|].
    split; [|done]. apply finds_self; [by rewrite Hsk|by left].
Qed.

End roundtrip.

Lemma Put_Get_witness :
  ∃ a', Put (H := sumHash) applArc (lit "applet") (lit "java")
        = Returns (a', None)
        ∧ Get a' (lit "applet") = Returns (lit "java", None).
Proof.
  assert (Hk : (0 < len (lit "applet"))%nat) by (vm_compute; lia).
  assert (Hkl : Z.of_nat (len (lit "applet")) ≤ maxKeyBytes)
    by (vm_compute; discriminate).
  assert (Hvl : Z.of_nat (len (lit "java")) ≤ maxValueBytes)
    by (vm_compute; discriminate).
  assert (Hv : (len (lit "java") ≤ inlineValueThreshold)%nat)
    by (vm_compute; lia).
  destruct (Put_Get (H := sumHash) applArc (lit "applet") (lit "java")
              applArc_reachable Hk Hkl Hvl)
    as (a' & Hput & _ & Hget).
  exists a'. split; [exact Hput|exact (Hget Hv)].
Defined.

Lemma reachable_returns_witness :
  (∃ res, Put (H := sumHash) applArc (lit "apple") (lit "pie") = Returns res)
  ∧ (∃ res, Get applArc (lit "apple") = Returns res).
Proof.
  exact (reachable_returns (H := sumHash) applArc (lit "apple") (lit "pie")
           applArc_reachable).
Defined.

Lemma removeChild_unlinks_witness :
  removeChild applTree (mkNode (lit "y") true false 0 [] (lit "verb"))
  = inr (mkNode (lit "appl") false false 2
           [ mkNode (lit "e") true false 0 [] (lit "sauce");
             mkNode (lit "ication") true false 0 [] (lit "form") ]
           None).
Proof.
  assert (Hd : distinctHeads applTree).
  { by apply (reachable_distinctHeads (H := sumHash) applArc
                applArc_reachable). }
  assert (Hlen : (0 < len (lit "y"))%nat) by (vm_compute; lia).
  exact (removeChild_unlinks applTree
           (mkNode (lit "y") true false 0 [] (lit "verb")) 2 Hd eq_refl Hlen).
Defined.

(** ** The longest common prefix *)

Lemma mismatch_prefix_max (a b p : list byte) :
  p `prefix_of` a → p `prefix_of` b → (length p ≤ mismatch a b)%nat.
Proof.
  revert a b. induction p as [|x p IH]; intros a b [a' ->] [b' ->]; simpl;
    [lia|].
  rewrite bool_decide_eq_true_2 by done.
  specialize (IH (p ++ a') (p ++ b')).
  assert (length p ≤ mismatch (p ++ a') (p ++ b'))%nat; [|lia].
  apply IH; by eexists.
Qed.

(** X4: [longestCommonPrefix a b] is a prefix of [a] and of [b], every
    common prefix of the two is a prefix of it, and it is nil exactly when
    it is empty, that is when [a] and [b] share no first byte. *)
Theorem longestCommonPrefix_longest (a b : bytes) :
  elems (longestCommonPrefix a b) `prefix_of` elems a
  ∧ elems (longestCommonPrefix a b) `prefix_of` elems b
  ∧ (∀ p, p `prefix_of` elems a → p `prefix_of` elems b →
          p `prefix_of` elems (longestCommonPrefix a b))
  ∧ (is_nil (longestCommonPrefix a b) = true
     ↔ len (longestCommonPrefix a b) = 0%nat).
Proof.
  rewrite elems_longestCommonPrefix.
  split; [apply prefix_take|]. split.
  { rewrite mismatch_take. apply prefix_take. }
  split.
  - intros p Ha Hb.
    pose proof (mismatch_prefix_max _ _ _ Ha Hb) as Hle.
    destruct Ha as [a' Ha]. rewrite Ha in *.
    rewrite take_app_ge by done. by apply prefix_app_r.
  - rewrite is_nil_longestCommonPrefix, len_longestCommonPrefix.
    apply Nat.eqb_eq.
Qed.

(** ** The order of the children *)

Lemma to_N_inj (x y : byte) : Byte.to_N x = Byte.to_N y → x = y.
Proof.
  intros He. pose proof (Byte.of_to_N x) as Hx. rewrite He in Hx.
  rewrite Byte.of_to_N in Hx. by injection Hx.
Qed.

Lemma compare_elems_antisym (a b : list byte) :
  compare_elems b a = - compare_elems a b.
Proof.
  revert b. induction a as [|x a IH]; intros [|y b]; simpl; try done.
  destruct (N.ltb_spec (Byte.to_N x) (Byte.to_N y)),
    (N.ltb_spec (Byte.to_N y) (Byte.to_N x)); try done; try lia.
Qed.

Lemma compare_elems_range (a b : list byte) :
  compare_elems a b = -1 ∨ compare_elems a b = 0 ∨ compare_elems a b = 1.
Proof.
  revert b. induction a as [|x a IH]; intros [|y b]; simpl; auto.
  repeat case_match; auto.
Qed.

Lemma compare_elems_eq (a b : list byte) : compare_elems a b = 0 ↔ a = b.
Proof.
  revert b. induction a as [|x a IH]; intros [|y b]; simpl; try done.
  destruct (N.ltb_spec (Byte.to_N x) (Byte.to_N y)); [split; [done|]|].
  { intros [= -> _]. lia. }
  destruct (N.ltb_spec (Byte.to_N y) (Byte.to_N x)); [split; [done|]|].
  { intros [= -> _]. lia. }
  assert (x = y) as -> by (apply to_N_inj; lia).
  rewrite IH. split; [by intros ->|by intros [= ->]].
Qed.

Lemma compare_elems_trans (a b c : list byte) :
  compare_elems a b ≤ 0 → compare_elems b c ≤ 0 → compare_elems a c ≤ 0.
Proof.
  revert b c. induction a as [|x a IH]; intros [|y b] [|z c]; simpl; try done;
    try lia.
  destruct (N.ltb_spec (Byte.to_N x) (Byte.to_N y)),
    (N.ltb_spec (Byte.to_N y) (Byte.to_N x)),
    (N.ltb_spec (Byte.to_N y) (Byte.to_N z)),
    (N.ltb_spec (Byte.to_N z) (Byte.to_N y)),
    (N.ltb_spec (Byte.to_N x) (Byte.to_N z)),
    (N.ltb_spec (Byte.to_N z) (Byte.to_N x)); try lia.
  apply IH.
Qed.

#[local] Instance nodeLe_trans : Transitive nodeLe.
Proof. intros c d e. apply compare_elems_trans. Qed.

Lemma nodeLe_total (c d : node) : nodeLe c d ∨ nodeLe d c.
Proof.
  unfold nodeLe, bytes_Compare.
  rewrite (compare_elems_antisym (elems (key c))).
  destruct (compare_elems_range (elems (key c)) (elems (key d))) as [?|[?|?]];
    lia.
Qed.

Lemma addChild_after_sorted (child current : node) (rest : list node) :
  StronglySorted nodeLe (current :: rest) → nodeLe current child →
  StronglySorted nodeLe (addChild_after child current rest).
Proof.
  revert current. induction rest as [|next rest IH]; intros current Hs Hle;
    simpl.
  - repeat constructor. done.
  - apply StronglySorted_cons in Hs as [Hall Hs].
    destruct (Z.ltb_spec (bytes_Compare (key next) (key child)) 0) as [Hlt|Hge].
    + apply StronglySorted_cons. split.
      * rewrite addChild_after_perm. by constructor.
      * apply IH; [done|]. unfold nodeLe. lia.
    + assert (Hcn : nodeLe child next).
      { unfold nodeLe, bytes_Compare in *.
        rewrite (compare_elems_antisym (elems (key next))). lia. }
      apply StronglySorted_cons. split; [by constructor|].
      apply StronglySorted_cons. split; [|done].
      apply StronglySorted_cons in Hs as [Hall' _].
      constructor; [done|].
      eapply Forall_impl; [done|]. intros d Hd. by etrans.
Qed.

Lemma addChild_keeps_sorted (n child : node) :
  StronglySorted nodeLe (children n) →
  StronglySorted nodeLe (children (addChild n child)).
Proof.
  intros Hs.
  unfold addChild; simpl. destruct (children n) as [|first rest] eqn:Hc.
  - repeat constructor.
  - destruct (Z.ltb_spec (bytes_Compare (key child) (key first)) 0) as [Hlt|Hge].
    + apply StronglySorted_cons. split; [|done].
      assert (Hcf : nodeLe child first) by (unfold nodeLe; lia).
      constructor; [done|].
      apply StronglySorted_cons in Hs as [Hall _].
      eapply Forall_impl; [done|]. intros d Hd. by etrans.
    + apply addChild_after_sorted; [done|].
      unfold nodeLe, bytes_Compare in *.
      rewrite (compare_elems_antisym (elems (key child))). lia.
Qed.

(** X5: [addChild] on a sorted child list gives a sorted child list that
    holds the new child and the old children, each as often as before, and
    counts one child more. *)
Theorem addChild_sorted (n child : node) :
  StronglySorted nodeLe (children n) →
  StronglySorted nodeLe (children (addChild n child))
  ∧ children (addChild n child) ≡ₚ child :: children n
  ∧ numChildren (addChild n child) = int_wrap (numChildren n + 1).
Proof.
  intros Hs. split; [by apply addChild_keeps_sorted|].
  split; [apply children_addChild|done].
Qed.

Lemma removeChild_after_split (k : bytes) (current : node) (rest cs : list node) :
  removeChild_after k current rest = Some cs →
  ∃ l1 d l2,
    rest = l1 ++ d :: l2 ∧ elems (key d) = elems k
    ∧ (∀ c, c ∈ l1 → elems (key c) ≠ elems k)
    ∧ cs = current :: l1 ++ l2.
Proof.
  revert current cs. induction rest as [|next rest IH]; intros current cs;
    simpl; [done|].
  unfold bytes_Equal. case_bool_decide as He.
  - intros [= <-]. exists [], next, rest. repeat split; try done.
    intros c Hc. by apply elem_of_nil in Hc.
  - destruct (removeChild_after k next rest) as [cs'|] eqn:Hr; [|done].
    intros [= <-]. destruct (IH _ _ Hr) as (l1 & d & l2 & -> & Hd & Hl1 & ->).
    exists (next :: l1), d, l2. repeat split; try done.
    intros c [->|Hc]%elem_of_cons; auto.
Qed.

Lemma removeChild_inr_split (n child n1 : node) :
  removeChild n child = inr n1 →
  ∃ l1 d l2,
    children n = l1 ++ d :: l2
    ∧ elems (key d) = elems (key child)
    ∧ (∀ c, c ∈ l1 → elems (key c) ≠ elems (key child))
    ∧ n1 = mkNode (key n) (isRecord n) (blobValue n)
             (int_wrap (numChildren n - 1)) (l1 ++ l2) (data n).
Proof.
  unfold removeChild. destruct (children n) as [|first rest] eqn:Hc; [done|].
  unfold bytes_Equal. case_bool_decide as He.
  - intros [= <-]. exists [], first, rest. repeat split; try done.
    intros c Hin. by apply elem_of_nil in Hin.
  - destruct (removeChild_after (key child) first rest) as [cs|] eqn:Hr;
      [|done].
    intros [= <-].
    destruct (removeChild_after_split _ _ _ _ Hr)
      as (l1 & d & l2 & -> & Hd & Hl1 & ->).
    exists (first :: l1), d, l2. repeat split; try done.
    intros c [->|Hin]%elem_of_cons; auto.
Qed.

Lemma removeChild_inl (n child : node) (e : error) :
  removeChild n child = inl e →
  e = ErrKeyNotFound
  ∧ ∀ c, c ∈ children n → elems (key c) ≠ elems (key child).
Proof.
  unfold removeChild. destruct (children n) as [|first rest] eqn:Hc.
  { intros [= <-]. split; [done|]. intros c Hin.
    by apply elem_of_nil in Hin. }
  unfold bytes_Equal. case_bool_decide as He; [done|].
  destruct (removeChild_after (key child) first rest) as [cs|] eqn:Hr;
    [done|].
  intros [= <-]. split; [done|]. intros c [->|Hin]%elem_of_cons; [done|].
  by eapply removeChild_after_None.
Qed.

(** X6: [removeChild] unlinks the first child whose key segment equals the
    key of [child], keeps the other children in their order and counts one
    child less; when no child has that key it returns [ErrKeyNotFound]. *)
Theorem removeChild_first_match (n child : node) :
  match removeChild n child with
  | inr n1 =>
      ∃ l1 d l2,
        children n = l1 ++ d :: l2
        ∧ elems (key d) = elems (key child)
        ∧ (∀ c, c ∈ l1 → elems (key c) ≠ elems (key child))
        ∧ n1 = mkNode (key n) (isRecord n) (blobValue n)
                 (int_wrap (numChildren n - 1)) (l1 ++ l2) (data n)
  | inl e =>
      e = ErrKeyNotFound
      ∧ ∀ c, c ∈ children n → elems (key c) ≠ elems (key child)
  end.
Proof.
  destruct (removeChild n child) as [e|n1] eqn:Hr.
  - by apply removeChild_inl.
  - by apply removeChild_inr_split.
Qed.

Lemma removeChild_sorted (n child n1 : node) :
  removeChild n child = inr n1 →
  StronglySorted nodeLe (children n) → StronglySorted nodeLe (children n1).
Proof.
  intros Hr Hs.
  destruct (removeChild_inr_split _ _ _ Hr) as (l1 & d & l2 & Hc & _ & _ & ->).
  simpl.
  rewrite Hc in Hs. apply StronglySorted_app in Hs as (Hall & Hs1 & Hs2).
  apply StronglySorted_cons in Hs2 as [_ Hs2].
  apply StronglySorted_app. split; [|done].
  intros x1 x2 Hx1 Hx2. apply Hall; [done|]. by apply elem_of_cons; right.
Qed.

(** X7: [findChild] returns the first child whose key segment equals [k],
    and [ErrKeyNotFound] when no child has that key. *)
Theorem findChild_first_match (n : node) (k : bytes) :
  match findChild n k with
  | inr c =>
      ∃ l1 l2,
        children n = l1 ++ c :: l2 ∧ elems (key c) = elems k
        ∧ ∀ d, d ∈ l1 → elems (key d) ≠ elems k
  | inl e =>
      e = ErrKeyNotFound ∧ ∀ d, d ∈ children n → elems (key d) ≠ elems k
  end.
Proof.
  unfold findChild. induction (children n) as [|child rest IH]; simpl.
  { split; [done|]. intros d Hd. by apply elem_of_nil in Hd. }
  unfold bytes_Equal. case_bool_decide as He.
  - exists [], rest. repeat split; try done.
    intros d Hd. by apply elem_of_nil in Hd.
  - destruct (findChild_from rest k) as [e|c].
    + destruct IH as [-> Hall]. split; [done|].
      intros d [->|Hd]%elem_of_cons; auto.
    + destruct IH as (l1 & l2 & -> & Hc & Hl1).
      exists (child :: l1), l2. repeat split; try done.
      intros d [->|Hd]%elem_of_cons; auto.
Qed.

(** ** [Put] keeps the children sorted and counted *)

Lemma int_wrap_add_l (x y : Z) : int_wrap (int_wrap x + y) = int_wrap (x + y).
Proof.
  unfold int_wrap. f_equal.
  replace ((x + 2 ^ 63) `mod` 2 ^ 64 - 2 ^ 63 + y + 2 ^ 63)
    with ((x + 2 ^ 63) `mod` 2 ^ 64 + y) by lia.
  rewrite Zplus_mod_idemp_l. f_equal. lia.
Qed.

Lemma tidy_inv (n : node) :
  tidy n →
  StronglySorted nodeLe (children n)
  ∧ numChildren n = int_wrap (Z.of_nat (length (children n)))
  ∧ Forall tidy (children n).
Proof. intros Hn. by destruct Hn. Qed.

Lemma tidy_leaf (n : node) : children n = [] → numChildren n = 0 → tidy n.
Proof.
  intros Hc Hn. constructor; rewrite Hc; [constructor|by rewrite Hn|constructor].
Qed.

Lemma tidy_children (n n' : node) :
  children n' = children n → numChildren n' = numChildren n →
  tidy n → tidy n'.
Proof.
  intros Hc Hn (Hs & Hcount & Hall)%tidy_inv.
  constructor; by rewrite ?Hc, ?Hn.
Qed.

Lemma tidy_addChild (n c : node) : tidy n → tidy c → tidy (addChild n c).
Proof.
  intros (Hs & Hcount & Hall)%tidy_inv Hc.
  pose proof (addChild_keeps_sorted n c Hs) as Hs'.
  pose proof (children_addChild n c) as Hperm.
  assert (Hnum : numChildren (addChild n c) = int_wrap (numChildren n + 1))
    by done.
  constructor; [done| |].
  - rewrite Hnum, Hperm, Hcount, int_wrap_add_l. simpl. f_equal. lia.
  - rewrite Hperm. by constructor.
Qed.

Lemma tidy_removeChild (n c n1 : node) :
  removeChild n c = inr n1 → tidy n → tidy n1.
Proof.
  intros Hr (Hs & Hcount & Hall)%tidy_inv.
  pose proof (removeChild_sorted _ _ _ Hr Hs) as Hs1.
  destruct (removeChild_inr_split _ _ _ Hr) as (l1 & d & l2 & Hc & _ & _ & ->).
  simpl in *.
  rewrite Hc in Hall, Hcount. constructor; simpl; [done| |].
  - rewrite Hcount, <- Z.add_opp_r, int_wrap_add_l. f_equal.
    rewrite !length_app. simpl. lia.
  - apply Forall_app in Hall as [H1 H2]. apply Forall_cons in H2 as [_ H2].
    by apply Forall_app.
Qed.

Lemma nodeLe_key_l (x y z : node) :
  elems (key y) = elems (key x) → nodeLe x z → nodeLe y z.
Proof. unfold nodeLe, bytes_Compare. by intros ->. Qed.

Lemma nodeLe_key_r (x y z : node) :
  elems (key y) = elems (key x) → nodeLe z x → nodeLe z y.
Proof. unfold nodeLe, bytes_Compare. by intros ->. Qed.

Lemma sorted_insert_same_key (l : list node) (i : nat) (x y : node) :
  l !! i = Some x → elems (key y) = elems (key x) →
  StronglySorted nodeLe l → StronglySorted nodeLe (<[i := y]> l).
Proof.
  intros Hi Hk Hs.
  rewrite <- (take_drop_middle l i x Hi) in Hs.
  rewrite insert_take_drop by by eapply lookup_lt_Some.
  apply StronglySorted_app in Hs as (Hall & Hs1 & Hs2).
  apply StronglySorted_cons in Hs2 as [Hx Hs2].
  apply StronglySorted_app. split; [|split; [done|]].
  - intros x1 x2 Hx1 [->|Hx2]%elem_of_cons.
    + apply (nodeLe_key_r x); [done|]. apply Hall; [done|]. by left.
    + apply Hall; [done|]. by right.
  - apply StronglySorted_cons. split; [|done].
    eapply Forall_impl; [done|]. intros z. by apply nodeLe_key_l.
Qed.

Lemma tidy_setChild (p : node) (i : nat) (n n' : node) :
  tidy p → children p !! i = Some n → tidy n' →
  elems (key n') = elems (key n) → tidy (setChild p i n').
Proof.
  intros (Hs & Hcount & Hall)%tidy_inv Hi Hn' Hk. constructor; simpl.
  - by apply (sorted_insert_same_key _ _ n).
  - by rewrite length_insert.
  - by apply Forall_insert.
Qed.

Lemma tidy_plug (ctx : list frame) (n n' : node) :
  tidy_ctx ctx n → tidy n' → elems (key n') = elems (key n) →
  tidy (plug ctx n').
Proof.
  revert n n'. induction ctx as [|[p i] up IH]; intros n n'; simpl; [done|].
  intros (Hi & Hp & Hup) Hn' Hk.
  apply (IH p); [done| |done]. by eapply tidy_setChild.
Qed.

Lemma tidy_child (n c : node) : tidy n → c ∈ children n → tidy c.
Proof.
  intros (_ & _ & Hall)%tidy_inv Hc. rewrite Forall_forall in Hall.
  by apply Hall.
Qed.

Lemma tidy_subnode (m n : node) : subnode m n → tidy n → tidy m.
Proof.
  induction 1 as [|m c n Hc _ IH]; [done|].
  intros Hn. apply IH. by eapply tidy_child.
Qed.

Section put_tidy.
Context {H : Blob.Hash}.

Lemma setValue_numChildren bs n v :
  numChildren (setValue bs n v).2 = numChildren n.
Proof.
  unfold setValue. case_match; [done|]. by destruct (Blob.put _ v).
Qed.

Lemma put_loop_tidy fuel a ctx current k newNode v a' :
  put_loop fuel a ctx current k newNode v = Returns (a', None) →
  tidy current → tidy_ctx ctx current → tidy newNode →
  ∃ r', root a' = Some r' ∧ tidy r'.
Proof.
  revert ctx current k newNode a'.
  induction fuel as [|fuel IH]; intros ctx current k newNode a'; simpl; [done|].
  intros Hput Hcur Hctx Hnew.
  destruct (_ && _) in Hput.
  { (* exact match *)
    pose proof (setValue_shape (blobs a) current v) as [Hk Hc].
    pose proof (setValue_numChildren (blobs a) current v) as Hn.
    destruct (setValue (blobs a) current v) as [bs current1]. simpl in *.
    injection Hput as <-. eexists; split; [reflexivity|].
    apply (tidy_plug _ current); [done| |by rewrite Hk].
    by apply (tidy_children current). }
  set (current1 := setKey current (slice_from (key current) (len (key newNode))))
    in *.
  assert (Hcur1 : ∀ k', tidy (setKey current k')).
  { intros k'. by apply (tidy_children current). }
  assert (Hnew1 : ∀ k', tidy (setKey newNode k')).
  { intros k'. by apply (tidy_children newNode). }
  destruct (_ && _) in Hput.
  { (* newNode becomes the parent of current *)
    assert (Hn1 : tidy (addChild newNode current1))
      by (apply tidy_addChild; [done|apply Hcur1]).
    destruct ctx as [|[parent i] up].
    - injection Hput as <-. eauto.
    - destruct Hctx as (Hi & Hp & Hup).
      destruct (removeChild parent current) as [err|parent1] eqn:Hrm; [done|].
      injection Hput as <-. eexists; split; [reflexivity|].
      apply (tidy_plug _ parent); [done| |].
      + apply tidy_addChild; [|done]. by eapply tidy_removeChild.
      + simpl. by destruct (removeChild_inr _ _ _ Hrm) as (-> & _). }
  destruct (_ && _) in Hput.
  { (* split *)
    injection Hput as <-. unfold splitNode.
    set (newParent := keyNode _).
    assert (Hnp : ∀ x y, tidy x → tidy y →
                         tidy (addChild (addChild newParent x) y)).
    { intros x y Hx Hy. apply tidy_addChild; [|done].
      apply tidy_addChild; [|done]. by apply tidy_leaf. }
    destruct ctx as [|[parent i] up];
      [eexists; split; [reflexivity|]; apply Hnp; auto|].
    destruct Hctx as (Hi & Hp & Hup).
    destruct (removeChild_linked _ _ _ Hi) as [parent1 Hrm]. rewrite Hrm.
    eexists; split; [reflexivity|].
    apply (tidy_plug _ parent); [done| |].
    + apply tidy_addChild; [by eapply tidy_removeChild|apply Hnp; auto].
    + simpl. by destruct (removeChild_inr _ _ _ Hrm) as (-> & _). }
  (* descent *)
  destruct (findCompatibleChild current _) as [[i child]|] eqn:Hfc.
  - pose proof (findCompatibleChild_spec current
                  (slice_from k (len (longestCommonPrefix (key current) k))))
      as Hs.
    rewrite Hfc in Hs. destruct Hs as [Hi _].
    apply (IH _ _ _ _ _ Hput).
    + apply (tidy_child current); [done|]. by eapply list_elem_of_lookup_2.
    + simpl. auto.
    + apply Hnew1.
  - destruct ctx as [|f up].
    + destruct (_ || _) in Hput; injection Hput as <-;
        (eexists; split; [reflexivity|]).
      * apply tidy_addChild; [done|apply Hnew1].
      * apply tidy_addChild; [|apply Hnew1]. apply tidy_addChild; [|done].
        by apply tidy_leaf.
    + injection Hput as <-. eexists; split; [reflexivity|].
      apply (tidy_plug (f :: up) current); [done| |done].
      apply tidy_addChild; [done|apply Hnew1].
Qed.

Lemma Put_tidy a k v a' :
  Put a k v = Returns (a', None) →
  (∀ r, root a = Some r → tidy r) → ∀ r', root a' = Some r' → tidy r'.
Proof.
  unfold Put. intros Hput Hinv.
  destruct (is_nil k); [done|].
  destruct (Z.of_nat (len k) >? maxKeyBytes); [done|].
  destruct (Z.of_nat (len v) >? maxValueBytes); [done|].
  pose proof (setValue_shape (blobs a) (setKey emptyNode k) v) as [Hk Hc].
  pose proof (setValue_numChildren (blobs a) (setKey emptyNode k) v) as Hn.
  destruct (setValue (blobs a) (setKey emptyNode k) v) as [bs newNode].
  simpl in Hk, Hc, Hn.
  assert (Hnew : tidy newNode) by by apply tidy_leaf.
  unfold empty in Hput. simpl in Hput.
  destruct (root a) as [r|] eqn:Hr.
  - specialize (Hinv r eq_refl).
    destruct (_ && _) in Hput.
    + injection Hput as <-. simpl. intros r' [= <-].
      apply tidy_addChild; [|done]. apply tidy_addChild; [|done].
      by apply tidy_leaf.
    + intros r' Hr'.
      destruct (put_loop_tidy _ _ _ _ _ _ _ _ Hput) as (r'' & Hr'' & Hd);
        try done. congruence.
  - destruct (numRecords a =? 0); [|done].
    injection Hput as <-. simpl. by intros r' [= <-].
Qed.

End put_tidy.

(** ** What a failed call leaves behind *)



Lemma Delete_cases (a : Arc) (k : bytes) (a' : Arc) (e : option error) :
  Delete a k = Returns (a', e) →
  a' = a ∨ (e = None ∧ deleteRootNode a = Returns a').
Proof.
  unfold Delete.
  destruct (is_nil k); [intros [= <- <-]; by left|].
  destruct (empty a); [intros [= <- <-]; by left|].
  destruct (_ >? _); [intros [= <- <-]; by left|].
  destruct (findNodeAndParent a k) as [[err|[[n ctx] parent]]| |]; try done.
  { intros [= <- <-]. by left. }
  destruct (negb (isRecord n)); [intros [= <- <-]; by left|].
  case_bool_decide.
  - destruct (deleteRootNode a) as [a1| |]; try done.
    intros [= <- <-]. by right.
  - destruct parent; intros [= <- <-]; by left.
Qed.

Lemma deleteRootNode_root (P : node → Prop) (a a' : Arc) :
  deleteRootNode a = Returns a' →
  (∀ n n', children n' = children n → numChildren n' = numChildren n →
           P n → P n') →
  (∀ n c, P n → c ∈ children n → P c) →
  (∀ r, root a = Some r → P r) → ∀ r', root a' = Some r' → P r'.
Proof.
  unfold deleteRootNode. intros Hd Hsame Hchild Hinv.
  destruct (root a) as [r|]; [|done]. specialize (Hinv r eq_refl).
  destruct (isLeaf r); [by injection Hd as <-|].
  destruct (numChildren r =? 1).
  - destruct (children r) as [|child cs] eqn:Hc; [done|].
    injection Hd as <-. simpl. intros r' [= <-].
    apply (Hsame child).
    + unfold prependKey. by case_match.
    + unfold prependKey. by case_match.
    + apply (Hchild r); [done|]. rewrite Hc. by left.
  - injection Hd as <-. simpl. intros r' [= <-]. by apply (Hsame r).
Qed.

Section live_trees.
Context {H : Blob.Hash}.

Lemma put_loop_error fuel a ctx current k newNode v a' e :
  put_loop fuel a ctx current k newNode v = Returns (a', Some e) → a' = a.
Proof.
  revert ctx current k newNode.
  induction fuel as [|fuel IH]; intros ctx current k newNode; simpl; [done|].
  repeat case_match; simplify_eq/=; try done; try (by intros [= <-]).
  apply IH.
Qed.

Lemma Put_error (a : Arc) (k v : bytes) (a' : Arc) (e : error) :
  Put a k v = Returns (a', Some e) →
  root a' = root a ∧ numNodes a' = numNodes a ∧ numRecords a' = numRecords a.
Proof.
  unfold Put. repeat case_match; simplify_eq/=; try done;
    try (by intros [= <-]).
  by intros ->%put_loop_error.
Qed.

Lemma live_invariant (a : Arc) :
  live a → ∀ r, root a = Some r → distinctHeads r ∧ tidy r.
Proof.
  induction 1 as [|a k v a' e _ IH Hput|a k a' e _ IH Hdel|a _ IH]; try done.
  - destruct e as [e|].
    + apply Put_error in Hput as (-> & _). done.
    + intros r' Hr'. split.
      * eapply Put_distinctHeads; [done| |done]. intros r Hr. by apply IH.
      * eapply Put_tidy; [done| |done]. intros r Hr. by apply IH.
  - apply Delete_cases in Hdel as [->|[_ Hd]]; [done|].
    intros r' Hr'. split.
    + eapply (deleteRootNode_root distinctHeads); try done.
      * intros n n' Hc _. by apply distinctHeads_children.
      * apply distinctHeads_child.
      * intros r Hr. by apply IH.
    + eapply (deleteRootNode_root tidy); try done.
      * apply tidy_children.
      * apply tidy_child.
      * intros r Hr. by apply IH.
Qed.

(** X9: in every tree that calls of [Put], [Delete] and [Clear] make of the
    empty tree, at every node the children are in the order of their key
    segments, no two of them share a prefix, and [numChildren] is their
    number. *)
Theorem live_children (a : Arc) (r n : node) :
  live a → root a = Some r → subnode n r →
  StronglySorted nodeLe (children n)
  ∧ siblingsDisjoint (children n)
  ∧ numChildren n = int_wrap (Z.of_nat (length (children n)))
  ∧ (Z.of_nat (length (children n)) < 2 ^ 63 →
     numChildren n = Z.of_nat (length (children n))).
Proof.
  intros Ha Hr Hn. destruct (live_invariant a Ha r Hr) as [Hd Ht].
  apply (distinctHeads_subnode n) in Hd; [|done].
  apply (tidy_subnode n) in Ht; [|done].
  apply tidy_inv in Ht as (Hs & Hc & _).
  split; [done|]. split; [by apply distinctHeads_disjoint|]. split; [done|].
  intros Hlt. rewrite Hc. apply int_wrap_id. lia.
Qed.

Lemma reachable_live (a : Arc) : reachable a → live a.
Proof.
  induction 1 as [|a k v a' _ IH Hput]; [constructor|]. by econstructor.
Qed.

End live_trees.

Lemma addChild_sorted_witness :
  StronglySorted nodeLe (children (addChild applTree (keyNode (lit "ied"))))
  ∧ children (addChild applTree (keyNode (lit "ied")))
    ≡ₚ keyNode (lit "ied") :: children applTree
  ∧ numChildren (addChild applTree (keyNode (lit "ied")))
    = int_wrap (numChildren applTree + 1).
Proof.
  apply (addChild_sorted applTree (keyNode (lit "ied"))).
  repeat constructor; by vm_compute.
Defined.


Lemma live_children_witness :
  StronglySorted nodeLe (children applTree)
  ∧ siblingsDisjoint (children applTree)
  ∧ numChildren applTree = int_wrap (Z.of_nat (length (children applTree)))
  ∧ (Z.of_nat (length (children applTree)) < 2 ^ 63 →
     numChildren applTree = Z.of_nat (length (children applTree))).
Proof.
  apply (live_children (H := sumHash) applArc applTree applTree).
  - apply reachable_live, applArc_reachable.
  - reflexivity.
  - constructor.
Defined.

(** ** What [Get] reads *)

Lemma valueAt_unfold (atRoot : bool) (n : node) (k : list byte) :
  valueAt atRoot n k =
    let m := mismatch (elems (key n)) k in
    if (m =? 0)%nat && negb atRoot then None
    else if negb (m =? len (key n))%nat then None
    else if (m =? length k)%nat then
      if isRecord n then Some (data n) else None
    else valueBelow (children n) (drop m k).
Proof.
  destruct n as [nk r b c cs d]. simpl.
  repeat case_match; try done.
  induction cs as [|x cs IH]; simpl; [done|]. by rewrite IH.
Qed.

Lemma valueBelow_findCompatibleChild (cs : list node) (k : bytes) (i0 : nat) :
  valueBelow cs (elems k) =
    match findCompatibleChild_from i0 cs k with
    | Some (_, c) => valueAt false c (elems k)
    | None => None
    end.
Proof.
  revert i0. induction cs as [|c cs IH]; intros i0; simpl; [done|].
  rewrite len_longestCommonPrefix. case_match; [done|]. apply IH.
Qed.

Lemma find_loop_valueAt fuel ctx parent current k :
  (height current ≤ fuel)%nat →
  match find_loop fuel ctx parent current k with
  | Returns (inr (n, _, _)) =>
      valueAt (bool_decide (ctx = [])) current (elems k)
      = if isRecord n then Some (data n) else None
  | Returns (inl _) =>
      valueAt (bool_decide (ctx = [])) current (elems k) = None
  | _ => False
  end.
Proof.
  revert ctx parent current k.
  induction fuel as [|fuel IH]; intros ctx parent current k Hh.
  { destruct current; simpl in Hh; lia. }
  simpl. rewrite valueAt_unfold. cbv zeta.
  rewrite len_longestCommonPrefix, is_nil_longestCommonPrefix.
  fold (len k).
  destruct ((_ =? 0)%nat && _); [done|].
  destruct (negb (_ =? len (key current))%nat); [done|].
  destruct (_ =? len k)%nat; [done|].
  rewrite <- elems_slice_from.
  rewrite (valueBelow_findCompatibleChild _ _ 0).
  fold (findCompatibleChild current
          (slice_from k (mismatch (elems (key current)) (elems k)))).
  destruct (hasChildren current) eqn:Hc; simpl.
  2:{ unfold findCompatibleChild, hasChildren in *.
      by destruct (children current). }
  destruct (findCompatibleChild current _) as [[i child]|] eqn:Hf; [|done].
  specialize (IH ((current, i) :: ctx) (Some current) child
                (slice_from k (mismatch (elems (key current)) (elems k)))).
  apply IH.
  apply findCompatibleChild_elem_of, height_child in Hf. lia.
Qed.

Lemma Get_valueAt (a : Arc) (k : bytes) (r : node) :
  root a = Some r → k ≠ None →
  Get a k = match valueAt true r (elems k) with
            | Some d => Returns (d, None)
            | None => Returns (None, Some ErrKeyNotFound)
            end.
Proof.
  intros Hr Hk. destruct k as [l|]; [|done].
  unfold Get, findNodeAndParent, empty. rewrite Hr. simpl.
  pose proof (find_loop_valueAt (height r) [] None r (Some l)) as Hf.
  simpl in Hf.
  destruct (find_loop (height r) [] None r (Some l))
    as [[e|[[n ctx] p]]| |] eqn:He; try (by destruct Hf).
  - rewrite Hf by done. by apply find_loop_error in He as ->.
  - rewrite Hf by done. by destruct (isRecord n).
Qed.

(** ** What [Put] leaves of the other keys *)

Lemma mismatch_app (p a b : list byte) :
  mismatch (p ++ a) (p ++ b) = (length p + mismatch a b)%nat.
Proof.
  induction p as [|x p IH]; simpl; [done|].
  by rewrite bool_decide_eq_true_2, IH.
Qed.

Lemma mismatch_app_lt (a s k : list byte) :
  (mismatch a k < length a)%nat → mismatch (a ++ s) k = mismatch a k.
Proof.
  revert k. induction a as [|x a IH]; intros [|y k]; simpl; try lia.
  case_bool_decide; [|done]. intros Hlt. rewrite IH; [done|lia].
Qed.

Lemma mismatch_prefix (a k : list byte) :
  mismatch a k = length a → k = a ++ drop (length a) k.
Proof.
  intros Hm. pose proof (mismatch_take a k) as Ht. rewrite Hm in Ht.
  rewrite firstn_all in Ht. rewrite <- (take_drop (length a) k) at 1.
  by rewrite <- Ht.
Qed.

Lemma mismatch_nil_r (a : list byte) : mismatch a [] = 0%nat.
Proof. by destruct a. Qed.

Lemma mismatch_head (a r1 r2 : list byte) :
  head r1 = head r2 →
  (0 <? mismatch a r1)%nat = (0 <? mismatch a r2)%nat.
Proof.
  intros Hh. destruct a as [|x a], r1 as [|y1 r1], r2 as [|y2 r2];
    simpl in *; simplify_eq; try done.
  by case_bool_decide.
Qed.

Lemma mismatch_firstByte (x y : node) (k : list byte) :
  firstByte x = firstByte y →
  (0 <? mismatch (elems (key x)) k)%nat = (0 <? mismatch (elems (key y)) k)%nat.
Proof.
  unfold firstByte. intros Hh.
  destruct (elems (key x)) as [|a l], (elems (key y)) as [|b l'], k as [|c k];
    simpl in *; simplify_eq; try done.
  repeat case_bool_decide; done.
Qed.

Lemma valueBelow_pick (cs : list node) (c : node) (k : list byte) :
  NoDup (omap firstByte cs) → c ∈ cs →
  (0 < mismatch (elems (key c)) k)%nat →
  valueBelow cs k = valueAt false c k.
Proof.
  intros Hnd Hc Hm. induction cs as [|c0 cs IH]; [by apply elem_of_nil in Hc|].
  simpl. destruct (Nat.ltb_spec 0 (mismatch (elems (key c0)) k)) as [H0|H0].
  - apply elem_of_cons in Hc as [->|Hc]; [done|]. exfalso.
    apply mismatch_pos in Hm as [[b Hb] Hbk], H0 as [_ H0k].
    simpl in Hnd. unfold firstByte at 1 in Hnd. rewrite H0k, <- Hbk, Hb in Hnd.
    apply NoDup_cons in Hnd as [Hnot _]. apply Hnot.
    apply list_elem_of_omap. by exists c.
  - apply elem_of_cons in Hc as [->|Hc]; [lia|]. apply IH; [|done].
    simpl in Hnd. destruct (firstByte c0); [|done].
    by apply NoDup_cons in Hnd as [_ ?].
Qed.

Lemma valueBelow_none (cs : list node) (k : list byte) :
  (∀ c, c ∈ cs → mismatch (elems (key c)) k = 0%nat) → valueBelow cs k = None.
Proof.
  induction cs as [|c cs IH]; intros Hall; simpl; [done|].
  rewrite (Hall c) by by left. simpl. apply IH. intros d Hd. apply Hall.
  by right.
Qed.

Lemma valueBelow_perm (cs cs' : list node) (k : list byte) :
  NoDup (omap firstByte cs) → cs ≡ₚ cs' → valueBelow cs k = valueBelow cs' k.
Proof.
  intros Hnd Hp.
  destruct (decide (Exists (λ c, (0 < mismatch (elems (key c)) k)%nat) cs))
    as [Hex|Hno].
  - apply Exists_exists in Hex as (c & Hc & Hm).
    rewrite (valueBelow_pick cs c), (valueBelow_pick cs' c); try done.
    + by rewrite <- Hp.
    + by rewrite <- Hp.
  - apply not_Exists_Forall in Hno; [|apply _].
    rewrite Forall_forall in Hno.
    rewrite !valueBelow_none; try done.
    + intros c Hc. rewrite <- Hp in Hc. specialize (Hno c Hc). simpl in Hno. lia.
    + intros c Hc. specialize (Hno c Hc). simpl in Hno. lia.
Qed.

Lemma valueBelow_head (x c : node) (cs : list node) (kh : list byte) :
  firstByte x = firstByte c →
  (∀ k, k ≠ kh → valueAt false x k = valueAt false c k) →
  ∀ k, k ≠ kh → valueBelow (x :: cs) k = valueBelow (c :: cs) k.
Proof.
  intros Hb Hv k Hk. simpl. rewrite (mismatch_firstByte x c) by done.
  by rewrite Hv.
Qed.

Lemma valueAt_off (b : bool) (n : node) (k : list byte) :
  mismatch (elems (key n)) k ≠ len (key n) → valueAt b n k = None.
Proof.
  intros Hm. rewrite valueAt_unfold. cbv zeta.
  destruct (_ && _); [done|].
  by apply Nat.eqb_neq in Hm as ->.
Qed.

Lemma valueAt_leaf (b : bool) (n : node) (k : list byte) :
  children n = [] → k ≠ elems (key n) → valueAt b n k = None.
Proof.
  intros Hc Hk. rewrite valueAt_unfold. cbv zeta. rewrite Hc.
  destruct (_ && _); [done|].
  destruct (Nat.eqb_spec (mismatch (elems (key n)) k) (len (key n))) as [Hm|];
    [|done].
  cbn [negb]. destruct (Nat.eqb_spec (mismatch (elems (key n)) k) (length k))
    as [Hl|]; [|done].
  destruct Hk. apply mismatch_prefix in Hm. rewrite Hm. unfold len in *.
  rewrite drop_ge; [by rewrite app_nil_r|]. rewrite <- Hl.
  pose proof (mismatch_le_l (elems (key n)) k). lia.
Qed.

Lemma valueAt_ext (b : bool) (x c : node) (kh : list byte) :
  elems (key x) = elems (key c) →
  kh = [] ∨ (isRecord x = isRecord c ∧ data x = data c) →
  (∀ rest, rest ≠ kh →
           valueBelow (children x) rest = valueBelow (children c) rest) →
  ∀ k, k ≠ elems (key c) ++ kh → valueAt b x k = valueAt b c k.
Proof.
  intros Hk Hrec Hbelow k Hne. rewrite !valueAt_unfold. cbv zeta.
  unfold len. rewrite Hk.
  destruct (_ && _); [done|].
  destruct (Nat.eqb_spec (mismatch (elems (key c)) k) (length (elems (key c))))
    as [Hm|]; [|done].
  cbn [negb]. apply mismatch_prefix in Hm as Hpre.
  destruct (Nat.eqb_spec (mismatch (elems (key c)) k) (length k)) as [Hl|Hl].
  - destruct Hrec as [->|[-> ->]]; [|done]. destruct Hne.
    rewrite Hpre at 1. f_equal. rewrite drop_ge; [done|lia].
  - apply Hbelow. rewrite Hm. intros Hd. destruct Hne.
    rewrite Hpre at 1. by rewrite Hd.
Qed.

Lemma valueAt_strip (b : bool) (c c1 : node) (p s rest : list byte) :
  elems (key c) = p ++ s → s ≠ [] → elems (key c1) = s →
  isRecord c1 = isRecord c → data c1 = data c → children c1 = children c →
  valueAt b c (p ++ rest) = valueBelow [c1] rest.
Proof.
  intros Hk Hs Hk1 Hr Hd Hc. simpl. rewrite !valueAt_unfold. cbv zeta.
  unfold len. rewrite Hk, Hk1, Hr, Hd, Hc, mismatch_app, !length_app.
  assert (0 < length s)%nat by (destruct s; [done|simpl; lia]).
  destruct (Nat.ltb_spec 0 (mismatch s rest)) as [Hpos|Hz].
  - replace ((length p + mismatch s rest =? 0)%nat) with false
      by (symmetry; apply Nat.eqb_neq; lia).
    replace ((mismatch s rest =? 0)%nat) with false
      by (symmetry; apply Nat.eqb_neq; lia).
    simpl.
    replace (length p + mismatch s rest =? length p + length s)%nat
      with (mismatch s rest =? length s)%nat
      by (apply eq_iff_eq_true; rewrite !Nat.eqb_eq; lia).
    replace (length p + mismatch s rest =? length p + length rest)%nat
      with (mismatch s rest =? length rest)%nat
      by (apply eq_iff_eq_true; rewrite !Nat.eqb_eq; lia).
    by rewrite drop_app_add.
  - destruct (_ && _); [done|].
    replace (length p + mismatch s rest =? length p + length s)%nat
      with false by (symmetry; apply Nat.eqb_neq; lia).
    done.
Qed.

Lemma valueAt_single (b : bool) (c : node) (k : list byte) :
  (0 < len (key c))%nat → valueAt b c k = valueBelow [c] k.
Proof.
  intros Hl. apply (valueAt_strip b c c [] (elems (key c)) k); try done.
  unfold len in Hl. intros He. rewrite He in Hl. simpl in Hl. lia.
Qed.

Lemma setChild_id (p : node) (i : nat) (c : node) :
  children p !! i = Some c → setChild p i c = p.
Proof.
  intros Hi. destruct p as [k r b m cs d]. unfold setChild. simpl in *.
  f_equal. by apply list_insert_id.
Qed.

Lemma insert_Permutation_delete {A} (l : list A) (i : nat) (x y : A) :
  l !! i = Some x → <[i := y]> l ≡ₚ y :: delete i l.
Proof.
  intros Hi. rewrite insert_take_drop by by eapply lookup_lt_Some.
  rewrite delete_take_drop. by rewrite <- Permutation_middle.
Qed.

Lemma same_head_eq (cs : list node) (c d : node) :
  NoDup (omap firstByte cs) → c ∈ cs → d ∈ cs →
  firstByte c = firstByte d → is_Some (firstByte c) → c = d.
Proof.
  intros Hnd [i Hi]%list_elem_of_lookup_1 [j Hj]%list_elem_of_lookup_1 Hb [b Hc].
  assert (i = j) as ->.
  { apply (omap_lookup_inj firstByte cs i j c d b); try done. by rewrite <- Hb. }
  congruence.
Qed.

Lemma valueBelow_setChild (p : node) (i : nat) (cur x : node) (kh : list byte) :
  distinctHeads p → children p !! i = Some cur →
  firstByte x = firstByte cur →
  (∀ k, k ≠ kh → valueAt false x k = valueAt false cur k) →
  ∀ k, k ≠ kh →
       valueBelow (<[i := x]> (children p)) k = valueBelow (children p) k.
Proof.
  intros [Hnd _]%distinctHeads_inv Hi Hb Hv k Hk.
  rewrite (valueBelow_perm (<[i := x]> (children p)) (x :: delete i (children p))).
  - rewrite (valueBelow_perm (children p) (cur :: delete i (children p)));
      [|done|by apply delete_Permutation].
    by apply (valueBelow_head x cur _ kh).
  - by rewrite (omap_insert_same firstByte _ i cur x).
  - by apply (insert_Permutation_delete _ _ cur).
Qed.

Lemma valueAt_plug ctx cur x k K :
  leads ctx cur k K → firstByte x = firstByte cur →
  elems (key x) = elems (key cur) →
  (∀ k', k' ≠ elems k →
         valueAt (bool_decide (ctx = [])) x k'
         = valueAt (bool_decide (ctx = [])) cur k') →
  ∀ k', k' ≠ elems K →
        valueAt true (plug ctx x) k' = valueAt true (plug ctx cur) k'.
Proof.
  revert cur x k. induction ctx as [|[p i] up IH]; intros cur x k; simpl.
  - by intros ->.
  - intros (Hi & Hp & Hs & kp & Hup & Hm & Hlen & Hroot & ->) Hb Hkx Hv k' Hk'.
    change (valueAt true (plug up (setChild p i x)) k'
            = valueAt true (plug up (setChild p i cur)) k').
    rewrite (setChild_id p i cur) by done.
    apply (IH p (setChild p i x) kp); try done.
    intros k2 Hk2.
    apply (valueAt_ext _ _ _ (elems (slice_from kp (len (key p))))); try done.
    + by right.
    + by apply (valueBelow_setChild p i cur).
    + rewrite elems_slice_from. unfold len. by rewrite <- mismatch_prefix.
Qed.

Lemma valueBelow_relink (p p1 cur r : node) (kh : list byte) :
  distinctHeads p → cur ∈ children p → is_Some (firstByte cur) →
  removeChild p cur = inr p1 → firstByte r = firstByte cur →
  (∀ k, k ≠ kh → valueAt false r k = valueAt false cur k) →
  ∀ k, k ≠ kh →
       valueBelow (children (addChild p1 r)) k = valueBelow (children p) k.
Proof.
  intros [Hnd _]%distinctHeads_inv Hc Hsome Hrm Hb Hv k Hk.
  destruct (removeChild_inr_split _ _ _ Hrm) as (l1 & d & l2 & Hcs & Hd & _ & ->).
  assert (d = cur) as ->.
  { apply (same_head_eq (children p)); try done.
    - rewrite Hcs. apply elem_of_app. right. by left.
    - unfold firstByte. by rewrite Hd.
    - unfold firstByte. by rewrite Hd. }
  assert (Hperm : children p ≡ₚ cur :: l1 ++ l2)
    by (by rewrite Hcs, Permutation_middle).
  rewrite Hperm in Hnd.
  rewrite (valueBelow_perm (children (addChild _ r)) (r :: l1 ++ l2)).
  - rewrite (valueBelow_perm (children p) (cur :: l1 ++ l2)); [|by rewrite Hperm|done].
    by apply (valueBelow_head r cur _ kh).
  - rewrite children_addChild. simpl in *. by rewrite Hb.
  - by rewrite children_addChild.
Qed.

Lemma valueAt_relink (p p1 cur r : node) (i : nat) (up : list frame)
    (kp K : bytes) :
  leads up p kp K → distinctHeads p → children p !! i = Some cur →
  sharePrefix (key cur) (slice_from kp (len (key p))) = true →
  mismatch (elems (key p)) (elems kp) = len (key p) →
  removeChild p cur = inr p1 → firstByte r = firstByte cur →
  (∀ k, k ≠ elems (slice_from kp (len (key p))) →
        valueAt false r k = valueAt false cur k) →
  ∀ k', k' ≠ elems K →
        valueAt true (plug up (addChild p1 r)) k' = valueAt true (plug up p) k'.
Proof.
  intros Hup Hp Hi Hs Hm Hrm Hb Hv.
  destruct (removeChild_inr_split _ _ _ Hrm) as (l1 & d & l2 & _ & _ & _ & Hp1).
  assert (Hk1 : key p1 = key p) by by subst p1.
  apply (valueAt_plug up p (addChild p1 r) kp K); try done.
  - unfold firstByte. simpl. by rewrite Hk1.
  - simpl. by rewrite Hk1.
  - intros k2 Hk2.
    apply (valueAt_ext _ _ _ (elems (slice_from kp (len (key p))))).
    + simpl. by rewrite Hk1.
    + right. by subst p1.
    + apply (valueBelow_relink p p1 cur r); try done.
      * by eapply list_elem_of_lookup_2.
      * apply sharePrefix_heads in Hs as [? _]. done.
    + rewrite elems_slice_from. unfold len. by rewrite <- mismatch_prefix.
Qed.

Lemma mismatch_comm (a b : list byte) : mismatch a b = mismatch b a.
Proof.
  revert b. induction a as [|x a IH]; intros [|y b]; simpl; try done.
  rewrite IH. repeat case_bool_decide; congruence.
Qed.

Lemma mismatch_app_r (p r : list byte) : mismatch p (p ++ r) = length p.
Proof.
  induction p as [|x p IH]; simpl; [by destruct r|].
  by rewrite bool_decide_eq_true_2, IH.
Qed.

(** The node [newNode] takes the place of [cur], which becomes its only
    child. *)
Lemma valueAt_under (b : bool) (cur newNode : node) :
  children newNode = [] →
  mismatch (elems (key cur)) (elems (key newNode)) = len (key newNode) →
  (len (key newNode) < len (key cur))%nat →
  b = true ∨ (0 < len (key newNode))%nat →
  ∀ k, k ≠ elems (key newNode) →
       valueAt b (addChild newNode
                    (setKey cur (slice_from (key cur) (len (key newNode))))) k
       = valueAt b cur k.
Proof.
  intros Hleaf Hm Hlt Hb k Hk.
  set (cur1 := setKey cur _). set (kk := elems (key newNode)) in *.
  assert (Hcur : elems (key cur) = kk ++ elems (key cur1)).
  { simpl. rewrite elems_slice_from. apply mismatch_prefix.
    by rewrite mismatch_comm. }
  assert (Hs : elems (key cur1) ≠ []).
  { intros He. apply (f_equal length) in Hcur.
    rewrite He, app_nil_r in Hcur. unfold len in Hlt. fold kk in Hlt. lia. }
  destruct (decide (mismatch kk k = length kk)) as [He|Hne].
  - apply mismatch_prefix in He. set (rest := drop (length kk) k) in *.
    rewrite He.
    rewrite (valueAt_strip b cur cur1 kk (elems (key cur1)) rest); try done.
    rewrite valueAt_unfold. cbv zeta.
    change (key (addChild newNode cur1)) with (key newNode). fold kk.
    rewrite mismatch_app_r. unfold len. fold kk.
    assert (rest ≠ []) by (intros Hr; rewrite Hr, app_nil_r in He; done).
    replace ((length kk =? 0)%nat && negb b) with false.
    2:{ symmetry. apply andb_false_iff. destruct Hb as [->|Hb]; [by right|left].
        apply Nat.eqb_neq. unfold len in Hb. fold kk in Hb. lia. }
    rewrite Nat.eqb_refl. cbn [negb].
    replace (length kk =? length (kk ++ rest))%nat with false.
    2:{ symmetry. apply Nat.eqb_neq. rewrite length_app.
        destruct rest; [done|simpl; lia]. }
    rewrite drop_app_length. unfold addChild. by rewrite Hleaf.
  - rewrite !valueAt_off; try done.
    rewrite Hcur. rewrite mismatch_app_lt.
    + unfold len. rewrite Hcur, length_app.
      pose proof (mismatch_le_l kk k). lia.
    + pose proof (mismatch_le_l kk k). lia.
Qed.

(** A leaf is linked below [cur]. *)
Lemma valueAt_grow (b : bool) (cur leaf : node) :
  children leaf = [] →
  (∀ c, c ∈ children cur → sharePrefix (key c) (key leaf) = false) →
  distinctHeads (addChild cur leaf) →
  ∀ k, k ≠ elems (key cur) ++ elems (key leaf) →
       valueAt b (addChild cur leaf) k = valueAt b cur k.
Proof.
  intros Hleaf Hno [Hnd _]%distinctHeads_inv.
  apply valueAt_ext; [done|by right|].
  intros rest Hrest.
  rewrite (valueBelow_perm _ (leaf :: children cur));
    [|done|apply children_addChild].
  simpl. destruct (Nat.ltb_spec 0 (mismatch (elems (key leaf)) rest)) as [Hpos|];
    [|done].
  rewrite valueAt_leaf by done. symmetry. apply valueBelow_none.
  intros c Hc. specialize (Hno c Hc).
  apply not_true_iff_false in Hno. rewrite sharePrefix_mismatch in Hno.
  apply mismatch_pos in Hpos as [_ Hh].
  pose proof (mismatch_head (elems (key c)) _ _ Hh) as Heq.
  destruct (Nat.ltb_spec 0 (mismatch (elems (key c)) (elems (key leaf))));
    [lia|].
  symmetry in Heq. apply Nat.ltb_ge in Heq. lia.
Qed.

(** [cur] under a new root with a nil key. *)
Lemma valueAt_nilroot (cur : node) (k : list byte) :
  (0 < len (key cur))%nat →
  valueAt true (addChild (keyNode None) cur) k = valueAt true cur k.
Proof.
  intros Hl. rewrite (valueAt_single true cur) by done.
  rewrite valueAt_unfold. cbv zeta. simpl.
  destruct k as [|x k]; simpl; [|done].
  by rewrite mismatch_nil_r.
Qed.

(** [splitNode]: [cur] and the leaf [newNode] under a node that holds their
    common prefix. *)
Lemma valueAt_split (b : bool) (cur newNode : node) :
  let m := mismatch (elems (key cur)) (elems (key newNode)) in
  let prefix := longestCommonPrefix (key cur) (key newNode) in
  let x := addChild
             (addChild (keyNode prefix) (setKey cur (slice_from (key cur) m)))
             (setKey newNode (slice_from (key newNode) m)) in
  children newNode = [] → (0 < m)%nat →
  (m < len (key cur))%nat → (m < len (key newNode))%nat →
  distinctHeads x →
  ∀ k, k ≠ elems (key newNode) → valueAt b x k = valueAt b cur k.
Proof.
  intros m prefix x Hleaf Hpos Hmc Hmn Hx k Hk.
  set (cur1 := setKey cur (slice_from (key cur) m)) in *.
  set (newNode1 := setKey newNode (slice_from (key newNode) m)) in *.
  set (p := take m (elems (key cur))).
  assert (Hlp : length p = m).
  { unfold p. rewrite length_take. unfold len in Hmc. lia. }
  assert (Hcur : elems (key cur) = p ++ elems (key cur1)).
  { simpl. rewrite elems_slice_from. unfold p. by rewrite take_drop. }
  assert (Hnew : elems (key newNode) = p ++ elems (key newNode1)).
  { simpl. rewrite elems_slice_from. unfold p, m. rewrite mismatch_take.
    by rewrite take_drop. }
  assert (Hs : elems (key cur1) ≠ []).
  { intros He. apply (f_equal length) in Hcur.
    rewrite He, app_nil_r in Hcur. unfold len in Hmc. lia. }
  assert (Hkx : elems (key x) = p).
  { simpl. unfold prefix. by rewrite elems_longestCommonPrefix. }
  assert (Hgrow : ∀ k2, k2 ≠ p ++ elems (key newNode1) →
            valueAt b x k2 = valueAt b (addChild (keyNode prefix) cur1) k2).
  { intros k2 Hk2. apply valueAt_grow; try done.
    - intros c Hc. rewrite children_addChild in Hc. simpl in Hc.
      apply list_elem_of_singleton in Hc as ->. by apply split_heads.
    - change (key (addChild (keyNode prefix) cur1)) with (key x).
      by rewrite Hkx. }
  rewrite Hgrow by by rewrite <- Hnew.
  destruct (decide (mismatch p k = length p)) as [He|Hne].
  - apply mismatch_prefix in He. set (rest := drop (length p) k) in *.
    rewrite He.
    rewrite (valueAt_strip b cur cur1 p (elems (key cur1)) rest); try done.
    rewrite valueAt_unfold. cbv zeta.
    change (key (addChild (keyNode prefix) cur1)) with (key x).
    rewrite Hkx, mismatch_app_r. unfold len. rewrite Hkx.
    replace ((length p =? 0)%nat && negb b) with false.
    2:{ symmetry. apply andb_false_iff. left. apply Nat.eqb_neq. lia. }
    rewrite Nat.eqb_refl. cbn [negb]. rewrite drop_app_length.
    destruct (Nat.eqb_spec (length p) (length (p ++ rest))) as [Hl|Hl]; [|done].
    assert (rest = []) as ->.
    { rewrite length_app in Hl. destruct rest; [done|simpl in Hl; lia]. }
    simpl. by rewrite mismatch_nil_r.
  - rewrite !valueAt_off; try done.
    + rewrite Hcur. rewrite mismatch_app_lt.
      * unfold len. rewrite Hcur, length_app.
        pose proof (mismatch_le_l p k). lia.
      * pose proof (mismatch_le_l p k). lia.
    + change (key (addChild (keyNode prefix) cur1)) with (key x).
      unfold len. by rewrite Hkx.
Qed.

Lemma mismatch_eq (a b : list byte) :
  mismatch a b = length a → mismatch a b = length b → a = b.
Proof.
  intros Ha Hb. apply mismatch_prefix in Ha as Hp. rewrite Hp.
  rewrite drop_ge by lia. by rewrite app_nil_r.
Qed.

Section put_frame.
Context {H : Blob.Hash}.

Lemma put_loop_frame fuel a ctx current k newNode v K a' :
  (height current ≤ fuel)%nat →
  distinctHeads current → leads ctx current k K →
  key newNode = k → children newNode = [] →
  (ctx = [] → (0 < len (key current))%nat → sharePrefix (key current) k = true) →
  put_loop fuel a ctx current k newNode v = Returns (a', None) →
  ∃ r', root a' = Some r'
        ∧ ∀ k', k' ≠ elems K →
                valueAt true r' k' = valueAt true (plug ctx current) k'.
Proof.
  revert ctx current k newNode.
  induction fuel as [|fuel IH]; intros ctx current k newNode Hfuel Hcur Hleads
    Hkey Hleaf Hpre.
  { destruct current; simpl in Hfuel; lia. }
  simpl. rewrite len_longestCommonPrefix. subst k.
  pose proof (mismatch_le_l (elems (key current)) (elems (key newNode))) as Hml.
  pose proof (mismatch_le_r (elems (key current)) (elems (key newNode))) as Hmr.
  fold (len (key current)) in Hml. fold (len (key newNode)) in Hmr.
  pose proof (leads_ctx_ok _ _ _ _ Hleads) as Hctx.
  assert (Hshare : ctx ≠ [] ∨ (0 < len (key current))%nat →
                   (0 < mismatch (elems (key current)) (elems (key newNode)))%nat).
  { intros Hor. apply sharePrefix_mismatch.
    destruct ctx as [|[p i] up]; [destruct Hor; [done|by apply Hpre]|].
    by destruct Hleads as (_ & _ & Hs & _). }
  assert (Hroot : bool_decide (ctx = []) = true
                  ∨ (0 < mismatch (elems (key current)) (elems (key newNode)))%nat).
  { destruct ctx; [by left|right]. apply Hshare. by left. }
  set (m := mismatch (elems (key current)) (elems (key newNode))) in *.
  destruct ((m =? len (key current))%nat && (m =? len (key newNode))%nat) eqn:C1.
  { (* exact match *)
    unbool.
    pose proof (setValue_shape (blobs a) current v) as [Hk Hc].
    destruct (setValue (blobs a) current v) as [bs current1]. simpl in *.
    intros [= <-]. eexists. split; [reflexivity|].
    apply (valueAt_plug ctx current current1 (key newNode)); try done.
    - unfold firstByte. by rewrite Hk.
    - by rewrite Hk.
    - intros k' Hk'.
      apply (valueAt_ext _ _ _ []); [by rewrite Hk|by left|by rewrite Hc|].
      rewrite app_nil_r. intros ->. apply Hk'.
      apply mismatch_eq; fold m; unfold len in *; lia. }
  destruct ((m =? len (key newNode))%nat && (m <? len (key current))%nat) eqn:C2.
  { (* newNode becomes the parent of current *)
    unbool.
    set (current1 := setKey current _) in *.
    set (newNode1 := addChild newNode current1).
    assert (Hv : ∀ k', k' ≠ elems (key newNode) →
                 valueAt (bool_decide (ctx = [])) newNode1 k'
                 = valueAt (bool_decide (ctx = [])) current k').
    { apply valueAt_under; try done; try lia.
      all: destruct Hroot as [->|?]; [by left|right; lia]. }
    destruct ctx as [|[parent i] up].
    - simpl in Hleads. subst K. intros [= <-]. eexists. split; [reflexivity|].
      apply Hv.
    - destruct Hleads as (Hi & Hp & Hs & kp & Hup & Hm & Hlen & Hr & Hk).
      destruct (removeChild_linked _ _ _ Hi) as [parent1 Hrm]. rewrite Hrm.
      intros [= <-]. eexists. split; [reflexivity|].
      assert (0 < m)%nat by (apply Hshare; by left).
      rewrite Hk in *. intros k' Hk'.
      change (plug ((parent, i) :: up) current)
        with (plug up (setChild parent i current)).
      rewrite (setChild_id parent i current) by done.
      apply (valueAt_relink parent parent1 current newNode1 i up kp K);
        try done.
      by apply firstByte_shared. }
  destruct ((0 <? m)%nat && (m <? len (key current))%nat) eqn:C3.
  { (* split *)
    unbool.
    assert (Hmn : (m < len (key newNode))%nat) by lia.
    unfold splitNode. rewrite len_longestCommonPrefix. fold m.
    set (current1 := setKey current _).
    set (newNode1 := setKey newNode _).
    set (newParent := keyNode _).
    set (X := addChild (addChild newParent current1) newNode1).
    assert (Hnp : distinctHeads X).
    { apply distinctHeads_pair; try done.
      - by apply (distinctHeads_children current).
      - by apply distinctHeads_leaf.
      - by apply split_heads. }
    assert (Hfb : firstByte X = firstByte current).
    { unfold firstByte. simpl. rewrite elems_longestCommonPrefix. fold m.
      by apply head_take_pos. }
    assert (Hv : ∀ b k', k' ≠ elems (key newNode) →
                 valueAt b X k' = valueAt b current k').
    { intros b. by apply (valueAt_split b current newNode). }
    destruct ctx as [|[parent i] up].
    - simpl in Hleads. subst K. intros [= <-]. eexists. split; [reflexivity|].
      apply Hv.
    - destruct Hleads as (Hi & Hp & Hs & kp & Hup & Hm & Hlen & Hr & Hk).
      destruct (removeChild_linked _ _ _ Hi) as [parent1 Hrm]. rewrite Hrm.
      intros [= <-]. eexists. split; [reflexivity|].
      rewrite Hk in *. intros k' Hk'.
      change (plug ((parent, i) :: up) current)
        with (plug up (setChild parent i current)).
      rewrite (setChild_id parent i current) by done.
      apply (valueAt_relink parent parent1 current X i up kp K); try done.
      apply Hv. }
  (* descent *)
  unbool.
  assert (Hm : m = len (key current) ∧ (m < len (key newNode))%nat).
  { destruct (decide (m = len (key current))) as [Hm|Hm]; [lia|].
    assert (0 < m)%nat; [apply Hshare; right|]; lia. }
  destruct Hm as [Hm Hmn].
  set (k1 := slice_from (key newNode) m) in *.
  set (newNode1 := setKey newNode k1) in *.
  assert (Hk1 : (0 < len k1)%nat).
  { unfold k1. rewrite len_slice_from. lia. }
  pose proof (findCompatibleChild_spec current k1) as Hfind.
  destruct (findCompatibleChild current k1) as [[i child]|] eqn:Hfc.
  - destruct Hfind as [Hi Hs]. intros Hput.
    destruct (IH ((current, i) :: ctx) child k1 newNode1) as (r' & Hr' & Hv);
      try done.
    + apply list_elem_of_lookup_2 in Hi. apply height_child in Hi. lia.
    + eapply distinctHeads_child; [done|]. by eapply list_elem_of_lookup_2.
    + simpl. split; [done|]. split; [done|]. split; [done|].
      exists (key newNode). split; [done|]. split; [by fold m|].
      split; [lia|]. split; [|by rewrite <- Hm].
      destruct ctx; [by left|right]. rewrite <- Hm. apply Hshare. by left.
    + exists r'. split; [done|]. intros k' Hk'. rewrite Hv by done.
      change (plug ((current, i) :: ctx) child)
        with (plug ctx (setChild current i child)).
      by rewrite (setChild_id current i child).
  - set (X := addChild current newNode1).
    assert (Hadd : distinctHeads X).
    { apply distinctHeads_addChild; [done|by apply distinctHeads_leaf|done]. }
    assert (Hv : ∀ b k', k' ≠ elems (key newNode) →
                 valueAt b X k' = valueAt b current k').
    { intros b k' Hk'. apply valueAt_grow; try done.
      change (elems (key newNode1)) with (elems k1). unfold k1.
      rewrite elems_slice_from, Hm. unfold len.
      rewrite <- mismatch_prefix; [done|]. fold m. by rewrite Hm. }
    destruct ctx as [|f up].
    + simpl in Hleads. subst K.
      replace (is_nil (key current) || (m =? len (key current))%nat) with true
        by (symmetry; apply orb_true_iff; right; by apply Nat.eqb_eq).
      intros [= <-]. eexists. split; [reflexivity|]. apply Hv.
    + intros [= <-]. eexists. split; [reflexivity|].
      apply (valueAt_plug (f :: up) current X (key newNode)); try done.
      intros k' Hk'. by apply Hv.
Qed.

End put_frame.

Section put_live.
Context {H : Blob.Hash}.

Lemma Put_others (a : Arc) (k v : bytes) (a' : Arc) (k' : bytes) :
  live a → Put a k v = Returns (a', None) →
  k' ≠ None → elems k' ≠ elems k →
  Get a' k' = Get a k'.
Proof.
  intros Ha Hput Hk' Hne.
  pose proof (live_invariant a Ha) as Hinv.
  unfold Put in Hput. destruct k as [l|]; [|done]. simpl is_nil in Hput.
  cbv iota in Hput.
  destruct (Z.of_nat (len (Some l)) >? maxKeyBytes); [done|].
  destruct (Z.of_nat (len v) >? maxValueBytes); [done|].
  pose proof (setValue_shape (blobs a) (setKey emptyNode (Some l)) v) as [Hsk Hsc].
  destruct (setValue (blobs a) (setKey emptyNode (Some l)) v) as [bs newNode].
  simpl in Hsk, Hsc. unfold empty in Hput. simpl root in Hput.
  simpl numRecords in Hput.
  destruct (root a) as [r|] eqn:Hr.
  - destruct (Hinv r eq_refl) as [Hd _].
    rewrite (Get_valueAt a k' r) by done.
    destruct ((0 <? len (key r))%nat
              && is_nil (longestCommonPrefix (key r) (Some l))) eqn:C.
    + unbool. rewrite is_nil_longestCommonPrefix in *. unbool.
      injection Hput as <-.
      set (X := addChild (addChild (keyNode None) r) newNode).
      assert (Hs : sharePrefix (key r) (key newNode) = false).
      { apply not_true_iff_false. rewrite sharePrefix_mismatch, Hsk. lia. }
      assert (HdX : distinctHeads X).
      { apply distinctHeads_pair; try done. by apply distinctHeads_leaf. }
      rewrite (Get_valueAt _ k' X) by done.
      rewrite <- (valueAt_nilroot r) by done.
      unfold X. rewrite valueAt_grow; try done.
      * intros c Hc. rewrite children_addChild in Hc. simpl in Hc.
        by apply list_elem_of_singleton in Hc as ->.
      * simpl. by rewrite Hsk.
    + assert (Hpre : (0 < len (key r))%nat → sharePrefix (key r) (Some l) = true).
      { intros Hlen. apply sharePrefix_mismatch.
        unbool. rewrite is_nil_longestCommonPrefix in C. unbool. lia. }
      destruct (put_loop_frame _ _ [] r (Some l) newNode v (Some l) a'
                  (le_n _) Hd eq_refl Hsk Hsc (λ _, Hpre) Hput)
        as (r' & Hr' & Hv).
      rewrite (Get_valueAt a' k' r') by done. by rewrite Hv.
  - destruct (numRecords a =? 0) eqn:Hn; [|done]. injection Hput as <-.
    rewrite (Get_valueAt _ k' newNode) by done.
    rewrite valueAt_leaf; [|done|by rewrite Hsk].
    destruct k' as [l'|]; [|done].
    unfold Get, findNodeAndParent, empty. simpl. by rewrite Hr, Hn.
Qed.

End put_live.

(** ** [Put] as an insertion *)

Section put_insert.
Context {H : Blob.Hash}.

Lemma live_root (a : Arc) : live a → root a = None → numRecords a = 0.
Proof.
  induction 1 as [|a k v a' e _ IH Hput|a k a' e _ IH Hdel|a _ IH]; try done.
  - destruct e as [e|].
    + apply Put_error in Hput as (-> & _ & ->). done.
    + intros Hr. by apply Put_root in Hput.
  - apply Delete_cases in Hdel as [->|[_ Hd]]; [done|].
    unfold deleteRootNode in Hd. destruct (root a) as [r|]; [|done].
    destruct (isLeaf r); [by injection Hd as <-|].
    destruct (numChildren r =? 1).
    + destruct (children r); [done|]. by injection Hd as <-.
    + by injection Hd as <-.
Qed.

Lemma Put_finds (a : Arc) (k v : bytes) :
  (∀ r, root a = Some r → distinctHeads r) →
  (root a = None → numRecords a = 0) →
  k ≠ None → Z.of_nat (len k) ≤ maxKeyBytes →
  Z.of_nat (len v) ≤ maxValueBytes →
  ∃ a', Put a k v = Returns (a', None)
        ∧ ((0 < len k)%nat →
           ∃ r' n, root a' = Some r' ∧ finds true r' k n
                   ∧ isRecord n = true ∧ data n = stored v).
Proof.
  intros Hinv Hroot Hnil Hkl Hvl.
  unfold Put. destruct k as [l|]; [|done]. simpl is_nil. cbv iota.
  destruct (Z.gtb_spec (Z.of_nat (len (Some l))) maxKeyBytes); [lia|].
  destruct (Z.gtb_spec (Z.of_nat (len v)) maxValueBytes); [lia|].
  pose proof (setValue_shape (blobs a) (setKey emptyNode (Some l)) v) as [Hsk Hsc].
  pose proof (setValue_stored (blobs a) (setKey emptyNode (Some l)) v) as [Hsr Hsd].
  destruct (setValue (blobs a) (setKey emptyNode (Some l)) v) as [bs newNode].
  simpl in Hsk, Hsc, Hsr, Hsd.
  unfold empty. simpl root. simpl numRecords.
  destruct (root a) as [r|] eqn:Hr.
  - specialize (Hinv r eq_refl).
    destruct ((0 <? len (key r))%nat
              && is_nil (longestCommonPrefix (key r) (Some l))) eqn:C.
    + unbool. rewrite is_nil_longestCommonPrefix in *. unbool.
      set (X := addChild (addChild (keyNode None) r) newNode).
      eexists. split; [reflexivity|]. intros Hk.
      assert (Hd : distinctHeads X).
      { apply distinctHeads_pair; try done.
        - by apply distinctHeads_leaf.
        - apply not_true_iff_false. rewrite sharePrefix_mismatch, Hsk. lia. }
      destruct (findCompatibleChild_linked X (Some l) newNode) as [j Hj];
        try done.
      { unfold X. rewrite children_addChild. apply elem_of_cons. by left. }
      { rewrite Hsk. by apply sharePrefix_diag. }
      exists X, newNode. split; [reflexivity|]. split; [|done].
      apply (finds_below _ _ _ j newNode); try done; [by left|].
      apply finds_self; [by rewrite Hsk|by right].
    + destruct (put_loop_finds (height r)
                  (mkArc (Some r) (numNodes a) (numRecords a) bs)
                  [] r (Some l) newNode v (Some l))
        as (a' & r' & n & Hput & Hf); try done.
      { intros _ Hlen. apply sharePrefix_mismatch.
        unbool. rewrite is_nil_longestCommonPrefix in C. unbool. lia. }
      exists a'. split; [done|]. intros _. by exists r', n.
  - rewrite Hroot by done. simpl.
    eexists. split; [reflexivity|]. intros _.
    exists newNode, newNode. split; [reflexivity|].
    split; [|done]. apply finds_self; [by rewrite Hsk|by left].
Qed.

(** X10: on every tree that calls of [Put], [Delete] and [Clear] make of
    the empty tree, [Put] of a non-nil key and a value within the limits
    succeeds; the [Get] of the key that follows returns what [setValue]
    stored, when the key is not empty; and the [Get] of every other key
    returns what it returned before. *)
Theorem Put_insert (a : Arc) (k v : bytes) :
  live a →
  k ≠ None → Z.of_nat (len k) ≤ maxKeyBytes →
  Z.of_nat (len v) ≤ maxValueBytes →
  ∃ a', Put a k v = Returns (a', None)
        ∧ ((0 < len k)%nat → Get a' k = Returns (stored v, None))
        ∧ ∀ k', k' ≠ None → elems k' ≠ elems k → Get a' k' = Get a k'.
Proof.
  intros Ha Hk Hkl Hvl.
  destruct (Put_finds a k v) as (a' & Hput & Hf); try done.
  { intros r Hr. by destruct (live_invariant a Ha r Hr). }
  { by apply live_root. }
  exists a'. split; [done|]. split.
  - intros Hlen. destruct (Hf Hlen) as (r' & n & Hr' & Hn & Hrec & <-).
    by eapply Get_finds.
  - intros k' Hk' Hne. by eapply Put_others.
Qed.

End put_insert.

Lemma Put_insert_witness :
  ∃ a', Put (H := sumHash) applArc (lit "applet") (lit "java")
        = Returns (a', None)
        ∧ ((0 < len (lit "applet"))%nat →
           Get a' (lit "applet")
           = Returns (stored (H := sumHash) (lit "java"), None))
        ∧ ∀ k', k' ≠ None → elems k' ≠ elems (lit "applet") →
                Get a' k' = Get applArc k'.
Proof.
  apply (Put_insert (H := sumHash) applArc (lit "applet") (lit "java")).
  - apply reachable_live, applArc_reachable.
  - discriminate.
  - vm_compute; discriminate.
  - vm_compute; discriminate.
Defined.

(** ** What [Put] does to the number of records *)

Section put_counts.
Context {H : Blob.Hash}.

Lemma put_loop_numRecords fuel a ctx current k newNode v a' :
  (height current ≤ fuel)%nat →
  key newNode = k →
  (ctx ≠ [] ∨ (0 < len (key current))%nat →
   (0 < mismatch (elems (key current)) (elems k))%nat) →
  put_loop fuel a ctx current k newNode v = Returns (a', None) →
  numRecords a'
  = match valueAt (bool_decide (ctx = [])) current (elems k) with
    | Some _ => numRecords a
    | None => int_wrap (numRecords a + 1)
    end.
Proof.
  revert ctx current k newNode.
  induction fuel as [|fuel IH]; intros ctx current k newNode Hfuel Hkey Hshare.
  { destruct current; simpl in Hfuel; lia. }
  simpl. rewrite len_longestCommonPrefix. subst k.
  pose proof (mismatch_le_l (elems (key current)) (elems (key newNode))) as Hml.
  pose proof (mismatch_le_r (elems (key current)) (elems (key newNode))) as Hmr.
  fold (len (key current)) in Hml. fold (len (key newNode)) in Hmr.
  assert (Hroot : bool_decide (ctx = []) = true
                  ∨ (0 < mismatch (elems (key current)) (elems (key newNode)))%nat).
  { destruct ctx; [by left|right]. apply Hshare. by left. }
  rewrite valueAt_unfold. cbv zeta.
  set (m := mismatch (elems (key current)) (elems (key newNode))) in *.
  fold (len (key newNode)).
  assert (Ht1 : (m =? 0)%nat && negb (bool_decide (ctx = [])) = false).
  { apply andb_false_iff. destruct Hroot as [->|?]; [by right|left].
    apply Nat.eqb_neq. lia. }
  rewrite Ht1.
  destruct ((m =? len (key current))%nat && (m =? len (key newNode))%nat) eqn:C1.
  { (* exact match *)
    unbool.
    destruct (setValue (blobs a) current v) as [bs current1].
    intros [= <-]. simpl.
    rewrite !(proj2 (Nat.eqb_eq _ _)) by lia. simpl.
    by destruct (isRecord current). }
  destruct ((m =? len (key newNode))%nat && (m <? len (key current))%nat) eqn:C2.
  { unbool.
    replace (m =? len (key current))%nat with false
      by (symmetry; apply Nat.eqb_neq; lia).
    simpl. destruct ctx as [|[parent i] up]; [by intros [= <-]|].
    destruct (removeChild parent current); [done|]. by intros [= <-]. }
  destruct ((0 <? m)%nat && (m <? len (key current))%nat) eqn:C3.
  { unbool.
    replace (m =? len (key current))%nat with false
      by (symmetry; apply Nat.eqb_neq; lia).
    simpl. unfold splitNode. destruct ctx as [|[parent i] up]; by intros [= <-]. }
  unbool.
  assert (Hm : m = len (key current) ∧ (m < len (key newNode))%nat).
  { destruct (decide (m = len (key current))) as [Hm|Hm]; [lia|].
    assert (0 < m)%nat; [apply Hshare; right|]; lia. }
  destruct Hm as [Hm Hmn].
  rewrite (proj2 (Nat.eqb_eq _ _) Hm). cbn [negb].
  replace (m =? len (key newNode))%nat with false
    by (symmetry; apply Nat.eqb_neq; lia).
  rewrite <- elems_slice_from.
  rewrite (valueBelow_findCompatibleChild _ _ 0).
  fold (findCompatibleChild current (slice_from (key newNode) m)).
  pose proof (findCompatibleChild_spec current (slice_from (key newNode) m))
    as Hfind.
  destruct (findCompatibleChild current _) as [[i child]|] eqn:Hfc.
  - destruct Hfind as [Hi Hs]. intros Hput.
    rewrite (IH ((current, i) :: ctx) child (slice_from (key newNode) m)
               (setKey newNode (slice_from (key newNode) m)));
      try done.
    + apply list_elem_of_lookup_2 in Hi. apply height_child in Hi. lia.
    + intros _. by apply sharePrefix_mismatch.
  - destruct ctx as [|f up]; [|by intros [= <-]].
    destruct (_ || _); by intros [= <-].
Qed.

Lemma Put_numRecords (a : Arc) (k v : bytes) (a' : Arc) :
  Put a k v = Returns (a', None) →
  numRecords a'
  = match root a with
    | Some r =>
        match valueAt true r (elems k) with
        | Some _ => numRecords a
        | None => int_wrap (numRecords a + 1)
        end
    | None => 1
    end.
Proof.
  unfold Put. destruct (is_nil k); [done|].
  destruct (Z.of_nat (len k) >? maxKeyBytes); [done|].
  destruct (Z.of_nat (len v) >? maxValueBytes); [done|].
  pose proof (setValue_shape (blobs a) (setKey emptyNode k) v) as [Hsk _].
  destruct (setValue (blobs a) (setKey emptyNode k) v) as [bs newNode].
  simpl in Hsk. unfold empty. simpl root. simpl numRecords.
  destruct (root a) as [r|] eqn:Hr.
  - destruct ((0 <? len (key r))%nat
              && is_nil (longestCommonPrefix (key r) k)) eqn:C.
    + unbool. rewrite is_nil_longestCommonPrefix in *. unbool.
      intros [= <-]. simpl. rewrite valueAt_off; [done|lia].
    + intros Hput.
      apply put_loop_numRecords in Hput; try done.
      intros [?|Hlen]; [done|].
      unbool. rewrite is_nil_longestCommonPrefix in C. unbool. lia.
  - destruct (numRecords a =? 0); [|done]. by intros [= <-].
Qed.

End put_counts.

(** ** No child has an empty key *)

Lemma proper_inv (n : node) :
  proper n →
  Forall (λ c, (0 < len (key c))%nat) (children n)
  ∧ Forall proper (children n).
Proof. intros Hn. by destruct Hn. Qed.

Lemma proper_leaf (n : node) : children n = [] → proper n.
Proof. intros Hc. constructor; rewrite Hc; constructor. Qed.

Lemma proper_children (n n' : node) :
  children n' = children n → proper n → proper n'.
Proof. intros Hc (Hk & Hall)%proper_inv. constructor; by rewrite Hc. Qed.

Lemma proper_child (n c : node) :
  proper n → c ∈ children n → proper c ∧ (0 < len (key c))%nat.
Proof.
  intros (Hk & Hall)%proper_inv Hc. rewrite Forall_forall in Hk, Hall. auto.
Qed.

Lemma proper_addChild (n c : node) :
  proper n → proper c → (0 < len (key c))%nat → proper (addChild n c).
Proof.
  intros (Hk & Hall)%proper_inv Hc Hlen.
  constructor; rewrite children_addChild; by constructor.
Qed.

Lemma proper_removeChild (n c n1 : node) :
  removeChild n c = inr n1 → proper n → proper n1.
Proof.
  intros Hr (Hk & Hall)%proper_inv.
  destruct (removeChild_inr_split _ _ _ Hr) as (l1 & d & l2 & Hc & _ & _ & ->).
  rewrite Hc in Hk, Hall.
  apply Forall_app in Hk as [Hk1 Hk2]. apply Forall_cons in Hk2 as [_ Hk2].
  apply Forall_app in Hall as [H1 H2]. apply Forall_cons in H2 as [_ H2].
  constructor; simpl; by apply Forall_app.
Qed.

Lemma proper_setChild (p : node) (i : nat) (n' : node) :
  proper p → proper n' → (0 < len (key n'))%nat → proper (setChild p i n').
Proof.
  intros (Hk & Hall)%proper_inv Hn' Hlen.
  constructor; simpl; by apply Forall_insert.
Qed.

Lemma proper_ctx_key (ctx : list frame) (n : node) :
  proper_ctx ctx n → ctx ≠ [] → (0 < len (key n))%nat.
Proof.
  destruct ctx as [|[p i] up]; [done|]. intros (Hi & Hp & _) _.
  apply (proper_child p); [done|]. by eapply list_elem_of_lookup_2.
Qed.

Lemma proper_plug (ctx : list frame) (n n' : node) :
  proper_ctx ctx n → proper n' → len (key n') = len (key n) →
  proper (plug ctx n').
Proof.
  revert n n'. induction ctx as [|[p i] up IH]; intros n n'; [done|].
  intros Hctx Hn' Hk.
  pose proof (proper_ctx_key _ _ Hctx) as Hlen. destruct Hctx as (Hi & Hp & Hup).
  change (proper (plug up (setChild p i n'))).
  apply (IH p); [done| |done].
  apply proper_setChild; [done|done|]. rewrite Hk. by apply Hlen.
Qed.

Section put_proper.
Context {H : Blob.Hash}.

Lemma put_loop_proper fuel a ctx current k newNode v a' :
  put_loop fuel a ctx current k newNode v = Returns (a', None) →
  proper current → proper_ctx ctx current → proper newNode →
  key newNode = k → (0 < len k)%nat →
  (ctx ≠ [] ∨ (0 < len (key current))%nat →
   (0 < mismatch (elems (key current)) (elems k))%nat) →
  ∃ r', root a' = Some r' ∧ proper r'.
Proof.
  revert ctx current k newNode a'.
  induction fuel as [|fuel IH]; intros ctx current k newNode a'; simpl; [done|].
  intros Hput Hcur Hctx Hnew Hkey Hk Hshare. subst k.
  rewrite len_longestCommonPrefix in Hput.
  pose proof (mismatch_le_l (elems (key current)) (elems (key newNode))) as Hml.
  pose proof (mismatch_le_r (elems (key current)) (elems (key newNode))) as Hmr.
  fold (len (key current)) in Hml. fold (len (key newNode)) in Hmr.
  set (m := mismatch (elems (key current)) (elems (key newNode))) in *.
  assert (Hcur1 : ∀ k', proper (setKey current k')).
  { intros k'. by apply (proper_children current). }
  assert (Hnew1 : ∀ k', proper (setKey newNode k')).
  { intros k'. by apply (proper_children newNode). }
  destruct ((m =? len (key current))%nat && (m =? len (key newNode))%nat) eqn:C1.
  { (* exact match *)
    pose proof (setValue_shape (blobs a) current v) as [Hsk Hsc].
    destruct (setValue (blobs a) current v) as [bs current1]. simpl in *.
    injection Hput as <-. eexists; split; [reflexivity|].
    apply (proper_plug _ current); [done| |by rewrite Hsk].
    by apply (proper_children current). }
  destruct ((m =? len (key newNode))%nat && (m <? len (key current))%nat) eqn:C2.
  { (* newNode becomes the parent of current *)
    unbool.
    set (current1 := setKey current _) in *.
    assert (Hn1 : proper (addChild newNode current1)).
    { apply proper_addChild; [done|apply Hcur1|].
      simpl. rewrite len_slice_from. lia. }
    destruct ctx as [|[parent i] up].
    - injection Hput as <-. eauto.
    - destruct Hctx as (Hi & Hp & Hup).
      destruct (removeChild parent current) as [err|parent1] eqn:Hrm; [done|].
      injection Hput as <-. eexists; split; [reflexivity|].
      apply (proper_plug _ parent); [done| |].
      + apply proper_addChild; [|done|done]. by eapply proper_removeChild.
      + simpl. by destruct (removeChild_inr _ _ _ Hrm) as (-> & _). }
  destruct ((0 <? m)%nat && (m <? len (key current))%nat) eqn:C3.
  { (* split *)
    unbool. assert (Hmn : (m < len (key newNode))%nat) by lia.
    injection Hput as <-. unfold splitNode.
    rewrite len_longestCommonPrefix. fold m.
    set (newParent := keyNode _).
    set (X := addChild (addChild newParent _) _).
    assert (HX : proper X).
    { apply proper_addChild; [|apply Hnew1|].
      - apply proper_addChild; [by apply proper_leaf|apply Hcur1|].
        simpl. rewrite len_slice_from. lia.
      - simpl. rewrite len_slice_from. lia. }
    assert (HlX : (0 < len (key X))%nat).
    { simpl. rewrite len_longestCommonPrefix. by fold m. }
    destruct ctx as [|[parent i] up]; [eauto|].
    destruct Hctx as (Hi & Hp & Hup).
    destruct (removeChild_linked _ _ _ Hi) as [parent1 Hrm]. rewrite Hrm.
    eexists; split; [reflexivity|].
    apply (proper_plug _ parent); [done| |].
    + apply proper_addChild; [by eapply proper_removeChild|done|done].
    + simpl. by destruct (removeChild_inr _ _ _ Hrm) as (-> & _). }
  (* descent *)
  unbool.
  assert (Hm : m = len (key current) ∧ (m < len (key newNode))%nat).
  { destruct (decide (m = len (key current))) as [Hm|Hm]; [lia|].
    assert (0 < m)%nat; [apply Hshare; right|]; lia. }
  destruct Hm as [Hm Hmn].
  assert (Hk1 : (0 < len (slice_from (key newNode) m))%nat).
  { rewrite len_slice_from. lia. }
  pose proof (findCompatibleChild_spec current (slice_from (key newNode) m))
    as Hfind.
  destruct (findCompatibleChild current _) as [[i child]|] eqn:Hfc.
  - destruct Hfind as [Hi Hs].
    apply (IH _ _ _ _ _ Hput); try done.
    + apply (proper_child current); [done|]. by eapply list_elem_of_lookup_2.
    + intros _. by apply sharePrefix_mismatch.
  - assert (Hadd : proper (addChild current
                             (setKey newNode (slice_from (key newNode) m)))).
    { apply proper_addChild; [done|apply Hnew1|done]. }
    destruct ctx as [|f up].
    + replace (is_nil (key current) || (m =? len (key current))%nat) with true
        in Hput
        by (symmetry; apply orb_true_iff; right; by apply Nat.eqb_eq).
      injection Hput as <-. eauto.
    + injection Hput as <-. eexists; split; [reflexivity|].
      by apply (proper_plug (f :: up) current).
Qed.

Lemma Put_proper a k v a' :
  Put a k v = Returns (a', None) → (0 < len k)%nat →
  (∀ r, root a = Some r → proper r) → ∀ r', root a' = Some r' → proper r'.
Proof.
  unfold Put. intros Hput Hk Hinv.
  destruct (is_nil k); [done|].
  destruct (Z.of_nat (len k) >? maxKeyBytes); [done|].
  destruct (Z.of_nat (len v) >? maxValueBytes); [done|].
  pose proof (setValue_shape (blobs a) (setKey emptyNode k) v) as [Hsk Hsc].
  destruct (setValue (blobs a) (setKey emptyNode k) v) as [bs newNode].
  simpl in Hsk, Hsc.
  assert (Hnew : proper newNode) by by apply proper_leaf.
  unfold empty in Hput. simpl in Hput.
  destruct (root a) as [r|] eqn:Hr.
  - specialize (Hinv r eq_refl).
    destruct ((0 <? len (key r))%nat
              && is_nil (longestCommonPrefix (key r) k)) eqn:C.
    + unbool. injection Hput as <-. simpl. intros r' [= <-].
      apply proper_addChild; [|done|by rewrite Hsk].
      apply proper_addChild; [by apply proper_leaf|done|done].
    + intros r' Hr'.
      destruct (put_loop_proper _ _ _ _ _ _ _ _ Hput) as (r'' & Hr'' & Hd);
        try done; [|congruence].
      intros [?|Hlen]; [done|].
      unbool. rewrite is_nil_longestCommonPrefix in C. unbool. lia.
  - destruct (numRecords a =? 0); [|done].
    injection Hput as <-. simpl. by intros r' [= <-].
Qed.

End put_proper.

(** ** How many children a node can have *)

Lemma NoDup_bytes_length (l : list byte) : NoDup l → (length l ≤ 256)%nat.
Proof.
  intros Hnd.
  assert (Hnd' : NoDup ((λ b, N.to_nat (Byte.to_N b)) <$> l)).
  { apply NoDup_fmap_2_strong; [|done]. intros x y _ _ Hxy.
    apply to_N_inj. lia. }
  assert (Hsub : (λ b, N.to_nat (Byte.to_N b)) <$> l ⊆+ seq 0 256).
  { apply NoDup_submseteq; [done|].
    intros x (b & -> & _)%list_elem_of_fmap. apply elem_of_seq.
    pose proof (Byte.to_N_bounded b). lia. }
  apply submseteq_length in Hsub. by rewrite length_fmap, length_seq in Hsub.
Qed.

Lemma length_heads (cs : list node) :
  Forall (λ c, (0 < len (key c))%nat) cs →
  length (omap firstByte cs) = length cs.
Proof.
  induction 1 as [|c cs Hc _ IH]; [done|].
  change (omap firstByte (c :: cs))
    with (match firstByte c with
          | Some y => y :: omap firstByte cs
          | None => omap firstByte cs
          end).
  destruct (firstByte c) eqn:Hb; [simpl; by rewrite IH|].
  unfold firstByte in Hb. unfold len in Hc.
  destruct (elems (key c)); simpl in *; [lia|done].
Qed.

Lemma children_bound (n : node) :
  distinctHeads n → proper n → (length (children n) ≤ 256)%nat.
Proof.
  intros [Hnd _]%distinctHeads_inv [Hk _]%proper_inv.
  rewrite <- (length_heads _ Hk). by apply NoDup_bytes_length.
Qed.

Lemma numChildren_length (n : node) :
  distinctHeads n → proper n → tidy n →
  numChildren n = Z.of_nat (length (children n)).
Proof.
  intros Hd Hp (_ & Hc & _)%tidy_inv. rewrite Hc.
  pose proof (children_bound n Hd Hp). apply int_wrap_id. lia.
Qed.

(** ** [Delete] at the root and elsewhere *)

Lemma find_loop_at_root fuel parent current k n parent' :
  find_loop fuel [] parent current k = Returns (inr (n, [], parent')) →
  n = current ∧ elems (key current) = elems k.
Proof.
  destruct fuel as [|fuel]; [done|]. simpl.
  rewrite len_longestCommonPrefix.
  destruct (_ && _); [done|].
  destruct (Nat.eqb_spec (mismatch (elems (key current)) (elems k))
              (len (key current))) as [Hm|]; [|done].
  cbn [negb].
  destruct (Nat.eqb_spec (mismatch (elems (key current)) (elems k)) (len k))
    as [Hl|].
  { intros [= <- _]. split; [done|]. by apply mismatch_eq. }
  destruct (hasChildren current); [|done]. cbn [negb].
  destruct (findCompatibleChild current _) as [[i child]|]; [|done].
  intros Hf. apply find_loop_path in Hf.
  destruct Hf as [[? _]|Hf]; [done|simpl in Hf; lia].
Qed.

Lemma find_loop_root_key fuel parent current k :
  elems (key current) = elems k →
  find_loop (S fuel) [] parent current k = Returns (inr (current, [], parent)).
Proof.
  intros He. simpl. rewrite len_longestCommonPrefix, He, mismatch_diag.
  rewrite andb_false_r. unfold len. rewrite He, !Nat.eqb_refl. done.
Qed.

Lemma Delete_elsewhere_eq (a : Arc) (k : bytes) (a' : Arc) (e : option error) :
  (∀ r, root a = Some r → elems (key r) ≠ elems k) →
  Delete a k = Returns (a', e) → a' = a.
Proof.
  intros Hne. unfold Delete.
  destruct (is_nil k); [by intros [= <- <-]|].
  destruct (empty a) eqn:He; [by intros [= <- <-]|].
  destruct (_ >? _); [by intros [= <- <-]|].
  destruct (findNodeAndParent a k) as [[err|[[n ctx] parent]]| |] eqn:Hf;
    try done.
  { by intros [= <- <-]. }
  destruct (negb (isRecord n)); [by intros [= <- <-]|].
  case_bool_decide as Hctx.
  - subst ctx. exfalso.
    unfold findNodeAndParent in Hf. destruct (is_nil k); [done|].
    rewrite He in Hf. destruct (root a) as [r|] eqn:Hr; [|done].
    apply find_loop_at_root in Hf as [_ Hk]. by apply (Hne r).
  - destruct parent; by intros [= <- <-].
Qed.

Lemma Delete_at_root (a : Arc) (k : bytes) (a' : Arc) (r : node) :
  root a = Some r → elems (key r) = elems k →
  Delete a k = Returns (a', None) →
  isRecord r = true ∧ deleteRootNode a = Returns a'.
Proof.
  intros Hr Hk. unfold Delete, findNodeAndParent, empty. rewrite Hr.
  destruct (is_nil k); [done|].
  destruct (_ >? _); [done|].
  destruct (height r) as [|h] eqn:Hh; [by destruct r|].
  rewrite find_loop_root_key by done.
  destruct (isRecord r); [|done]. simpl.
  destruct (deleteRootNode a); try done. by intros [= <-].
Qed.

Lemma valueAt_root_key (r : node) :
  valueAt true r (elems (key r))
  = if isRecord r then Some (data r) else None.
Proof.
  rewrite valueAt_unfold. cbv zeta. rewrite mismatch_diag, andb_false_r.
  unfold len. by rewrite !Nat.eqb_refl.
Qed.

Lemma deleteRootNode_valueOf (a a' : Arc) (r : node) :
  root a = Some r → distinctHeads r → tidy r → proper r →
  deleteRootNode a = Returns a' →
  (∀ l, valueOf a' l
        = if bool_decide (l = elems (key r)) then None else valueAt true r l)
  ∧ match root a' with
    | Some _ => numRecords a' = int_wrap (numRecords a - 1)
    | None => numRecords a' = 0
    end.
Proof.
  intros Hr Hd Ht Hp. unfold deleteRootNode. rewrite Hr.
  pose proof (numChildren_length r Hd Hp Ht) as Hnum.
  unfold isLeaf. destruct (children r) as [|child cs] eqn:Hc.
  { intros [= <-]. split; [|done]. intros l. unfold valueOf. cbn [root].
    case_bool_decide; [done|]. symmetry. by apply valueAt_leaf. }
  destruct (Z.eqb_spec (numChildren r) 1) as [H1|H1].
  - intros [= <-]. split; [|done]. intros l. unfold valueOf. cbn [root].
    assert (cs = []) as ->.
    { rewrite Hnum in H1. simpl in H1. destruct cs; [done|simpl in H1; lia]. }
    destruct (proper_child r child Hp) as [_ Hlen].
    { rewrite Hc. by left. }
    set (c' := prependKey child (key r)).
    assert (Hk' : elems (key c') = elems (key r) ++ elems (key child))
      by apply key_prependKey.
    assert (Hs : elems (key child) ≠ []).
    { intros He. unfold len in Hlen. rewrite He in Hlen. simpl in Hlen. lia. }
    assert (Hsame : isRecord c' = isRecord child ∧ data c' = data child
                    ∧ children c' = children child).
    { unfold c', prependKey. by destruct (_ =? _)%nat. }
    destruct Hsame as (Hrec & Hdat & Hch).
    destruct (decide (mismatch (elems (key r)) l = length (elems (key r))))
      as [He|Hne].
    + apply mismatch_prefix in He.
      set (rest := drop (length (elems (key r))) l) in *. rewrite He.
      rewrite (valueAt_strip true c' child (elems (key r)) (elems (key child))
                 rest); try done.
      case_bool_decide as Hl.
      * assert (rest = []) as ->.
        { apply (f_equal length) in Hl. rewrite length_app in Hl.
          destruct rest; [done|simpl in Hl; lia]. }
        simpl. by rewrite mismatch_nil_r.
      * rewrite valueAt_unfold. cbv zeta. rewrite mismatch_app_r.
        rewrite andb_false_r. unfold len. rewrite Nat.eqb_refl. cbn [negb].
        replace (length (elems (key r)) =? length (elems (key r) ++ rest))%nat
          with false.
        2:{ symmetry. apply Nat.eqb_neq. rewrite length_app.
            destruct rest; [|simpl; lia]. by rewrite app_nil_r in Hl. }
        by rewrite drop_app_length, Hc.
    + rewrite bool_decide_eq_false_2.
      2:{ intros ->. by rewrite mismatch_diag in Hne. }
      pose proof (mismatch_le_l (elems (key r)) l).
      rewrite !valueAt_off; try done.
      unfold len. rewrite Hk', mismatch_app_lt, length_app; lia.
  - intros [= <-]. split; [|done]. intros l. unfold valueOf. cbn [root].
    case_bool_decide as Hl.
    + subst l.
      match goal with |- valueAt true ?x _ = _ => exact (valueAt_root_key x) end.
    + apply (valueAt_ext _ _ _ []);
        [done|by left|intros rest _; simpl; by rewrite Hc|by rewrite app_nil_r].
Qed.

(** ** The tree as a finite map *)

Lemma Get_valueOf (a : Arc) (k : bytes) :
  (root a = None → numRecords a = 0) → k ≠ None →
  Get a k = match valueOf a (elems k) with
            | Some d => Returns (d, None)
            | None => Returns (None, Some ErrKeyNotFound)
            end.
Proof.
  intros Hroot Hk. unfold valueOf. destruct (root a) as [r|] eqn:Hr.
  - by apply Get_valueAt.
  - destruct k as [l|]; [|done].
    unfold Get, findNodeAndParent, empty. simpl. rewrite Hr, Hroot; done.
Qed.

Section map_model.
Context {H : Blob.Hash}.

Lemma Put_bounds (a : Arc) (k v : bytes) (a' : Arc) :
  Put a k v = Returns (a', None) →
  k ≠ None ∧ Z.of_nat (len k) ≤ maxKeyBytes
  ∧ Z.of_nat (len v) ≤ maxValueBytes.
Proof.
  unfold Put. destruct k as [l|]; [|done]. simpl is_nil. cbv iota.
  destruct (Z.gtb_spec (Z.of_nat (len (Some l))) maxKeyBytes); [done|].
  destruct (Z.gtb_spec (Z.of_nat (len v)) maxValueBytes); [done|].
  intros _. repeat split; try done; lia.
Qed.

Lemma Put_valueOf (a : Arc) (k v : bytes) (a' : Arc) :
  live a → (0 < len k)%nat → Put a k v = Returns (a', None) →
  ∀ l, valueOf a' l
       = if bool_decide (l = elems k) then Some (stored v) else valueOf a l.
Proof.
  intros Ha Hk Hput l.
  destruct (Put_bounds _ _ _ _ Hput) as (Hnil & Hkl & Hvl).
  assert (Ha' : live a') by by eapply live_Put.
  pose proof (live_root a Ha) as Hr. pose proof (live_root a' Ha') as Hr'.
  case_bool_decide as Hl.
  - subst l.
    destruct (Put_finds a k v) as (a2 & Hput2 & Hf); try done.
    { intros r Hroot. by destruct (live_invariant a Ha r Hroot). }
    rewrite Hput in Hput2. injection Hput2 as <-.
    destruct (Hf Hk) as (r' & n & Hroot' & Hn & Hrec & <-).
    pose proof (Get_finds a' k r' n Hroot' Hnil Hn Hrec) as Hg.
    rewrite (Get_valueOf a' k Hr' Hnil) in Hg.
    destruct (valueOf a' (elems k)); congruence.
  - pose proof (Put_others a k v a' (Some l) Ha Hput) as Hg.
    rewrite (Get_valueOf a' (Some l)), (Get_valueOf a (Some l)) in Hg;
      try done.
    simpl in Hg. specialize (Hg ltac:(done) Hl).
    destruct (valueOf a' l), (valueOf a l); congruence.
Qed.

Lemma holds_inv (a : Arc) (m : gmap (list byte) bytes) :
  holds a m →
  live a ∧ (∀ r, root a = Some r → proper r)
  ∧ numRecords a = int_wrap (Z.of_nat (size m))
  ∧ ∀ l, valueOf a l = m !! l.
Proof.
  induction 1 as [|a m k v a' _ (Ha & Hp & Hn & Hv) Hk Hput
                  |a m k v a' e _ (Ha & Hp & Hn & Hv) Hput
                  |a m k a' r _ (Ha & Hp & Hn & Hv) Hr Hkey Hdel
                  |a m k a' e _ IH Hne Hdel
                  |a m k a' e _ IH Hdel
                  |a m _ (Ha & _)].
  - split; [constructor|]. by repeat split.
  - split; [by eapply live_Put|]. split; [by eapply Put_proper|].
    pose proof (Put_valueOf a k v a' Ha Hk Hput) as Hv'.
    split.
    + rewrite (Put_numRecords _ _ _ _ Hput), map_size_insert, <- Hv.
      unfold valueOf. destruct (root a) as [r|] eqn:Hr.
      * destruct (valueAt true r (elems k)); simpl; [done|].
        rewrite Hn, int_wrap_add_l. f_equal. lia.
      * simpl. pose proof (live_root a Ha Hr) as H0. rewrite H0 in Hn.
        rewrite Nat2Z.inj_succ, <- Z.add_1_r, <- int_wrap_add_l, <- Hn. done.
    + intros l. rewrite Hv'. case_bool_decide as Hl.
      * subst l. by rewrite lookup_insert_eq.
      * rewrite lookup_insert_ne by done. apply Hv.
  - split; [by eapply live_Put|].
    apply Put_error in Hput as (Hr & _ & Hrec).
    unfold valueOf. rewrite Hr, Hrec. split; [done|]. split; [done|].
    intros l. apply (Hv l).
  - destruct (Delete_at_root a k a' r Hr Hkey Hdel) as [Hrec Hd].
    destruct (live_invariant a Ha r Hr) as [Hdh Ht].
    destruct (deleteRootNode_valueOf a a' r Hr Hdh Ht (Hp r Hr) Hd)
      as [Hv' Hn'].
    assert (Hlook : ∀ l, valueOf a' l = delete (elems k) m !! l).
    { intros l. rewrite Hv', Hkey. case_bool_decide as Hl.
      - subst l. by rewrite lookup_delete_eq.
      - rewrite lookup_delete_ne by done. rewrite <- Hv. unfold valueOf.
        by rewrite Hr. }
    split; [by eapply live_Delete|]. split.
    { eapply (deleteRootNode_root proper); try done.
      - intros n n' Hc _. by apply proper_children.
      - intros n c Hn0 Hc. by apply (proper_child n). }
    split; [|done].
    destruct (root a') as [r'|] eqn:Hr'.
    + rewrite Hn', Hn, <- Z.add_opp_r, int_wrap_add_l, map_size_delete.
      assert (Hin : m !! elems k = Some (data r)).
      { rewrite <- Hv. unfold valueOf. rewrite Hr, <- Hkey, valueAt_root_key.
        by rewrite Hrec. }
      rewrite Hin. simpl.
      assert (size m ≠ 0%nat).
      { intros Hz. apply map_size_empty_iff in Hz. by rewrite Hz in Hin. }
      f_equal. lia.
    + rewrite Hn'.
      assert (delete (elems k) m = ∅) as ->; [|done].
      apply map_empty. intros l. rewrite <- Hlook. unfold valueOf.
      by rewrite Hr'.
  - by apply Delete_elsewhere_eq in Hdel as ->.
  - apply Delete_cases in Hdel as [->|[? _]]; done.
  - split; [by constructor|]. by repeat split.
Qed.

(** X11: a tree made from the tree of [New] by returning calls of [Put],
    [Delete] and [Clear], no successful [Put] of the empty key among them,
    is the finite map of these calls: [Len] is the size of the map, as an
    [int], and [Get] of a non-nil key returns the entry of the map, or
    [ErrKeyNotFound] when the map has none.  In the map a [Delete] removes
    its key only when the key is the key of the root node. *)
Theorem holds_map (a : Arc) (m : gmap (list byte) bytes) :
  holds a m →
  Len a = int_wrap (Z.of_nat (size m))
  ∧ ∀ k, k ≠ None →
         Get a k = match m !! elems k with
                   | Some d => Returns (d, None)
                   | None => Returns (None, Some ErrKeyNotFound)
                   end.
Proof.
  intros (Ha & _ & Hn & Hv)%holds_inv. split; [done|].
  intros k Hk. rewrite Get_valueOf, Hv; try done. by apply live_root.
Qed.

(** X12: on such a tree a [Delete] of the key of the root node that returns
    no error removes the key: the [Get] of the key that follows returns
    [ErrKeyNotFound], and the [Get] of every other key returns what it
    returned before. *)
Theorem Delete_root_removes (a : Arc) (m : gmap (list byte) bytes)
    (k : bytes) (a' : Arc) (r : node) :
  holds a m → root a = Some r → elems (key r) = elems k →
  Delete a k = Returns (a', None) →
  Get a' k = Returns (None, Some ErrKeyNotFound)
  ∧ ∀ k', k' ≠ None → elems k' ≠ elems k → Get a' k' = Get a k'.
Proof.
  intros Hh Hr Hkey Hdel.
  pose proof (holds_Delete_root a m k a' r Hh Hr Hkey Hdel) as Hh'.
  apply holds_inv in Hh as (Ha & _ & _ & Hv).
  apply holds_inv in Hh' as (Ha' & _ & _ & Hv').
  assert (Hk : k ≠ None) by (intros ->; by unfold Delete in Hdel).
  split.
  - rewrite Get_valueOf, Hv', lookup_delete_eq; try done. by apply live_root.
  - intros k' Hk' Hne.
    rewrite (Get_valueOf a'), (Get_valueOf a), Hv', Hv; try done;
      try by apply live_root.
    by rewrite lookup_delete_ne.
Qed.

(** X13: a [Delete] of a key that is not the key of the root node leaves
    the tree as it was, whatever it returns. *)
Theorem Delete_elsewhere (a : Arc) (k : bytes) (a' : Arc) (e : option error) :
  (∀ r, root a = Some r → elems (key r) ≠ elems k) →
  Delete a k = Returns (a', e) → a' = a.
Proof. apply Delete_elsewhere_eq. Qed.

End map_model.

Lemma applArc_holds : holds (H := sumHash) applArc applMap.
Proof.
  eapply (holds_Put _ _ (lit "apply") (lit "verb")).
  - eapply (holds_Put _ _ (lit "application") (lit "form")).
    + eapply (holds_Put _ _ (lit "apple") (lit "sauce")).
      * apply holds_New.
      * vm_compute; lia.
      * reflexivity.
    + vm_compute; lia.
    + reflexivity.
  - vm_compute; lia.
  - reflexivity.
Qed.

Lemma holds_map_witness :
  Len applArc = int_wrap (Z.of_nat (size applMap))
  ∧ ∀ k, k ≠ None →
         Get applArc k = match applMap !! elems k with
                         | Some d => Returns (d, None)
                         | None => Returns (None, Some ErrKeyNotFound)
                         end.
Proof.
  apply (holds_map (H := sumHash) applArc applMap). apply applArc_holds.
Defined.

Lemma chainArc_holds : holds (H := sumHash) chainArc chainMap.
Proof.
  eapply (holds_Put _ _ (lit "app") (lit "store")).
  - eapply (holds_Put _ _ (lit "apple") (lit "sauce")).
    + apply holds_New.
    + vm_compute; lia.
    + reflexivity.
  - vm_compute; lia.
  - reflexivity.
Qed.

Lemma Delete_root_removes_witness :
  Get leafArc (lit "app") = Returns (None, Some ErrKeyNotFound)
  ∧ ∀ k', k' ≠ None → elems k' ≠ elems (lit "app") →
          Get leafArc k' = Get chainArc k'.
Proof.
  apply (Delete_root_removes (H := sumHash) chainArc chainMap (lit "app")
           leafArc
           (mkNode (lit "app") true false 1
              [ mkNode (lit "le") true false 0 [] (lit "sauce") ]
              (lit "store"))).
  - apply chainArc_holds.
  - reflexivity.
  - reflexivity.
  - reflexivity.
Defined.

Lemma Delete_elsewhere_witness :
  Delete applArc (lit "apple") = Returns (applArc, None) ∧ applArc = applArc.
Proof.
  assert (Hdel : Delete applArc (lit "apple") = Returns (applArc, None))
    by reflexivity.
  split; [exact Hdel|].
  apply (Delete_elsewhere applArc (lit "apple") applArc None); [|exact Hdel].
  intros r [= <-]. vm_compute. discriminate.
Defined.

(** ** Every call returns *)

Lemma deleteRootNode_returns (a : Arc) :
  root a ≠ None → ∃ a', deleteRootNode a = Returns a'.
Proof.
  intros Hr. unfold deleteRootNode, isLeaf.
  destruct (root a) as [r|]; [|done].
  destruct (children r); [eauto|]. destruct (_ =? _); eauto.
Qed.

Lemma Delete_returns (a : Arc) (k : bytes) :
  (root a = None → numRecords a = 0) → ∃ res, Delete a k = Returns res.
Proof.
  intros Hroot. unfold Delete.
  destruct (is_nil k); [eauto|]. destruct (empty a); [eauto|].
  destruct (_ >? _); [eauto|].
  destruct (findNodeAndParent_returns a k Hroot) as [[e|[[n ctx] p]] Hf];
    rewrite Hf; [eauto|].
  destruct (negb (isRecord n)); [eauto|].
  case_bool_decide as Hctx.
  - subst ctx. apply findNodeAndParent_root in Hf as (Hr & _).
    destruct (deleteRootNode_returns a) as [a' ->]; [by rewrite Hr|eauto].
  - destruct p; eauto.
Qed.

Section live_calls.
Context {H : Blob.Hash}.

(** X14: on every tree that calls of [Put], [Delete] and [Clear] make of
    the empty tree, [Put], [Get] and [Delete] return: the loops end within
    the height of the tree, and no nil root and no missing child is read. *)
Theorem live_returns (a : Arc) (k v : bytes) :
  live a →
  (∃ res, Put a k v = Returns res)
  ∧ (∃ res, Get a k = Returns res)
  ∧ (∃ res, Delete a k = Returns res).
Proof.
  intros Ha. pose proof (live_root a Ha) as Hroot.
  split; [by apply Put_returns|].
  split; [by apply Get_returns|by apply Delete_returns].
Qed.

End live_calls.

(** X15: a [Get] that returns an error returns no data with it, and the
    error is [ErrNilKey] for the nil key and [ErrKeyNotFound] for every
    other key. *)
Theorem Get_errors (a : Arc) (k d : bytes) (e : error) :
  Get a k = Returns (d, Some e) →
  d = None
  ∧ ((e = ErrNilKey ∧ k = None) ∨ (e = ErrKeyNotFound ∧ k ≠ None)).
Proof.
  unfold Get. destruct k as [l|]; simpl is_nil; cbv iota.
  2:{ intros [= <- <-]. split; [done|by left]. }
  destruct (findNodeAndParent a (Some l)) as [[err|[[n ctx] p]]| |] eqn:Hf;
    try done.
  - intros [= <- <-]. split; [done|right]. split; [|done].
    unfold findNodeAndParent in Hf. simpl in Hf.
    destruct (empty a); [by injection Hf as <-|].
    destruct (root a); [|done]. by apply find_loop_error in Hf.
  - destruct (negb (isRecord n)); [|done].
    intros [= <- <-]. split; [done|by right].
Qed.

Lemma live_returns_witness :
  (∃ res, Put (H := sumHash) applArc (lit "apple") (lit "pie") = Returns res)
  ∧ (∃ res, Get applArc (lit "apple") = Returns res)
  ∧ (∃ res, Delete applArc (lit "apple") = Returns res).
Proof.
  apply (live_returns (H := sumHash) applArc (lit "apple") (lit "pie")).
  apply reachable_live, applArc_reachable.
Defined.

Lemma Get_errors_witness :
  (None : bytes) = None
  ∧ ((ErrKeyNotFound = ErrNilKey ∧ lit "zebra" = None)
     ∨ (ErrKeyNotFound = ErrKeyNotFound ∧ lit "zebra" ≠ None)).
Proof.
  apply (Get_errors applArc (lit "zebra") None ErrKeyNotFound). reflexivity.
Defined.

(** ** Where the code departs from the specification *)

Section departures.
Context {H : Blob.Hash}.

(** C1 (the code departs from it): [Put] of the empty, non-nil key into the
    tree that holds "apple" succeeds, and links a child with an empty key
    segment below a new root with a nil key; the [Get] of the empty key that
    follows stops at that root, which is no record, and answers
    [ErrKeyNotFound].  "apple" is still found. *)
Theorem Put_Get_empty_key_lost :
  ∃ a1 a2,
    Put New (lit "apple") (lit "sauce") = Returns (a1, None)
    ∧ Put a1 (Some []) (lit "x") = Returns (a2, None)
    ∧ Len a2 = 2
    ∧ Get a2 (Some []) = Returns (None, Some ErrKeyNotFound)
    ∧ Get a2 (lit "apple") = Returns (lit "sauce", None).
Proof.
  eexists _, _. split; [reflexivity|]. split; [reflexivity|].
  split; [reflexivity|]. split; reflexivity.
Qed.

(** C2 (the code departs from it): after [Put] of "a" and of "b", [Delete]
    of "a" and then of "b" both return without an error, yet neither node is
    the root, and [Delete] leaves a node that is not the root as it is: two
    records and the root remain. *)
Theorem Delete_keeps_inner_records :
  ∃ a1 a2 a3 a4,
    Put New (lit "a") (lit "1") = Returns (a1, None)
    ∧ Put a1 (lit "b") (lit "2") = Returns (a2, None)
    ∧ Delete a2 (lit "a") = Returns (a3, None)
    ∧ Delete a3 (lit "b") = Returns (a4, None)
    ∧ a4 = a2
    ∧ Len a4 = 2
    ∧ root a4 ≠ None
    ∧ Get a4 (lit "a") = Returns (lit "1", None).
Proof.
  eexists _, _, _, _. split; [reflexivity|]. split; [reflexivity|].
  split; [reflexivity|]. split; [reflexivity|].
  split; [reflexivity|]. split; [reflexivity|]. split; [discriminate|].
  reflexivity.
Qed.

End departures.
